(** * ClickHouse: scalar [byteSwap], the order-preserving parallel
      output formatter and the access storage on disk

    A shallow embedding of
      - [src/Functions/byteSwap.cpp] (module [ByteSwap]),
      - [src/Processors/Formats/Impl/ParallelFormattingOutputFormat.h]
        (module [ParallelFormatting]), and
      - [src/Access/DiskAccessStorage.cpp] (module [DiskAccessStorage]),
    together with the properties stated about them. *)

From Stdlib Require Import ZArith Lia Bool Ascii String.
From stdpp Require Import base tactics option list strings gmap.

(** ** Exceptions shared by the translation units *)

(** [DB::ErrorCodes]: the codes the three source files declare
    ([extern const int ...]); their numeric values are not needed. *)
Inductive ErrorCode : Type :=
  | NOT_IMPLEMENTED
  | DIRECTORY_DOESNT_EXIST
  | FILE_DOESNT_EXIST
  | OTHER_ERROR (code : Z).

(** [DB::Exception(code, message)]. *)
Record Exception : Type := mkException {
  exc_code : ErrorCode;
  exc_message : string
}.

(** * [byteSwap.cpp] *)
Module ByteSwap.

Local Open Scope Z_scope.

(** The integer types [FunctionUnaryArithmetic] instantiates [ByteSwapImpl]
    at: the built-in ones (first overload, [std::is_integral_v]) and the
    wide ones (second overload). *)
Inductive IntegerType : Type :=
  | UInt8 | UInt16 | UInt32 | UInt64 | UInt128 | UInt256
  | Int8 | Int16 | Int32 | Int64 | Int128 | Int256.

(** Any other argument type reaches the third overload; only its demangled
    name matters. *)
Inductive ArgType : Type :=
  | TInteger (T : IntegerType)
  | TOther (type_name : string).

(** [sizeof(T)] in bytes. *)
Definition sizeof (T : IntegerType) : nat :=
  match T with
  | UInt8 | Int8 => 1
  | UInt16 | Int16 => 2
  | UInt32 | Int32 => 4
  | UInt64 | Int64 => 8
  | UInt128 | Int128 => 16
  | UInt256 | Int256 => 32
  end%nat.

Definition is_signed (T : IntegerType) : bool :=
  match T with
  | Int8 | Int16 | Int32 | Int64 | Int128 | Int256 => true
  | _ => false
  end.

(** The [requires] clause of the second overload. *)
Definition is_wide (T : IntegerType) : bool :=
  match T with
  | UInt128 | Int128 | UInt256 | Int256 => true
  | _ => false
  end.

Definition bits (T : IntegerType) : Z := 8 * Z.of_nat (sizeof T).

(** The values of type [T]. *)
Definition in_range (T : IntegerType) (x : Z) : Prop :=
  if is_signed T then - 2 ^ (bits T - 1) <= x < 2 ^ (bits T - 1)
  else 0 <= x < 2 ^ bits T.

(** Two's complement: the bit pattern of a value, and the value of a
    pattern. *)
Definition to_unsigned (T : IntegerType) (x : Z) : Z := x mod 2 ^ bits T.

Definition of_unsigned (T : IntegerType) (u : Z) : Z :=
  if is_signed T && (2 ^ (bits T - 1) <=? u) then u - 2 ^ bits T else u.

(** [std::byteswap] on an [n]-byte pattern: the low byte of [x] is shifted
    into the accumulator [n] times. *)
Fixpoint byteswap_loop (n : nat) (x acc : Z) : Z :=
  match n with
  | O => acc
  | S n' =>
      byteswap_loop n' (Z.shiftr x 8) (Z.lor (Z.shiftl acc 8) (Z.land x 255))
  end.

Definition std_byteswap (T : IntegerType) (x : Z) : Z :=
  of_unsigned T (byteswap_loop (sizeof T) (to_unsigned T x) 0).

(** The object representation of an [n]-byte pattern (little endian, the
    layout of the built-in and of the wide integers on the supported
    targets), and the pattern a representation denotes. *)
Fixpoint object_bytes (n : nat) (u : Z) : list Z :=
  match n with
  | O => []
  | S n' => Z.land u 255 :: object_bytes n' (Z.shiftr u 8)
  end.

Fixpoint value_of_bytes (bs : list Z) : Z :=
  match bs with
  | [] => 0
  | b :: rest => Z.lor b (Z.shiftl (value_of_bytes rest) 8)
  end.

(** Modelled from the spec: [reverseMemcpy] is defined outside [src/]; the
    spec calls the function a "templated scalar function" and the
    documentation registered in [byteSwap.cpp] says it "reverses the bytes of
    an integer".  [reverseMemcpy(dst, src, size)] therefore writes the first
    [size] bytes of [src] into [dst] in reverse order. *)
Definition reverseMemcpy (dst src : list Z) (size : nat) : list Z :=
  rev (take size src) ++ drop size dst.

(** Second overload: [T dest; reverseMemcpy(&dest, &x, sizeof(T)); return dest;]
    ([dest] starts out indeterminate; zeros stand for its old contents). *)
Definition byteSwap_wide (T : IntegerType) (x : Z) : Z :=
  let src := object_bytes (sizeof T) (to_unsigned T x) in
  let dest := reverseMemcpy (replicate (sizeof T) 0) src (sizeof T) in
  of_unsigned T (value_of_bytes dest).

(** [byteSwap<T>(x)]: overload resolution picks the constrained overload
    that applies, else the throwing one. *)
Definition byteSwap (A : ArgType) (x : Z) : Exception + Z :=
  match A with
  | TInteger T =>
      if is_wide T then inr (byteSwap_wide T x) else inr (std_byteswap T x)
  | TOther name =>
      inl (mkException NOT_IMPLEMENTED
             ("byteSwap is not implemented for " ++ name ++ " datatype"))
  end.

(** [ByteSwapImpl<T>::apply]. *)
Definition apply (A : ArgType) (x : Z) : Exception + Z := byteSwap A x.

(** [FunctionUnaryArithmeticMonotonicity<NameByteSwap>::has()]: no
    monotonicity is declared for the function. *)
Definition has : bool := false.

(** ** Auxiliary definitions *)

(** A byte of an object representation. *)
Definition is_byte (b : Z) : Prop := 0 <= b < 256.

(** The pattern whose representation is that of [u] reversed: what both
    overloads are shown to compute. *)
Definition swap_pattern (n : nat) (u : Z) : Z :=
  value_of_bytes (rev (object_bytes n u)).

End ByteSwap.

(** * [ParallelFormattingOutputFormat.h] *)
Module ParallelFormatting.

Local Open Scope nat_scope.

(** ** Data *)

(** [Chunk]: an opaque batch of rows; the formatter only ever asks for its
    number of rows. *)
Record Chunk : Type := mkChunk {
  num_rows : nat;
  columns : list Byte.byte
}.

(** [Chunk{}]. *)
Definition empty_chunk : Chunk := mkChunk 0 [].

(** [IOutputFormat::Statistics], with the members this class touches. *)
Record Statistics : Type := mkStatistics {
  totals : Chunk;
  extremes : Chunk;
  rows_before_limit : nat;
  applied_limit : bool;
  rows_before_aggregation : nat;
  applied_aggregation : bool
}.

Definition empty_statistics : Statistics :=
  mkStatistics empty_chunk empty_chunk 0 false 0 false.

(** Status to synchronize multiple threads.  The spec calls the three
    values [FREE], [FORMATTING] and [READY]. *)
Inductive ProcessingUnitStatus : Type :=
  | READY_TO_INSERT
  | READY_TO_FORMAT
  | READY_TO_READ.

(** Some information about what methods to call from internal parser. *)
Inductive ProcessingUnitType : Type :=
  | START
  | PLAIN
  | PLAIN_FINISH
  | TOTALS
  | EXTREMES
  | FINALIZE.

(** [ProcessingUnit]; its member [statistics] is [unit_statistics] here,
    apart from the member of the same name of the instance. *)
Record ProcessingUnit : Type := mkProcessingUnit {
  status : ProcessingUnitStatus;
  type : ProcessingUnitType;
  chunk : Chunk;
  segment : list Byte.byte;
  actual_memory_size : nat;
  unit_statistics : Statistics;
  rows_num : nat
}.

(** The default member initializers of [ProcessingUnit] ([rows_num] has
    none; it reads as zero here). *)
Definition new_unit : ProcessingUnit :=
  mkProcessingUnit READY_TO_INSERT START empty_chunk [] 0 empty_statistics 0.

(** The inner formatter: what one freshly created [IOutputFormat] writes
    into its buffer for each of its methods, or the exception the method
    throws, and its two capabilities.  A formatter is created for one unit
    and dropped, so a method is a function of its argument alone. *)
Record InnerFormatter : Type := mkInnerFormatter {
  inner_writePrefix : Exception + list Byte.byte;
  inner_consume : Chunk -> Exception + list Byte.byte;
  inner_consumeTotals : Chunk -> Exception + list Byte.byte;
  inner_consumeExtremes : Chunk -> Exception + list Byte.byte;
  inner_writeSuffix : Exception + list Byte.byte;
  inner_finalize : Statistics -> Exception + list Byte.byte;
  inner_areTotalsAndExtremesUsedInFinalize : bool;
  inner_supportsWritingException : bool
}.

(** Used to recreate formatter on every new data piece: every call returns
    a fresh formatter writing to the buffer it is given. *)
Definition InternalFormatterCreator : Type := InnerFormatter.

Inductive Mutex : Type :=
  | mutex
  | statistics_mutex
  | collector_thread_mutex.

Inductive CondVar : Type :=
  | collector_condvar
  | writer_condvar.

(** What the instance does that is not a write to one of its members:
    locking, notifications, calls of the formatter factory, and the stores
    to [statistics] (to tell which lock is held around them). *)
Inductive Event : Type :=
  | Lock (m : Mutex)
  | Unlock (m : Mutex)
  | NotifyAll (cv : CondVar)
  | CreateFormatter
  | QueryTotalsAndExtremesUsedInFinalize
  | QuerySupportsWritingException
  | StoreStatistics.

(** The instance, member by member.  Of the base class [IOutputFormat] it
    has [auto_flush] and the sink [out]: the bytes this instance wrote to
    it, how often it was flushed, and [out_error], the exception its next
    [write] throws, if any.  [collector_finished] is the [Poco::Event].
    [pool] holds the jobs [(ticket_number, first_row_num)] scheduled and not
    yet run, and [pool_error] the exception its next [scheduleOrThrowOnError]
    throws, if any.  [events] is the log of the effects above.

    The two unit numbers are the spec's tickets ("monotonically increasing
    integers"), and they and the row counts are natural numbers here: the
    code increments them in the [.cpp], and a 64-bit counter incremented
    once per operation does not wrap around in an execution of fewer than
    [2^64] operations (lemma [tickets_issued] below). *)
Record State : Type := mkState {
  internal_formatter_creator : InternalFormatterCreator;
  auto_flush : bool;
  out : list Byte.byte;
  out_flushes : nat;
  out_error : option Exception;
  collector_finished : bool;
  need_flush : bool;
  pool : list (nat * nat);
  pool_error : option Exception;
  background_exception : option Exception;
  processing_units : list ProcessingUnit;
  emergency_stop : bool;
  collector_unit_number : nat;
  writer_unit_number : nat;
  rows_consumed : nat;
  rows_collected : nat;
  are_totals_written : bool;
  statistics : Statistics;
  save_totals_and_extremes_in_statistics : bool;
  exception_message : string;
  exception_is_rethrown : bool;
  started_prefix : bool;
  collected_prefix : bool;
  started_suffix : bool;
  collected_suffix : bool;
  collected_finalize : bool;
  events : list Event
}.

Definition set_auto_flush (v : bool) (s : State) : State :=
  mkState
    (internal_formatter_creator s) v (out s) (out_flushes s) (out_error s)
    (collector_finished s) (need_flush s) (pool s) (pool_error s)
    (background_exception s) (processing_units s) (emergency_stop s)
    (collector_unit_number s) (writer_unit_number s) (rows_consumed s)
    (rows_collected s) (are_totals_written s) (statistics s)
    (save_totals_and_extremes_in_statistics s) (exception_message s)
    (exception_is_rethrown s) (started_prefix s) (collected_prefix s)
    (started_suffix s) (collected_suffix s) (collected_finalize s) (events s).

Definition set_out (v : list Byte.byte) (s : State) : State :=
  mkState
    (internal_formatter_creator s) (auto_flush s) v (out_flushes s)
    (out_error s) (collector_finished s) (need_flush s) (pool s)
    (pool_error s) (background_exception s) (processing_units s)
    (emergency_stop s) (collector_unit_number s) (writer_unit_number s)
    (rows_consumed s) (rows_collected s) (are_totals_written s)
    (statistics s) (save_totals_and_extremes_in_statistics s)
    (exception_message s) (exception_is_rethrown s) (started_prefix s)
    (collected_prefix s) (started_suffix s) (collected_suffix s)
    (collected_finalize s) (events s).

Definition set_out_flushes (v : nat) (s : State) : State :=
  mkState
    (internal_formatter_creator s) (auto_flush s) (out s) v (out_error s)
    (collector_finished s) (need_flush s) (pool s) (pool_error s)
    (background_exception s) (processing_units s) (emergency_stop s)
    (collector_unit_number s) (writer_unit_number s) (rows_consumed s)
    (rows_collected s) (are_totals_written s) (statistics s)
    (save_totals_and_extremes_in_statistics s) (exception_message s)
    (exception_is_rethrown s) (started_prefix s) (collected_prefix s)
    (started_suffix s) (collected_suffix s) (collected_finalize s) (events s).

Definition set_out_error (v : option Exception) (s : State) : State :=
  mkState
    (internal_formatter_creator s) (auto_flush s) (out s) (out_flushes s) v
    (collector_finished s) (need_flush s) (pool s) (pool_error s)
    (background_exception s) (processing_units s) (emergency_stop s)
    (collector_unit_number s) (writer_unit_number s) (rows_consumed s)
    (rows_collected s) (are_totals_written s) (statistics s)
    (save_totals_and_extremes_in_statistics s) (exception_message s)
    (exception_is_rethrown s) (started_prefix s) (collected_prefix s)
    (started_suffix s) (collected_suffix s) (collected_finalize s) (events s).

Definition set_collector_finished (v : bool) (s : State) : State :=
  mkState
    (internal_formatter_creator s) (auto_flush s) (out s) (out_flushes s)
    (out_error s) v (need_flush s) (pool s) (pool_error s)
    (background_exception s) (processing_units s) (emergency_stop s)
    (collector_unit_number s) (writer_unit_number s) (rows_consumed s)
    (rows_collected s) (are_totals_written s) (statistics s)
    (save_totals_and_extremes_in_statistics s) (exception_message s)
    (exception_is_rethrown s) (started_prefix s) (collected_prefix s)
    (started_suffix s) (collected_suffix s) (collected_finalize s) (events s).

Definition set_need_flush (v : bool) (s : State) : State :=
  mkState
    (internal_formatter_creator s) (auto_flush s) (out s) (out_flushes s)
    (out_error s) (collector_finished s) v (pool s) (pool_error s)
    (background_exception s) (processing_units s) (emergency_stop s)
    (collector_unit_number s) (writer_unit_number s) (rows_consumed s)
    (rows_collected s) (are_totals_written s) (statistics s)
    (save_totals_and_extremes_in_statistics s) (exception_message s)
    (exception_is_rethrown s) (started_prefix s) (collected_prefix s)
    (started_suffix s) (collected_suffix s) (collected_finalize s) (events s).

Definition set_pool (v : list (nat * nat)) (s : State) : State :=
  mkState
    (internal_formatter_creator s) (auto_flush s) (out s) (out_flushes s)
    (out_error s) (collector_finished s) (need_flush s) v (pool_error s)
    (background_exception s) (processing_units s) (emergency_stop s)
    (collector_unit_number s) (writer_unit_number s) (rows_consumed s)
    (rows_collected s) (are_totals_written s) (statistics s)
    (save_totals_and_extremes_in_statistics s) (exception_message s)
    (exception_is_rethrown s) (started_prefix s) (collected_prefix s)
    (started_suffix s) (collected_suffix s) (collected_finalize s) (events s).

Definition set_pool_error (v : option Exception) (s : State) : State :=
  mkState
    (internal_formatter_creator s) (auto_flush s) (out s) (out_flushes s)
    (out_error s) (collector_finished s) (need_flush s) (pool s) v
    (background_exception s) (processing_units s) (emergency_stop s)
    (collector_unit_number s) (writer_unit_number s) (rows_consumed s)
    (rows_collected s) (are_totals_written s) (statistics s)
    (save_totals_and_extremes_in_statistics s) (exception_message s)
    (exception_is_rethrown s) (started_prefix s) (collected_prefix s)
    (started_suffix s) (collected_suffix s) (collected_finalize s) (events s).

Definition set_background_exception (v : option Exception) (s : State) : State :=
  mkState
    (internal_formatter_creator s) (auto_flush s) (out s) (out_flushes s)
    (out_error s) (collector_finished s) (need_flush s) (pool s)
    (pool_error s) v (processing_units s) (emergency_stop s)
    (collector_unit_number s) (writer_unit_number s) (rows_consumed s)
    (rows_collected s) (are_totals_written s) (statistics s)
    (save_totals_and_extremes_in_statistics s) (exception_message s)
    (exception_is_rethrown s) (started_prefix s) (collected_prefix s)
    (started_suffix s) (collected_suffix s) (collected_finalize s) (events s).

Definition set_processing_units (v : list ProcessingUnit) (s : State) : State :=
  mkState
    (internal_formatter_creator s) (auto_flush s) (out s) (out_flushes s)
    (out_error s) (collector_finished s) (need_flush s) (pool s)
    (pool_error s) (background_exception s) v (emergency_stop s)
    (collector_unit_number s) (writer_unit_number s) (rows_consumed s)
    (rows_collected s) (are_totals_written s) (statistics s)
    (save_totals_and_extremes_in_statistics s) (exception_message s)
    (exception_is_rethrown s) (started_prefix s) (collected_prefix s)
    (started_suffix s) (collected_suffix s) (collected_finalize s) (events s).

Definition set_emergency_stop (v : bool) (s : State) : State :=
  mkState
    (internal_formatter_creator s) (auto_flush s) (out s) (out_flushes s)
    (out_error s) (collector_finished s) (need_flush s) (pool s)
    (pool_error s) (background_exception s) (processing_units s) v
    (collector_unit_number s) (writer_unit_number s) (rows_consumed s)
    (rows_collected s) (are_totals_written s) (statistics s)
    (save_totals_and_extremes_in_statistics s) (exception_message s)
    (exception_is_rethrown s) (started_prefix s) (collected_prefix s)
    (started_suffix s) (collected_suffix s) (collected_finalize s) (events s).

Definition set_collector_unit_number (v : nat) (s : State) : State :=
  mkState
    (internal_formatter_creator s) (auto_flush s) (out s) (out_flushes s)
    (out_error s) (collector_finished s) (need_flush s) (pool s)
    (pool_error s) (background_exception s) (processing_units s)
    (emergency_stop s) v (writer_unit_number s) (rows_consumed s)
    (rows_collected s) (are_totals_written s) (statistics s)
    (save_totals_and_extremes_in_statistics s) (exception_message s)
    (exception_is_rethrown s) (started_prefix s) (collected_prefix s)
    (started_suffix s) (collected_suffix s) (collected_finalize s) (events s).

Definition set_writer_unit_number (v : nat) (s : State) : State :=
  mkState
    (internal_formatter_creator s) (auto_flush s) (out s) (out_flushes s)
    (out_error s) (collector_finished s) (need_flush s) (pool s)
    (pool_error s) (background_exception s) (processing_units s)
    (emergency_stop s) (collector_unit_number s) v (rows_consumed s)
    (rows_collected s) (are_totals_written s) (statistics s)
    (save_totals_and_extremes_in_statistics s) (exception_message s)
    (exception_is_rethrown s) (started_prefix s) (collected_prefix s)
    (started_suffix s) (collected_suffix s) (collected_finalize s) (events s).

Definition set_rows_consumed (v : nat) (s : State) : State :=
  mkState
    (internal_formatter_creator s) (auto_flush s) (out s) (out_flushes s)
    (out_error s) (collector_finished s) (need_flush s) (pool s)
    (pool_error s) (background_exception s) (processing_units s)
    (emergency_stop s) (collector_unit_number s) (writer_unit_number s) v
    (rows_collected s) (are_totals_written s) (statistics s)
    (save_totals_and_extremes_in_statistics s) (exception_message s)
    (exception_is_rethrown s) (started_prefix s) (collected_prefix s)
    (started_suffix s) (collected_suffix s) (collected_finalize s) (events s).

Definition set_rows_collected (v : nat) (s : State) : State :=
  mkState
    (internal_formatter_creator s) (auto_flush s) (out s) (out_flushes s)
    (out_error s) (collector_finished s) (need_flush s) (pool s)
    (pool_error s) (background_exception s) (processing_units s)
    (emergency_stop s) (collector_unit_number s) (writer_unit_number s)
    (rows_consumed s) v (are_totals_written s) (statistics s)
    (save_totals_and_extremes_in_statistics s) (exception_message s)
    (exception_is_rethrown s) (started_prefix s) (collected_prefix s)
    (started_suffix s) (collected_suffix s) (collected_finalize s) (events s).

Definition set_are_totals_written (v : bool) (s : State) : State :=
  mkState
    (internal_formatter_creator s) (auto_flush s) (out s) (out_flushes s)
    (out_error s) (collector_finished s) (need_flush s) (pool s)
    (pool_error s) (background_exception s) (processing_units s)
    (emergency_stop s) (collector_unit_number s) (writer_unit_number s)
    (rows_consumed s) (rows_collected s) v (statistics s)
    (save_totals_and_extremes_in_statistics s) (exception_message s)
    (exception_is_rethrown s) (started_prefix s) (collected_prefix s)
    (started_suffix s) (collected_suffix s) (collected_finalize s) (events s).

Definition set_statistics (v : Statistics) (s : State) : State :=
  mkState
    (internal_formatter_creator s) (auto_flush s) (out s) (out_flushes s)
    (out_error s) (collector_finished s) (need_flush s) (pool s)
    (pool_error s) (background_exception s) (processing_units s)
    (emergency_stop s) (collector_unit_number s) (writer_unit_number s)
    (rows_consumed s) (rows_collected s) (are_totals_written s) v
    (save_totals_and_extremes_in_statistics s) (exception_message s)
    (exception_is_rethrown s) (started_prefix s) (collected_prefix s)
    (started_suffix s) (collected_suffix s) (collected_finalize s) (events s).

Definition set_exception_message (v : string) (s : State) : State :=
  mkState
    (internal_formatter_creator s) (auto_flush s) (out s) (out_flushes s)
    (out_error s) (collector_finished s) (need_flush s) (pool s)
    (pool_error s) (background_exception s) (processing_units s)
    (emergency_stop s) (collector_unit_number s) (writer_unit_number s)
    (rows_consumed s) (rows_collected s) (are_totals_written s)
    (statistics s) (save_totals_and_extremes_in_statistics s) v
    (exception_is_rethrown s) (started_prefix s) (collected_prefix s)
    (started_suffix s) (collected_suffix s) (collected_finalize s) (events s).

Definition set_exception_is_rethrown (v : bool) (s : State) : State :=
  mkState
    (internal_formatter_creator s) (auto_flush s) (out s) (out_flushes s)
    (out_error s) (collector_finished s) (need_flush s) (pool s)
    (pool_error s) (background_exception s) (processing_units s)
    (emergency_stop s) (collector_unit_number s) (writer_unit_number s)
    (rows_consumed s) (rows_collected s) (are_totals_written s)
    (statistics s) (save_totals_and_extremes_in_statistics s)
    (exception_message s) v (started_prefix s) (collected_prefix s)
    (started_suffix s) (collected_suffix s) (collected_finalize s) (events s).

Definition set_started_prefix (v : bool) (s : State) : State :=
  mkState
    (internal_formatter_creator s) (auto_flush s) (out s) (out_flushes s)
    (out_error s) (collector_finished s) (need_flush s) (pool s)
    (pool_error s) (background_exception s) (processing_units s)
    (emergency_stop s) (collector_unit_number s) (writer_unit_number s)
    (rows_consumed s) (rows_collected s) (are_totals_written s)
    (statistics s) (save_totals_and_extremes_in_statistics s)
    (exception_message s) (exception_is_rethrown s) v (collected_prefix s)
    (started_suffix s) (collected_suffix s) (collected_finalize s) (events s).

Definition set_collected_prefix (v : bool) (s : State) : State :=
  mkState
    (internal_formatter_creator s) (auto_flush s) (out s) (out_flushes s)
    (out_error s) (collector_finished s) (need_flush s) (pool s)
    (pool_error s) (background_exception s) (processing_units s)
    (emergency_stop s) (collector_unit_number s) (writer_unit_number s)
    (rows_consumed s) (rows_collected s) (are_totals_written s)
    (statistics s) (save_totals_and_extremes_in_statistics s)
    (exception_message s) (exception_is_rethrown s) (started_prefix s) v
    (started_suffix s) (collected_suffix s) (collected_finalize s) (events s).

Definition set_started_suffix (v : bool) (s : State) : State :=
  mkState
    (internal_formatter_creator s) (auto_flush s) (out s) (out_flushes s)
    (out_error s) (collector_finished s) (need_flush s) (pool s)
    (pool_error s) (background_exception s) (processing_units s)
    (emergency_stop s) (collector_unit_number s) (writer_unit_number s)
    (rows_consumed s) (rows_collected s) (are_totals_written s)
    (statistics s) (save_totals_and_extremes_in_statistics s)
    (exception_message s) (exception_is_rethrown s) (started_prefix s)
    (collected_prefix s) v (collected_suffix s) (collected_finalize s)
    (events s).

Definition set_collected_suffix (v : bool) (s : State) : State :=
  mkState
    (internal_formatter_creator s) (auto_flush s) (out s) (out_flushes s)
    (out_error s) (collector_finished s) (need_flush s) (pool s)
    (pool_error s) (background_exception s) (processing_units s)
    (emergency_stop s) (collector_unit_number s) (writer_unit_number s)
    (rows_consumed s) (rows_collected s) (are_totals_written s)
    (statistics s) (save_totals_and_extremes_in_statistics s)
    (exception_message s) (exception_is_rethrown s) (started_prefix s)
    (collected_prefix s) (started_suffix s) v (collected_finalize s)
    (events s).

Definition set_collected_finalize (v : bool) (s : State) : State :=
  mkState
    (internal_formatter_creator s) (auto_flush s) (out s) (out_flushes s)
    (out_error s) (collector_finished s) (need_flush s) (pool s)
    (pool_error s) (background_exception s) (processing_units s)
    (emergency_stop s) (collector_unit_number s) (writer_unit_number s)
    (rows_consumed s) (rows_collected s) (are_totals_written s)
    (statistics s) (save_totals_and_extremes_in_statistics s)
    (exception_message s) (exception_is_rethrown s) (started_prefix s)
    (collected_prefix s) (started_suffix s) (collected_suffix s) v (events s).

Definition set_events (v : list Event) (s : State) : State :=
  mkState
    (internal_formatter_creator s) (auto_flush s) (out s) (out_flushes s)
    (out_error s) (collector_finished s) (need_flush s) (pool s)
    (pool_error s) (background_exception s) (processing_units s)
    (emergency_stop s) (collector_unit_number s) (writer_unit_number s)
    (rows_consumed s) (rows_collected s) (are_totals_written s)
    (statistics s) (save_totals_and_extremes_in_statistics s)
    (exception_message s) (exception_is_rethrown s) (started_prefix s)
    (collected_prefix s) (started_suffix s) (collected_suffix s)
    (collected_finalize s) v.


(** ** Results and the monad of member functions *)

(** How a call ends: it returns, it throws, it has to wait (the condition
    it waits for does not hold in this state), or its behaviour is undefined
    (a ring of size zero, rethrowing a null [exception_ptr]). *)
Inductive Outcome (A : Type) : Type :=
  | Returned (a : A)
  | Thrown (e : Exception)
  | Blocked
  | Undefined.

Arguments Returned {A} a.
Arguments Thrown {A} e.
Arguments Blocked {A}.
Arguments Undefined {A}.

Definition M (A : Type) : Type := State -> Outcome A * State.

Definition ret {A : Type} (a : A) : M A := fun s => (Returned a, s).

Definition bind {A B : Type} (m : M A) (k : A -> M B) : M B :=
  fun s =>
    match m s with
    | (Returned a, s') => k a s'
    | (Thrown e, s') => (Thrown e, s')
    | (Blocked, s') => (Blocked, s')
    | (Undefined, s') => (Undefined, s')
    end.

Definition modify (f : State -> State) : M unit := fun s => (Returned tt, f s).

Definition throw {A : Type} (e : Exception) : M A := fun s => (Thrown e, s).

Declare Scope member_scope.
Delimit Scope member_scope with member.
Notation "m1 ;; m2" := (bind m1 (fun _ => m2))
  (at level 100, m2 at level 200, right associativity) : member_scope.
Local Open Scope member_scope.

Definition emit (ev : Event) : M unit :=
  modify (fun s => set_events (events s ++ [ev]) s).

(** [std::lock_guard lock(m)] around [body]: released on return and on
    throw alike. *)
Definition lock_guard {A : Type} (m : Mutex) (body : M A) : M A :=
  fun s =>
    let (r, s') := body (set_events (events s ++ [Lock m]) s) in
    (r, set_events (events s' ++ [Unlock m]) s').

(** [try { body } catch (...) { handler }]. *)
Definition try_catch {A : Type} (body : M A) (handler : Exception -> M A) : M A :=
  fun s =>
    match body s with
    | (Thrown e, s') => handler e s'
    | other => other
    end.

(** Does a call end in this state (so that it is a step of its thread)? *)
Definition completes {A : Type} (r : Outcome A) : bool :=
  match r with
  | Returned _ | Thrown _ => true
  | Blocked | Undefined => false
  end.

(** ** The constructor *)

(** [Params], without the header block and with the sink taken as empty. *)
Record Params : Type := mkParams {
  params_internal_formatter_creator : InternalFormatterCreator;
  max_threads_for_parallel_formatting : Z
}.

(** [std::min(params.max_threads_for_parallel_formatting + 2, size_t{1024})]:
    the argument of [processing_units.resize].  Both operands are [size_t],
    64 bits wide, so the sum wraps around. *)
Definition ring_size (max_threads : Z) : Z :=
  Z.min ((max_threads + 2) mod 2 ^ 64) 1024.

(** The constructor: the capability is read off one formatter created on a
    [NullWriteBuffer], the ring is sized, the collector thread is started
    (it runs [collectorThreadFunction], whose iterations are below). *)
Definition constructor (params : Params) : State :=
  {| internal_formatter_creator := params_internal_formatter_creator params;
     auto_flush := false;
     out := [];
     out_flushes := 0;
     out_error := None;
     collector_finished := false;
     need_flush := false;
     pool := [];
     pool_error := None;
     background_exception := None;
     processing_units :=
       replicate
         (Z.to_nat (ring_size (max_threads_for_parallel_formatting params)))
         new_unit;
     emergency_stop := false;
     collector_unit_number := 0;
     writer_unit_number := 0;
     rows_consumed := 0;
     rows_collected := 0;
     are_totals_written := false;
     statistics := empty_statistics;
     save_totals_and_extremes_in_statistics :=
       inner_areTotalsAndExtremesUsedInFinalize
         (params_internal_formatter_creator params);
     exception_message := "";
     exception_is_rethrown := false;
     started_prefix := false;
     collected_prefix := false;
     started_suffix := false;
     collected_suffix := false;
     collected_finalize := false;
     events := [CreateFormatter; QueryTotalsAndExtremesUsedInFinalize] |}.

(** ** Member functions defined in the header *)

Definition flushImpl : M unit :=
  fun s => if negb (auto_flush s) then modify (set_need_flush true) s
           else ret tt s.

(** The base class [IOutputFormat] is declared outside [src/]:
    [auto_flush] is the member of it that [flushImpl] tests, and
    [setAutoFlush] stands for the caller turning it on. *)
Definition setAutoFlush : M unit := modify (set_auto_flush true).

Definition supportsWritingException : M bool :=
  emit CreateFormatter ;;
  emit QuerySupportsWritingException ;;
  fun s => ret (inner_supportsWritingException (internal_formatter_creator s)) s.

Definition setException (exception_message_ : string) : M unit :=
  modify (set_exception_message exception_message_).

Definition resetFormatterImpl : M unit :=
  throw (mkException NOT_IMPLEMENTED
           "Method resetFormatterImpl is not implemented for parallel formatting").

(** [current_exception] is what [std::current_exception()] returns in the
    handler that calls this. *)
Definition onBackgroundException (current_exception : Exception) : M unit :=
  lock_guard mutex
    ((fun s =>
        match background_exception s with
        | None => modify (set_background_exception (Some current_exception)) s
        | Some _ => ret tt s
        end) ;;
     modify (set_emergency_stop true) ;;
     emit (NotifyAll writer_condvar) ;;
     emit (NotifyAll collector_condvar)).

(** Rethrow background exception only once, because OutputFormat can be
    used after it to write an exception.  ([std::rethrow_exception] of a
    null pointer is undefined.) *)
Definition rethrowBackgroundException : M unit :=
  fun s =>
    if negb (exception_is_rethrown s) then
      let s' := set_exception_is_rethrown true s in
      match background_exception s' with
      | Some e => (Thrown e, s')
      | None => (Undefined, s')
      end
    else ret tt s.

(** [pool.scheduleOrThrowOnError(job)]. *)
Definition scheduleFormatterThreadForUnitWithNumber
    (ticket_number first_row_num : nat) : M unit :=
  fun s =>
    match pool_error s with
    | Some e => (Thrown e, s)
    | None => (Returned tt, set_pool (pool s ++ [(ticket_number, first_row_num)]) s)
    end.

Definition store_statistics (f : Statistics -> Statistics) : M unit :=
  emit StoreStatistics ;; modify (fun s => set_statistics (f (statistics s)) s).

Definition setRowsBeforeLimit (rows_before_limit_ : nat) : M unit :=
  lock_guard statistics_mutex
    (store_statistics (fun st =>
       mkStatistics (totals st) (extremes st) rows_before_limit_ true
         (rows_before_aggregation st) (applied_aggregation st))).

Definition setRowsBeforeAggregation (rows_before_aggregation_ : nat) : M unit :=
  lock_guard statistics_mutex
    (store_statistics (fun st =>
       mkStatistics (totals st) (extremes st) (rows_before_limit st)
         (applied_limit st) rows_before_aggregation_ true)).

(** ** Member functions defined in the [.cpp] *)

Definition set_unit (i : nat) (u : ProcessingUnit) (s : State) : State :=
  set_processing_units (<[i := u]> (processing_units s)) s.

(** Modelled from the spec: [addChunk] is defined in
    [ParallelFormattingOutputFormat.cpp], which is not under [src/].  This
    follows §4.1 step by step: the slot of the next ticket; the wait for
    the slot to be [FREE] or for the emergency stop; under emergency stop
    the background exception, if there is one, is rethrown (once) if the
    caller asked for it, and nothing is enqueued (after a cancellation
    there is none, and the call just returns: scenario S6); else the chunk
    and the kind go into the slot, which becomes [FORMATTING],
    [first_row_num] is remembered and [rows_consumed] accumulated,
    [writer_ticket] is incremented and the formatter job is submitted; a
    failed submission is captured as the background exception and
    rethrown.  The slot's [rows_num] is the chunk's row count. *)
Definition addChunk (chunk_ : Chunk) (type_ : ProcessingUnitType)
    (can_throw_exception : bool) : M unit :=
  fun s =>
    let ticket := writer_unit_number s in
    let current_unit_number := ticket mod length (processing_units s) in
    match processing_units s !! current_unit_number with
    | None => (Undefined, s)
    | Some slot =>
        if emergency_stop s then
          match background_exception s with
          | Some _ =>
              (if can_throw_exception then rethrowBackgroundException
               else ret tt) s
          | None => ret tt s
          end
        else
          match status slot with
          | READY_TO_INSERT =>
              let first_row_num := rows_consumed s in
              (modify (set_unit current_unit_number
                         (mkProcessingUnit READY_TO_FORMAT type_ chunk_
                            (segment slot) (actual_memory_size slot)
                            (unit_statistics slot) (num_rows chunk_))) ;;
               modify (set_rows_consumed (first_row_num + num_rows chunk_)) ;;
               modify (set_writer_unit_number (S ticket)) ;;
               try_catch
                 (scheduleFormatterThreadForUnitWithNumber ticket first_row_num)
                 (fun e => onBackgroundException e ;; throw e)) s
          | _ => (Blocked, s)
          end
    end.

(** §4.2 step 4: which method of the inner formatter runs, and on what. *)
Definition run_inner (formatter : InnerFormatter) (type_ : ProcessingUnitType)
    (chunk_ : Chunk) (statistics_ : Statistics) : Exception + list Byte.byte :=
  match type_ with
  | START => inner_writePrefix formatter
  | PLAIN => inner_consume formatter chunk_
  | PLAIN_FINISH => inner_writeSuffix formatter
  | TOTALS => inner_consumeTotals formatter chunk_
  | EXTREMES => inner_consumeExtremes formatter chunk_
  | FINALIZE => inner_finalize formatter statistics_
  end.

Definition format_unit (formatter : InnerFormatter) (slot : ProcessingUnit)
    : Exception + list Byte.byte :=
  run_inner formatter (type slot) (chunk slot) (unit_statistics slot).

(** Modelled from the spec: [formatterThreadFunction] is defined in the
    [.cpp].  §4.2: the slot is [ticket mod N]; a fresh inner formatter is
    created; for [FINALIZE] the aggregate statistics are copied into the
    slot under [statistics_mutex] first; the bytes are drained into the
    slot's buffer (which keeps what lies beyond them) and their number
    recorded; the slot becomes [READY] and the collector is notified.  Any
    error is a background exception and the slot is not promoted. *)
Definition formatterThreadFunction (current_unit_number first_row_num : nat)
    : M unit :=
  fun s =>
    let i := current_unit_number mod length (processing_units s) in
    match processing_units s !! i with
    | None => (Undefined, s)
    | Some slot =>
        try_catch
          (emit CreateFormatter ;;
           bind
             (match type slot with
              | FINALIZE =>
                  lock_guard statistics_mutex
                    (fun s1 =>
                       let slot1 :=
                         mkProcessingUnit (status slot) (type slot) (chunk slot)
                           (segment slot) (actual_memory_size slot)
                           (statistics s1) (rows_num slot) in
                       (Returned slot1, set_unit i slot1 s1))
              | _ => ret slot
              end)
             (fun slot1 s1 =>
                match format_unit (internal_formatter_creator s1) slot1 with
                | inl e => (Thrown e, s1)
                | inr bytes =>
                    (modify (set_unit i
                               (mkProcessingUnit READY_TO_READ (type slot1)
                                  (chunk slot1)
                                  (bytes ++ drop (length bytes) (segment slot1))
                                  (length bytes) (unit_statistics slot1)
                                  (rows_num slot1))) ;;
                     emit (NotifyAll collector_condvar)) s1
                end))
          onBackgroundException s
    end.

(** [out.write(segment, actual_memory_size)]. *)
Definition write_out (slot : ProcessingUnit) : M unit :=
  fun s =>
    match out_error s with
    | Some e => (Thrown e, s)
    | None =>
        (Returned tt,
         set_out (out s ++ take (actual_memory_size slot) (segment slot)) s)
    end.

(** Modelled from the spec: [collectorThreadFunction] is defined in the
    [.cpp].  One iteration of the main loop of §4.3; the result tells
    whether the loop goes on.  The wait ends on [READY] or on the emergency
    stop, which leaves the loop and signals [collector_finished]; the
    segment is appended, the rows counted, the protocol flags set; a
    [FINALIZE] slot signals [collector_finished] and leaves the loop at that
    point; else a requested flush is done, the slot freed, the writer
    notified and [collector_ticket] incremented.  A failed write is a
    background exception (§7, sink errors); the loop then meets the
    emergency stop. *)
Definition collectorThreadFunction_iteration : M bool :=
  fun s =>
    let i := collector_unit_number s mod length (processing_units s) in
    match processing_units s !! i with
    | None => (Undefined, s)
    | Some slot =>
        if emergency_stop s then
          (modify (set_collector_finished true) ;; ret false) s
        else
          match status slot with
          | READY_TO_READ =>
              try_catch
                (write_out slot ;;
                 modify (fun s1 =>
                   set_rows_collected (rows_collected s1 + rows_num slot) s1) ;;
                 match type slot with
                 | FINALIZE =>
                     modify (set_collected_finalize true) ;;
                     modify (set_collector_finished true) ;;
                     ret false
                 | unit_type =>
                     match unit_type with
                     | START => modify (set_collected_prefix true)
                     | PLAIN_FINISH => modify (set_collected_suffix true)
                     | _ => ret tt
                     end ;;
                     (fun s1 =>
                        if need_flush s1 then
                          modify (fun s2 =>
                            set_need_flush false
                              (set_out_flushes (S (out_flushes s2)) s2)) s1
                        else ret tt s1) ;;
                     modify (set_unit i
                               (mkProcessingUnit READY_TO_INSERT (type slot)
                                  (chunk slot) (segment slot)
                                  (actual_memory_size slot)
                                  (unit_statistics slot) (rows_num slot))) ;;
                     emit (NotifyAll writer_condvar) ;;
                     modify (fun s1 =>
                       set_collector_unit_number
                         (S (collector_unit_number s1)) s1) ;;
                     ret true
                 end)
                (fun e => onBackgroundException e ;; ret true) s
          | _ => (Blocked, s)
          end
    end.

(** Modelled from the spec: [finishAndWait] is defined in the [.cpp].
    §4.4, destructor and cancellation, steps 1 and 2: the emergency stop is
    set and both condition variables are notified. *)
Definition finishAndWait_stop : M unit :=
  modify (set_emergency_stop true) ;;
  emit (NotifyAll collector_condvar) ;;
  emit (NotifyAll writer_condvar).

(** Modelled from the spec: steps 3 and 4 of the same part of
    [finishAndWait]: the wait for the pool to drain and the join of the
    collector thread, which has left its loop once it has signalled
    [collector_finished]. *)
Definition finishAndWait_join : M unit :=
  fun s =>
    match pool s with
    | [] => if collector_finished s then ret tt s else (Blocked, s)
    | _ :: _ => (Blocked, s)
    end.

(** ** Member functions defined in the header, continued *)

Definition writePrefix : M unit :=
  addChunk empty_chunk START true ;;
  modify (set_started_prefix true).

Definition writeSuffix : M unit :=
  addChunk empty_chunk PLAIN_FINISH true ;;
  modify (set_started_suffix true).

Definition consume (chunk_ : Chunk) : M unit := addChunk chunk_ PLAIN true.

Definition consumeTotals (totals_ : Chunk) : M unit :=
  fun s =>
    if save_totals_and_extremes_in_statistics s then
      lock_guard statistics_mutex
        (store_statistics (fun st =>
           mkStatistics totals_ (extremes st) (rows_before_limit st)
             (applied_limit st) (rows_before_aggregation st)
             (applied_aggregation st))) s
    else
      (addChunk totals_ TOTALS true ;;
       modify (set_are_totals_written true)) s.

Definition consumeExtremes (extremes_ : Chunk) : M unit :=
  fun s =>
    if save_totals_and_extremes_in_statistics s then
      lock_guard statistics_mutex
        (store_statistics (fun st =>
           mkStatistics (totals st) extremes_ (rows_before_limit st)
             (applied_limit st) (rows_before_aggregation st)
             (applied_aggregation st))) s
    else addChunk extremes_ EXTREMES true s.

(** Modelled from the spec: [finalizeImpl] is defined in the [.cpp].  §4.4,
    the finalize protocol, one definition per blocking phase.  Step 1: the
    [START] ticket if the prefix never started. *)
Definition finalizeImpl_prefix : M unit :=
  fun s => if started_prefix s then ret tt s else writePrefix s.

(** Modelled from the spec: [finalizeImpl], step 2: the [PLAIN_FINISH]
    ticket if the suffix never started. *)
Definition finalizeImpl_suffix : M unit :=
  fun s => if started_suffix s then ret tt s else writeSuffix s.

(** Modelled from the spec: [finalizeImpl], step 3: the [FINALIZE] ticket,
    with [may_throw = true]. *)
Definition finalizeImpl_push : M unit := addChunk empty_chunk FINALIZE true.

(** Modelled from the spec: [finalizeImpl], steps 4 and 5: the wait on
    [collector_finished], then the rethrow if a background exception is
    set. *)
Definition finalizeImpl_wait : M unit :=
  fun s =>
    if collector_finished s then
      match background_exception s with
      | Some _ => rethrowBackgroundException s
      | None => ret tt s
      end
    else (Blocked, s).

(** ** The threads of an instance as a transition system *)

(** What the caller (the single producer) may do next.  [finalize] and
    [onCancel] block in the middle, so each of their phases is an operation
    of its own. *)
Inductive CallerOp : Type :=
  | OpWritePrefix
  | OpConsume (chunk_ : Chunk)
  | OpConsumeTotals (totals_ : Chunk)
  | OpConsumeExtremes (extremes_ : Chunk)
  | OpWriteSuffix
  | OpFlush
  | OpSetAutoFlush
  | OpSupportsWritingException
  | OpSetException (message : string)
  | OpSetRowsBeforeLimit (rows : nat)
  | OpSetRowsBeforeAggregation (rows : nat)
  | OpResetFormatter
  | OpFinalizePrefix
  | OpFinalizeSuffix
  | OpFinalizePush
  | OpFinalizeWait
  | OpCancel
  | OpJoin.

Definition run_caller (op : CallerOp) : M unit :=
  match op with
  | OpWritePrefix => writePrefix
  | OpConsume chunk_ => consume chunk_
  | OpConsumeTotals totals_ => consumeTotals totals_
  | OpConsumeExtremes extremes_ => consumeExtremes extremes_
  | OpWriteSuffix => writeSuffix
  | OpFlush => flushImpl
  | OpSetAutoFlush => setAutoFlush
  | OpSupportsWritingException => bind supportsWritingException (fun _ => ret tt)
  | OpSetException message => setException message
  | OpSetRowsBeforeLimit rows => setRowsBeforeLimit rows
  | OpSetRowsBeforeAggregation rows => setRowsBeforeAggregation rows
  | OpResetFormatter => resetFormatterImpl
  | OpFinalizePrefix => finalizeImpl_prefix
  | OpFinalizeSuffix => finalizeImpl_suffix
  | OpFinalizePush => finalizeImpl_push
  | OpFinalizeWait => finalizeImpl_wait
  | OpCancel => finishAndWait_stop
  | OpJoin => finishAndWait_join
  end.

(** One step of one thread: the caller runs an operation to its end (by
    return or by exception); a pool thread takes a scheduled job, whichever,
    and runs it; the collector thread, unless it has left its loop, runs
    one iteration; the environment changes what the pool and the sink will
    answer.  A call that has to wait is no step.  The threads interleave at
    the grain of these calls: what a call does between its wait and its
    end touches the slot it owns by the status handoff, members behind a
    lock, or atomic ones. *)
Inductive Label : Type :=
  | LCaller (op : CallerOp)
  | LFormatter (job : nat)
  | LCollector
  | LEnvironment (pool_error_ out_error_ : option Exception).

Definition after {A : Type} (result : Outcome A * State) : option State :=
  if completes result.1 then Some result.2 else None.

Definition step_fun (s : State) (l : Label) : option State :=
  match l with
  | LCaller op => after (run_caller op s)
  | LFormatter job =>
      match pool s !! job with
      | Some (ticket_number, first_row_num) =>
          after (formatterThreadFunction ticket_number first_row_num
                   (set_pool (delete job (pool s)) s))
      | None => None
      end
  | LCollector =>
      if collector_finished s then None
      else after (collectorThreadFunction_iteration s)
  | LEnvironment pool_error_ out_error_ =>
      Some (set_pool_error pool_error_ (set_out_error out_error_ s))
  end.

Definition step (s : State) (l : Label) (s' : State) : Prop :=
  step_fun s l = Some s'.

(** Executions, with the labels of their steps in order. *)
Inductive exec (s0 : State) : list Label -> State -> Prop :=
  | exec_start : exec s0 [] s0
  | exec_step (tr : list Label) (s : State) (l : Label) (s' : State) :
      exec s0 tr s -> step s l s' -> exec s0 (tr ++ [l]) s'.

Definition run (s0 : State) (tr : list Label) : option State :=
  fold_left (fun os l => match os with Some s => step_fun s l | None => None end)
    tr (Some s0).

(** The operations of the caller in an execution, in order. *)
Definition caller_ops (tr : list Label) : list CallerOp :=
  omap (fun l => match l with LCaller op => Some op | _ => None end) tr.

(** The three statuses in the order of the cycle. *)
Definition next_status (st : ProcessingUnitStatus) : ProcessingUnitStatus :=
  match st with
  | READY_TO_INSERT => READY_TO_FORMAT
  | READY_TO_FORMAT => READY_TO_READ
  | READY_TO_READ => READY_TO_INSERT
  end.

(** ** The single-threaded formatter *)

(** Follows the spec's words ("running a single-threaded formatter over the
    same sequence"): the caller's operations are served one after the other
    by the inner formatter itself, each writing its bytes (or failing)
    before the next is looked at.  Totals and extremes go to the statistics
    when the formatter uses them in finalize, [finalize] writes the prefix
    and the suffix that were never started.  What a method writes depends
    on its argument alone, as for the formatters of the ring. *)
Record Sequential : Type := mkSequential {
  seq_statistics : Statistics;
  seq_started_prefix : bool;
  seq_started_suffix : bool;
  seq_segments : list (Exception + list Byte.byte)
}.

Definition seq_write (formatter : InnerFormatter) (type_ : ProcessingUnitType)
    (chunk_ : Chunk) (q : Sequential) : Sequential :=
  mkSequential (seq_statistics q) (seq_started_prefix q) (seq_started_suffix q)
    (seq_segments q ++ [run_inner formatter type_ chunk_ (seq_statistics q)]).

Definition seq_store (f : Statistics -> Statistics) (q : Sequential) : Sequential :=
  mkSequential (f (seq_statistics q)) (seq_started_prefix q)
    (seq_started_suffix q) (seq_segments q).

Definition seq_prefix (formatter : InnerFormatter) (q : Sequential) : Sequential :=
  let q' := seq_write formatter START empty_chunk q in
  mkSequential (seq_statistics q') true (seq_started_suffix q') (seq_segments q').

Definition seq_suffix (formatter : InnerFormatter) (q : Sequential) : Sequential :=
  let q' := seq_write formatter PLAIN_FINISH empty_chunk q in
  mkSequential (seq_statistics q') (seq_started_prefix q') true (seq_segments q').

Definition seq_step (formatter : InnerFormatter) (q : Sequential) (op : CallerOp)
    : Sequential :=
  match op with
  | OpWritePrefix => seq_prefix formatter q
  | OpConsume chunk_ => seq_write formatter PLAIN chunk_ q
  | OpConsumeTotals totals_ =>
      if inner_areTotalsAndExtremesUsedInFinalize formatter then
        seq_store (fun st =>
          mkStatistics totals_ (extremes st) (rows_before_limit st)
            (applied_limit st) (rows_before_aggregation st)
            (applied_aggregation st)) q
      else seq_write formatter TOTALS totals_ q
  | OpConsumeExtremes extremes_ =>
      if inner_areTotalsAndExtremesUsedInFinalize formatter then
        seq_store (fun st =>
          mkStatistics (totals st) extremes_ (rows_before_limit st)
            (applied_limit st) (rows_before_aggregation st)
            (applied_aggregation st)) q
      else seq_write formatter EXTREMES extremes_ q
  | OpWriteSuffix => seq_suffix formatter q
  | OpSetRowsBeforeLimit rows =>
      seq_store (fun st =>
        mkStatistics (totals st) (extremes st) rows true
          (rows_before_aggregation st) (applied_aggregation st)) q
  | OpSetRowsBeforeAggregation rows =>
      seq_store (fun st =>
        mkStatistics (totals st) (extremes st) (rows_before_limit st)
          (applied_limit st) rows true) q
  | OpFinalizePrefix =>
      if seq_started_prefix q then q else seq_prefix formatter q
  | OpFinalizeSuffix =>
      if seq_started_suffix q then q else seq_suffix formatter q
  | OpFinalizePush => seq_write formatter FINALIZE empty_chunk q
  | OpFlush | OpSetAutoFlush | OpSupportsWritingException | OpSetException _
  | OpResetFormatter | OpFinalizeWait | OpCancel | OpJoin => q
  end.

Definition sequential_formatter (formatter : InnerFormatter)
    (ops : list CallerOp) : Sequential :=
  fold_left (seq_step formatter) ops
    (mkSequential empty_statistics false false []).

(** What the single-threaded formatter writes, segment by segment. *)
Definition sequential_segments (formatter : InnerFormatter)
    (ops : list CallerOp) : list (Exception + list Byte.byte) :=
  seq_segments (sequential_formatter formatter ops).




(** * Auxiliary definitions for the proofs about the formatter *)


(** ** Concrete instances to evaluate the definitions on *)

(** The formatter of scenario S2: prefix [<], suffix [>], a chunk is
    written as its bytes, finalize writes the totals it finds in the
    statistics. *)
Definition bracket_formatter (used_in_finalize : bool) : InnerFormatter :=
  mkInnerFormatter
    (inr [Byte.x3c])
    (fun c => inr (columns c))
    (fun c => inr (columns c))
    (fun c => inr (columns c))
    (inr [Byte.x3e])
    (fun st => inr (columns (totals st)))
    used_in_finalize
    false.

Definition failure : Exception := mkException (OTHER_ERROR 1) "cannot format".

(** A formatter whose [consume] throws. *)
Definition failing_formatter : InnerFormatter :=
  mkInnerFormatter
    (inr [])
    (fun _ => inl failure)
    (fun c => inr (columns c))
    (fun c => inr (columns c))
    (inr [])
    (fun _ => inr [])
    false
    false.

Definition chunk_x : Chunk := mkChunk 1 [Byte.x78].
Definition chunk_y : Chunk := mkChunk 1 [Byte.x79].
Definition chunk_T : Chunk := mkChunk 1 [Byte.x54].

Definition chunk_a : Chunk := mkChunk 1 [Byte.x61].
Definition chunk_b : Chunk := mkChunk 1 [Byte.x62].
Definition chunk_c : Chunk := mkChunk 1 [Byte.x63].

(** The formatter of scenario S1: a chunk is written between brackets, the
    prefix and the suffix are empty. *)
Definition boxing_formatter : InnerFormatter :=
  mkInnerFormatter
    (inr [])
    (fun c => inr ([Byte.x5b] ++ columns c ++ [Byte.x5d]))
    (fun c => inr (columns c))
    (fun c => inr (columns c))
    (inr [])
    (fun _ => inr [])
    false
    false.

(** Scenario S1, the three jobs finishing last to first. *)
Definition scenario_S1 : list Label :=
  [LCaller OpWritePrefix; LCaller (OpConsume chunk_a);
   LCaller (OpConsume chunk_b); LCaller (OpConsume chunk_c);
   LFormatter 3; LFormatter 2; LFormatter 1; LFormatter 0;
   LCollector; LCollector; LCollector; LCollector;
   LCaller OpWriteSuffix; LCaller OpFinalizePush; LFormatter 0; LFormatter 0;
   LCollector; LCollector; LCaller OpFinalizeWait].

(** Scenario S2 followed by S5, with the formatter jobs finishing out of
    order. *)
Definition scenario : list Label :=
  [LCaller OpWritePrefix; LCaller (OpConsume chunk_x);
   LCaller (OpConsume chunk_y); LFormatter 2; LFormatter 0; LCollector;
   LFormatter 0; LCollector; LCollector; LCaller (OpConsumeTotals chunk_T);
   LCaller OpFinalizeSuffix; LCaller OpFinalizePush; LFormatter 1;
   LFormatter 0; LCollector; LCollector; LCaller OpFinalizeWait].

(** ** What a step does to the members the invariants speak of *)

(** What an operation of the caller submits: nothing, a store to the
    statistics, or a unit for the ring (with the protocol flag it sets). *)
Inductive Submission : Type :=
  | SubNothing
  | SubStore (f : Statistics -> Statistics)
  | SubPush (type_ : ProcessingUnitType) (chunk_ : Chunk) (prefix suffix : bool).

Definition submission (save started_prefix_ started_suffix_ : bool)
    (op : CallerOp) : Submission :=
  match op with
  | OpWritePrefix => SubPush START empty_chunk true false
  | OpConsume chunk_ => SubPush PLAIN chunk_ false false
  | OpConsumeTotals totals_ =>
      if save then
        SubStore (fun st =>
          mkStatistics totals_ (extremes st) (rows_before_limit st)
            (applied_limit st) (rows_before_aggregation st)
            (applied_aggregation st))
      else SubPush TOTALS totals_ false false
  | OpConsumeExtremes extremes_ =>
      if save then
        SubStore (fun st =>
          mkStatistics (totals st) extremes_ (rows_before_limit st)
            (applied_limit st) (rows_before_aggregation st)
            (applied_aggregation st))
      else SubPush EXTREMES extremes_ false false
  | OpWriteSuffix => SubPush PLAIN_FINISH empty_chunk false true
  | OpSetRowsBeforeLimit rows =>
      SubStore (fun st =>
        mkStatistics (totals st) (extremes st) rows true
          (rows_before_aggregation st) (applied_aggregation st))
  | OpSetRowsBeforeAggregation rows =>
      SubStore (fun st =>
        mkStatistics (totals st) (extremes st) (rows_before_limit st)
          (applied_limit st) rows true)
  | OpFinalizePrefix =>
      if started_prefix_ then SubNothing else SubPush START empty_chunk true false
  | OpFinalizeSuffix =>
      if started_suffix_ then SubNothing
      else SubPush PLAIN_FINISH empty_chunk false true
  | OpFinalizePush => SubPush FINALIZE empty_chunk false false
  | OpFlush | OpSetAutoFlush | OpSupportsWritingException | OpSetException _
  | OpResetFormatter | OpFinalizeWait | OpCancel | OpJoin => SubNothing
  end.

Definition caller_frame (s s' : State) : Prop :=
  out s' = out s
  /\ collector_unit_number s' = collector_unit_number s
  /\ collector_finished s' = collector_finished s
  /\ collected_finalize s' = collected_finalize s
  /\ internal_formatter_creator s' = internal_formatter_creator s
  /\ save_totals_and_extremes_in_statistics s'
     = save_totals_and_extremes_in_statistics s
  /\ (emergency_stop s = true ->
      emergency_stop s' = true
      /\ processing_units s' = processing_units s
      /\ writer_unit_number s' = writer_unit_number s
      /\ pool s' = pool s).

Definition caller_effect (s : State) (sub : Submission) (s' : State) : Prop :=
  match sub with
  | SubNothing =>
      processing_units s' = processing_units s
      /\ writer_unit_number s' = writer_unit_number s
      /\ pool s' = pool s
      /\ statistics s' = statistics s
      /\ started_prefix s' = started_prefix s
      /\ started_suffix s' = started_suffix s
  | SubStore f =>
      processing_units s' = processing_units s
      /\ writer_unit_number s' = writer_unit_number s
      /\ pool s' = pool s
      /\ statistics s' = f (statistics s)
      /\ started_prefix s' = started_prefix s
      /\ started_suffix s' = started_suffix s
      /\ emergency_stop s' = false
  | SubPush type_ chunk_ prefix suffix =>
      exists u,
        processing_units s
        !! (writer_unit_number s mod length (processing_units s)) = Some u
        /\ status u = READY_TO_INSERT
        /\ processing_units s'
           = <[writer_unit_number s mod length (processing_units s) :=
                 mkProcessingUnit READY_TO_FORMAT type_ chunk_ (segment u)
                   (actual_memory_size u) (unit_statistics u) (num_rows chunk_)]>
               (processing_units s)
        /\ writer_unit_number s' = S (writer_unit_number s)
        /\ statistics s' = statistics s
        /\ ((emergency_stop s' = false
             /\ pool s' = pool s ++ [(writer_unit_number s, rows_consumed s)]
             /\ started_prefix s' = started_prefix s || prefix
             /\ started_suffix s' = started_suffix s || suffix)
            \/ (emergency_stop s' = true /\ pool s' = pool s))
  end.

Definition formatter_frame (s s' : State) : Prop :=
  out s' = out s
  /\ collector_unit_number s' = collector_unit_number s
  /\ writer_unit_number s' = writer_unit_number s
  /\ collector_finished s' = collector_finished s
  /\ collected_finalize s' = collected_finalize s
  /\ statistics s' = statistics s
  /\ started_prefix s' = started_prefix s
  /\ started_suffix s' = started_suffix s
  /\ internal_formatter_creator s' = internal_formatter_creator s
  /\ save_totals_and_extremes_in_statistics s'
     = save_totals_and_extremes_in_statistics s
  /\ (emergency_stop s = true -> emergency_stop s' = true).

Definition collector_frame (s s' : State) : Prop :=
  writer_unit_number s' = writer_unit_number s
  /\ pool s' = pool s
  /\ statistics s' = statistics s
  /\ started_prefix s' = started_prefix s
  /\ started_suffix s' = started_suffix s
  /\ internal_formatter_creator s' = internal_formatter_creator s
  /\ save_totals_and_extremes_in_statistics s'
     = save_totals_and_extremes_in_statistics s.

Definition collector_idle (s s' : State) : Prop :=
  emergency_stop s' = true
  /\ processing_units s' = processing_units s
  /\ collector_unit_number s' = collector_unit_number s
  /\ out s' = out s
  /\ collected_finalize s' = collected_finalize s.

(** ** The ring invariant *)

(** Between the two tickets lie the slots in use, and only they are not
    [READY_TO_INSERT]; every scheduled job is for one of them, which is
    [READY_TO_FORMAT], and no two jobs are for the same ticket. *)
Definition ring_ok (units : list ProcessingUnit) (jobs : list (nat * nat))
    (c w : nat) : Prop :=
  c <= w <= c + length units
  /\ (forall t, c <= t < c + length units ->
        exists u, units !! (t mod length units) = Some u
                  /\ (status u = READY_TO_INSERT <-> w <= t))
  /\ (forall j t frn, jobs !! j = Some (t, frn) ->
        c <= t < w
        /\ exists u, units !! (t mod length units) = Some u
                     /\ status u = READY_TO_FORMAT)
  /\ (forall j1 j2 t frn1 frn2,
        jobs !! j1 = Some (t, frn1) -> jobs !! j2 = Some (t, frn2) -> j1 = j2).

Definition ring_invariant (s : State) : Prop :=
  ring_ok (processing_units s) (pool s) (collector_unit_number s)
    (writer_unit_number s).

(** Every slot keeps its status or moves to the next one of the cycle. *)
Definition status_cycle (units units' : list ProcessingUnit) : Prop :=
  forall i u, units !! i = Some u ->
    exists u', units' !! i = Some u'
               /\ (status u' = status u \/ status u' = next_status (status u)).

(** One step writes to at most one slot of the ring. *)
Definition one_slot_written (units units' : list ProcessingUnit) : Prop :=
  exists k, forall i, i <> k -> units' !! i = units !! i.

(** ** Errors, capabilities and what stays

    Reporting several background errors in a row. *)
Definition report_all (errors : list Exception) (s : State) : State :=
  fold_left (fun s1 e => (onBackgroundException e s1).2) errors s.

(** What one report adds to the log. *)
Definition report_events : list Event :=
  [Lock mutex; NotifyAll writer_condvar; NotifyAll collector_condvar;
   Unlock mutex].

(** How often the capability [areTotalsAndExtremesUsedInFinalize] was
    asked for. *)
Definition is_capability_query (ev : Event) : bool :=
  match ev with
  | QueryTotalsAndExtremesUsedInFinalize => true
  | _ => false
  end.

Definition capability_queries (evs : list Event) : nat :=
  length (List.filter is_capability_query evs).

(** What no step undoes. *)
Definition sticky (s s' : State) : Prop :=
  (exception_is_rethrown s = true -> exception_is_rethrown s' = true)
  /\ (forall e, background_exception s = Some e -> background_exception s' = Some e)
  /\ (emergency_stop s = true -> emergency_stop s' = true)
  /\ save_totals_and_extremes_in_statistics s'
     = save_totals_and_extremes_in_statistics s
  /\ internal_formatter_creator s' = internal_formatter_creator s
  /\ capability_queries (events s') = capability_queries (events s).

(** The state an execution ends in (the initial one if it cannot run). *)
Definition state_after (s0 : State) (tr : list Label) : State :=
  default s0 (run s0 tr).

(** An instance whose formatter failed on the first chunk. *)
Definition poisoned : State :=
  state_after (constructor (mkParams failing_formatter 2))
    [LCaller (OpConsume chunk_x); LFormatter 0].


(** ** Order preservation *)






(** ** The lock around the statistics

    Reading a log of events from the left with [held] telling whether
    [statistics_mutex] is held: the result is whether it is held at the
    end, or [None] if the log locks it while held, unlocks it while free,
    or stores to [statistics] while it is free. *)
Fixpoint stores_guarded (held : bool) (evs : list Event) : option bool :=
  match evs with
  | [] => Some held
  | Lock statistics_mutex :: rest =>
      if held then None else stores_guarded true rest
  | Unlock statistics_mutex :: rest =>
      if held then stores_guarded false rest else None
  | StoreStatistics :: rest =>
      if held then stores_guarded true rest else None
  | _ :: rest => stores_guarded held rest
  end.

(** ** Case analysis of a step *)

Ltac unfold_members :=
  unfold step, step_fun, after, run_caller in *;
  unfold consume, consumeTotals, consumeExtremes, flushImpl, setAutoFlush,
    supportsWritingException, setException, setRowsBeforeLimit,
    setRowsBeforeAggregation, resetFormatterImpl, finalizeImpl_prefix,
    finalizeImpl_suffix, finalizeImpl_push, finalizeImpl_wait,
    finishAndWait_stop, finishAndWait_join in *;
  unfold writePrefix, writeSuffix in *;
  unfold addChunk, formatterThreadFunction,
    collectorThreadFunction_iteration in *;
  unfold write_out, scheduleFormatterThreadForUnitWithNumber,
    onBackgroundException, rethrowBackgroundException, store_statistics in *;
  unfold lock_guard, try_catch, emit in *;
  unfold bind, ret, modify, throw in *.

Ltac step_cases H :=
  unfold_members; cbn beta iota zeta in H;
  repeat (case_match; simplify_eq; cbn beta iota zeta in H);
  simplify_eq; cbn in *.

Ltac use_equations :=
  repeat match goal with
         | H : ?x = _ |- context [?x] => rewrite H
         end.


End ParallelFormatting.


(** * [DiskAccessStorage.cpp] *)
Module DiskAccessStorage.

Local Open Scope nat_scope.

(** ** Data *)

(** [UUID]: a 128-bit number. *)
Definition UUID : Type := N.

(** [AccessEntityType], as the index [static_cast<size_t>(type)] the file
    uses it as. *)
Definition AccessEntityType : Type := nat.

(** [IAccessEntity] is declared outside this file.  Of an entity the
    storage asks for its name and its type and compares it with another
    one; [definition] stands for what else [operator==] compares.  An
    [AccessEntityPtr] is an [option AccessEntity], [None] being the null
    pointer; entities are immutable, so sharing them is not visible. *)
Record AccessEntity : Type := mkAccessEntity {
  getName : string;
  getType : AccessEntityType;
  definition : string
}.

#[global] Instance AccessEntity_eq_dec : EqDecision AccessEntity.
Proof. solve_decision. Defined.

(** [new_entity->isTypeOf(type)], of [IAccessEntity]: whether the type
    of the entity is [type]. *)
Definition isTypeOf (entity : AccessEntity) (type : AccessEntityType) : bool :=
  bool_decide (getType entity = type).

(** [DiskAccessStorage::Entry], with its members [id], [name], [type] and
    [entity] (which is null until the entity is read from the disk). *)
Record Entry : Type := mkEntry {
  entry_id : UUID;
  entry_name : string;
  entry_type : AccessEntityType;
  entry_entity : option AccessEntity
}.

(** What the file calls and does not define: conversions, the
    serialization of entities, the primitives reading and writing a list
    file, and the operations of [std::filesystem::path].  A reader takes
    the rest of its input and gives what it read and what is left, or
    [None] when it throws. *)
Record Externals : Type := mkExternals {
  MAX : nat;
  toString : UUID -> string;
  plural_raw_name : AccessEntityType -> string;
  to_lower : string -> string;
  replace_extension : string -> string -> string;
  serializeAccessEntity : AccessEntity -> string;
  deserializeAccessEntity : string -> option AccessEntity;
  writeVarUInt : N -> string;
  readVarUInt : string -> option (N * string);
  writeStringBinary : string -> string;
  readStringBinary : string -> option (string * string);
  writeUUIDText : UUID -> string;
  readUUIDText : string -> option (UUID * string);
  clearConflictsInEntitiesList :
    list (UUID * AccessEntity) -> list (UUID * AccessEntity)
}.

(** The exceptions: those this file throws itself ([DB::Exception] with
    one of its two error codes), those of the [throw...] helpers of
    [IAccessStorage], named after the helper, and the failures of the file
    system, of the parsers and of the caller's update function. *)
Inductive Error : Type :=
  | DBException (e : Exception)
  | NotFound (id : UUID)
  | ReadonlyCannotInsert (type : AccessEntityType) (name : string)
  | NameCollisionCannotInsert (type : AccessEntityType) (name : string)
  | IDCollisionCannotInsert (id : UUID) (type : AccessEntityType)
      (name : string) (existing_type : AccessEntityType)
      (existing_name : string)
  | ReadonlyCannotRemove (type : AccessEntityType) (name : string)
  | ReadonlyCannotUpdate (type : AccessEntityType) (name : string)
  | BadCast (id : UUID) (type : AccessEntityType) (name : string)
      (base_type : AccessEntityType)
  | NameCollisionCannotRename (type : AccessEntityType)
      (old_name new_name : string)
  | CannotReadFile (path : string)
  | CannotWriteFile (path : string)
  | CannotRenameFile (from to : string)
  | CannotParse (path : string)
  | UpdateFailed (reason : string).

(** How writing a file goes wrong: not at all, at the opening (the file is
    left as it was), or later (the file is left with some other
    contents). *)
Inductive WriteFault : Type :=
  | WritesAll
  | FailsToOpen
  | FailsAfter (written : string).

(** What the file system will answer, path by path. *)
Record Faults : Type := mkFaults {
  read_fails : string -> bool;
  write_fails : string -> WriteFault;
  rename_fails : string -> string -> bool;
  ofstream_fails : string -> bool
}.

Definition no_faults : Faults :=
  mkFaults (fun _ => false) (fun _ => WritesAll) (fun _ _ => false)
    (fun _ => false).

(** What the storage does besides writing to its members and to the disk:
    locking [mutex], the calls of [changes_notifier], and notifying,
    joining and starting the thread that writes the lists. *)
Inductive Event : Type :=
  | Lock
  | Unlock
  | onEntityAdded (id : UUID) (entity : AccessEntity)
  | onEntityUpdated (id : UUID) (entity : AccessEntity)
  | onEntityRemoved (id : UUID) (type : AccessEntityType)
  | NotifyListsWritingThreadShouldExit
  | JoinListsWritingThread
  | StartListsWritingThread.

(** The storage, member by member, and its surroundings.

    [entries_by_id] is the [std::unordered_map] from [UUID] to [Entry];
    a pointer to an entry ([Entry *]) is the key of the entry's node, which
    it stays equal to until the node is erased, and a pointer whose node
    was erased dangles.  [entries_by_name_and_type] is the array of maps
    from names to pointers, indexed by the type; only the types below
    [MAX] are ever used.  [types_of_lists_to_write] is a
    [boost::container::flat_set], a sorted vector without duplicates.
    [lists_writing_thread] tells whether there is a thread and it is
    joinable.  [disk] holds the contents of the files by path, [faults]
    says which operations on it fail, and [log] records the events
    above. *)
Record State : Type := mkState {
  directory_path : string;
  readonly : bool;
  backup_allowed : bool;
  entries_by_id : gmap UUID Entry;
  entries_by_name_and_type : AccessEntityType -> gmap string UUID;
  failed_to_write_lists : bool;
  types_of_lists_to_write : list AccessEntityType;
  lists_writing_thread : bool;
  lists_writing_thread_is_waiting : bool;
  disk : gmap string string;
  faults : Faults;
  log : list Event
}.

Definition set_readonly (v : bool) (s : State) : State :=
  mkState
    (directory_path s) v (backup_allowed s) (entries_by_id s)
    (entries_by_name_and_type s) (failed_to_write_lists s)
    (types_of_lists_to_write s) (lists_writing_thread s)
    (lists_writing_thread_is_waiting s) (disk s) (faults s) (log s).

Definition set_entries_by_id (v : gmap UUID Entry) (s : State) : State :=
  mkState
    (directory_path s) (readonly s) (backup_allowed s) v
    (entries_by_name_and_type s) (failed_to_write_lists s)
    (types_of_lists_to_write s) (lists_writing_thread s)
    (lists_writing_thread_is_waiting s) (disk s) (faults s) (log s).

Definition set_entries_by_name_and_type (v : AccessEntityType -> gmap string UUID) (s : State) : State :=
  mkState
    (directory_path s) (readonly s) (backup_allowed s) (entries_by_id s) v
    (failed_to_write_lists s) (types_of_lists_to_write s)
    (lists_writing_thread s) (lists_writing_thread_is_waiting s) (disk s)
    (faults s) (log s).

Definition set_failed_to_write_lists (v : bool) (s : State) : State :=
  mkState
    (directory_path s) (readonly s) (backup_allowed s) (entries_by_id s)
    (entries_by_name_and_type s) v (types_of_lists_to_write s)
    (lists_writing_thread s) (lists_writing_thread_is_waiting s) (disk s)
    (faults s) (log s).

Definition set_types_of_lists_to_write (v : list AccessEntityType) (s : State) : State :=
  mkState
    (directory_path s) (readonly s) (backup_allowed s) (entries_by_id s)
    (entries_by_name_and_type s) (failed_to_write_lists s) v
    (lists_writing_thread s) (lists_writing_thread_is_waiting s) (disk s)
    (faults s) (log s).

Definition set_lists_writing_thread (v : bool) (s : State) : State :=
  mkState
    (directory_path s) (readonly s) (backup_allowed s) (entries_by_id s)
    (entries_by_name_and_type s) (failed_to_write_lists s)
    (types_of_lists_to_write s) v (lists_writing_thread_is_waiting s)
    (disk s) (faults s) (log s).

Definition set_lists_writing_thread_is_waiting (v : bool) (s : State) : State :=
  mkState
    (directory_path s) (readonly s) (backup_allowed s) (entries_by_id s)
    (entries_by_name_and_type s) (failed_to_write_lists s)
    (types_of_lists_to_write s) (lists_writing_thread s) v (disk s)
    (faults s) (log s).

Definition set_disk (v : gmap string string) (s : State) : State :=
  mkState
    (directory_path s) (readonly s) (backup_allowed s) (entries_by_id s)
    (entries_by_name_and_type s) (failed_to_write_lists s)
    (types_of_lists_to_write s) (lists_writing_thread s)
    (lists_writing_thread_is_waiting s) v (faults s) (log s).

Definition set_faults (v : Faults) (s : State) : State :=
  mkState
    (directory_path s) (readonly s) (backup_allowed s) (entries_by_id s)
    (entries_by_name_and_type s) (failed_to_write_lists s)
    (types_of_lists_to_write s) (lists_writing_thread s)
    (lists_writing_thread_is_waiting s) (disk s) v (log s).

Definition set_log (v : list Event) (s : State) : State :=
  mkState
    (directory_path s) (readonly s) (backup_allowed s) (entries_by_id s)
    (entries_by_name_and_type s) (failed_to_write_lists s)
    (types_of_lists_to_write s) (lists_writing_thread s)
    (lists_writing_thread_is_waiting s) (disk s) (faults s) v.


(** ** Results and the monad of member functions *)

(** How a call ends: it returns, it throws, or its behaviour is undefined
    (a dangling pointer is dereferenced). *)
Inductive Outcome (A : Type) : Type :=
  | Returned (a : A)
  | Thrown (e : Error)
  | Undefined.

Arguments Returned {A} a.
Arguments Thrown {A} e.
Arguments Undefined {A}.

Definition M (A : Type) : Type := State -> Outcome A * State.

Definition ret {A : Type} (a : A) : M A := fun s => (Returned a, s).

Definition bind {A B : Type} (m : M A) (k : A -> M B) : M B :=
  fun s =>
    match m s with
    | (Returned a, s') => k a s'
    | (Thrown e, s') => (Thrown e, s')
    | (Undefined, s') => (Undefined, s')
    end.

Definition modify (f : State -> State) : M unit := fun s => (Returned tt, f s).

Definition throw {A : Type} (e : Error) : M A := fun s => (Thrown e, s).

Declare Scope storage_scope.
Delimit Scope storage_scope with storage.
Notation "m1 ;; m2" := (bind m1 (fun _ => m2))
  (at level 100, m2 at level 200, right associativity) : storage_scope.
Local Open Scope storage_scope.

Definition emit (ev : Event) : M unit :=
  modify (fun s => set_log (log s ++ [ev]) s).

(** [if (condition) body;] *)
Definition when (condition : bool) (body : M unit) : M unit :=
  if condition then body else ret tt.

(** [std::lock_guard lock{mutex}] around [body]: released on return and
    on throw alike. *)
Definition lock_guard {A : Type} (body : M A) : M A :=
  fun s =>
    let (r, s') := body (set_log (log s ++ [Lock]) s) in
    (r, set_log (log s' ++ [Unlock]) s').

(** [try { body } catch (...) { handler }]. *)
Definition try_catch {A : Type} (body : M A) (handler : Error -> M A) : M A :=
  fun s =>
    match body s with
    | (Thrown e, s') => handler e s'
    | other => other
    end.

(** The [throw...] helpers of [IAccessStorage]. *)
Definition throwNotFound {A : Type} (id : UUID) : M A := throw (NotFound id).

Definition throwReadonlyCannotInsert {A : Type} (type : AccessEntityType)
    (name : string) : M A :=
  throw (ReadonlyCannotInsert type name).

Definition throwNameCollisionCannotInsert {A : Type} (type : AccessEntityType)
    (name : string) : M A :=
  throw (NameCollisionCannotInsert type name).

Definition throwIDCollisionCannotInsert {A : Type} (id : UUID)
    (type : AccessEntityType) (name : string)
    (existing_type : AccessEntityType) (existing_name : string) : M A :=
  throw (IDCollisionCannotInsert id type name existing_type existing_name).

Definition throwReadonlyCannotRemove {A : Type} (type : AccessEntityType)
    (name : string) : M A :=
  throw (ReadonlyCannotRemove type name).

Definition throwReadonlyCannotUpdate {A : Type} (type : AccessEntityType)
    (name : string) : M A :=
  throw (ReadonlyCannotUpdate type name).

Definition throwBadCast {A : Type} (id : UUID) (type : AccessEntityType)
    (name : string) (base_type : AccessEntityType) : M A :=
  throw (BadCast id type name base_type).

Definition throwNameCollisionCannotRename {A : Type} (type : AccessEntityType)
    (old_name new_name : string) : M A :=
  throw (NameCollisionCannotRename type old_name new_name).

(** ** The file system *)

(** [std::filesystem::exists(path)]. *)
Definition exists_file (path : string) : M bool :=
  fun s => (Returned (bool_decide (is_Some (disk s !! path))), s).

(** [std::filesystem::remove(path)]: whether there was a file. *)
Definition remove_file (path : string) : M bool :=
  fun s =>
    (Returned (bool_decide (is_Some (disk s !! path))),
     set_disk (delete path (disk s)) s).

(** [ReadBufferFromFile in{path}] and the reading of the whole file. *)
Definition read_file (path : string) : M string :=
  fun s =>
    if read_fails (faults s) path then (Thrown (CannotReadFile path), s)
    else
      match disk s !! path with
      | Some contents => (Returned contents, s)
      | None => (Thrown (CannotReadFile path), s)
      end.

(** [WriteBufferFromFile out{path}], the writes and [out.close()]. *)
Definition write_file (path contents : string) : M unit :=
  fun s =>
    match write_fails (faults s) path with
    | WritesAll => (Returned tt, set_disk (<[path := contents]> (disk s)) s)
    | FailsToOpen => (Thrown (CannotWriteFile path), s)
    | FailsAfter written =>
        (Thrown (CannotWriteFile path),
         set_disk (<[path := written]> (disk s)) s)
    end.

(** [std::filesystem::rename(from, to)]. *)
Definition rename_file (from to : string) : M unit :=
  fun s =>
    if rename_fails (faults s) from to then
      (Thrown (CannotRenameFile from to), s)
    else
      match disk s !! from with
      | Some contents =>
          (Returned tt,
           set_disk (<[to := contents]> (delete from (disk s))) s)
      | None => (Thrown (CannotRenameFile from to), s)
      end.

(** [std::ofstream out{path}; out.close();]: an empty file, or nothing at
    all when the stream fails (it does not throw). *)
Definition create_empty_file (path : string) : M unit :=
  fun s =>
    if ofstream_fails (faults s) path then (Returned tt, s)
    else (Returned tt, set_disk (<[path := ""%string]> (disk s)) s).

Section WithExternals.

Context (ext : Externals).

(** ** The functions of the anonymous namespace *)

(** Reads a file containing ATTACH queries and then parses it to build an
    access entity. *)
Definition readEntityFile (file_path : string) : M AccessEntity :=
  bind (read_file file_path) (fun file_contents =>
    match deserializeAccessEntity ext file_contents with
    | Some entity => ret entity
    | None => throw (CannotParse file_path)
    end).

Definition tryReadEntityFile (file_path : string) : M (option AccessEntity) :=
  try_catch
    (bind (readEntityFile file_path) (fun entity => ret (Some entity)))
    (fun _ => ret None).

(** Writes ATTACH queries for building a specified access entity to a
    file.  First we save *.tmp file and then we rename if everything's ok;
    the [SCOPE_EXIT] removes the *.tmp file unless [succeeded]. *)
Definition writeEntityFile (file_path : string) (entity : AccessEntity)
    : M unit :=
  let file_contents := serializeAccessEntity ext entity in
  let tmp_file_path := replace_extension ext file_path ".tmp" in
  fun s =>
    match (write_file tmp_file_path file_contents ;;
           rename_file tmp_file_path file_path) s with
    | (Returned _, s') => (Returned tt, s')
    | (Thrown e, s') => (Thrown e, (remove_file tmp_file_path s').2)
    | (Undefined, s') => (Undefined, s')
    end.

(** Calculates the path to a file named <id>.sql for saving an access
    entity. *)
Definition getEntityFilePath (directory_path_ : string) (id : UUID) : string :=
  directory_path_ +:+ toString ext id +:+ ".sql".

(** The loop of [readListFile]: [num] times a name, then an id. *)
Fixpoint read_id_name_pairs (num : nat) (in_ : string)
    : option (list (UUID * string)) :=
  match num with
  | O => Some []
  | S num' =>
      match readStringBinary ext in_ with
      | None => None
      | Some (name, in1) =>
          match readUUIDText ext in1 with
          | None => None
          | Some (id, in2) =>
              match read_id_name_pairs num' in2 with
              | None => None
              | Some id_name_pairs => Some ((id, name) :: id_name_pairs)
              end
          end
      end
  end.

Definition parse_list (contents : string) : option (list (UUID * string)) :=
  match readVarUInt ext contents with
  | None => None
  | Some (num, in_) => read_id_name_pairs (N.to_nat num) in_
  end.

(** Reads a map of name of access entity to UUID for access entities of
    some type from a file. *)
Definition readListFile (file_path : string) : M (list (UUID * string)) :=
  bind (read_file file_path) (fun contents =>
    match parse_list contents with
    | Some id_name_pairs => ret id_name_pairs
    | None => throw (CannotParse file_path)
    end).

(** What [writeListFile] writes: the number of pairs, then of each pair the
    name and the id. *)
Fixpoint write_id_name_pairs (id_name_pairs : list (UUID * string)) : string :=
  match id_name_pairs with
  | [] => ""
  | (id, name) :: rest =>
      writeStringBinary ext name +:+ writeUUIDText ext id
      +:+ write_id_name_pairs rest
  end.

Definition render_list (id_name_pairs : list (UUID * string)) : string :=
  writeVarUInt ext (N.of_nat (length id_name_pairs))
  +:+ write_id_name_pairs id_name_pairs.

(** Writes a map of name of access entity to UUID for access entities of
    some type to a file. *)
Definition writeListFile (file_path : string)
    (id_name_pairs : list (UUID * string)) : M unit :=
  write_file file_path (render_list id_name_pairs).

(** Calculates the path for storing a map of name of access entity to UUID
    for access entities of some type. *)
Definition getListFilePath (directory_path_ : string) (type : AccessEntityType)
    : string :=
  directory_path_ +:+ to_lower ext (plural_raw_name ext type) +:+ ".list".

(** Calculates the path to a temporary file which existence means that
    list files are corrupted and need to be rebuild. *)
Definition getNeedRebuildListsMarkFilePath (directory_path_ : string) : string :=
  directory_path_ +:+ "need_rebuild_lists.mark".

(** ** The maps *)

(** [entries_by_name_and_type[static_cast<size_t>(type)]]. *)
Definition entries_by_name (s : State) (type : AccessEntityType)
    : gmap string UUID :=
  entries_by_name_and_type s type.

(** The array [names] with the map of [type] replaced. *)
Definition with_names (names : AccessEntityType -> gmap string UUID)
    (type : AccessEntityType) (names_of_type : gmap string UUID)
    : AccessEntityType -> gmap string UUID :=
  fun type' => if decide (type' = type) then names_of_type else names type'.

Definition set_entries_by_name (type : AccessEntityType)
    (names : gmap string UUID) (s : State) : State :=
  set_entries_by_name_and_type
    (with_names (entries_by_name_and_type s) type names) s.

(** [*pointer], for a pointer to an entry. *)
Definition dereference {A : Type} (pointer : UUID) (k : Entry -> M A) : M A :=
  fun s =>
    match entries_by_id s !! pointer with
    | Some entry => k entry s
    | None => (Undefined, s)
    end.

(** [types_of_lists_to_write.insert(type)]. *)
Fixpoint flat_set_insert (type : AccessEntityType)
    (types : list AccessEntityType) : list AccessEntityType :=
  match types with
  | [] => [type]
  | first :: rest =>
      if decide (type < first) then type :: types
      else if decide (type = first) then types
      else first :: flat_set_insert type rest
  end.

(** ** Reading and writing entities *)

Definition readAccessEntityFromDisk (id : UUID) : M AccessEntity :=
  fun s => readEntityFile (getEntityFilePath (directory_path s) id) s.

Definition writeAccessEntityToDisk (id : UUID) (entity : AccessEntity)
    : M unit :=
  fun s => writeEntityFile (getEntityFilePath (directory_path s) id) entity s.

Definition deleteAccessEntityOnDisk (id : UUID) : M unit :=
  fun s =>
    let file_path := getEntityFilePath (directory_path s) id in
    bind (remove_file file_path) (fun removed =>
      if removed then ret tt
      else throw (DBException
                    (mkException FILE_DOESNT_EXIST
                       ("Couldn't delete " +:+ file_path)))) s.

(** ** The lists *)

(** The pairs [writeLists] collects for one type: of every entry the map
    of names points to, its id and its name. *)
Fixpoint collect_id_name_pairs (pointers : list (string * UUID))
    (entries : gmap UUID Entry) : option (list (UUID * string)) :=
  match pointers with
  | [] => Some []
  | (_, pointer) :: rest =>
      match entries !! pointer with
      | None => None
      | Some entry =>
          match collect_id_name_pairs rest entries with
          | None => None
          | Some id_name_pairs =>
              Some ((entry_id entry, entry_name entry) :: id_name_pairs)
          end
      end
  end.

(** The loop of [writeLists] over [types_of_lists_to_write]; the result
    tells whether every list was written.  On the first failure
    [failed_to_write_lists] is set, the set is cleared and the function
    returns. *)
Fixpoint writeLists_loop (types : list AccessEntityType) : M bool :=
  match types with
  | [] => ret true
  | type :: rest =>
      fun s =>
        let file_path := getListFilePath (directory_path s) type in
        match collect_id_name_pairs (map_to_list (entries_by_name s type))
                (entries_by_id s) with
        | None => (Undefined, s)
        | Some id_name_pairs =>
            bind
              (try_catch
                 (writeListFile file_path id_name_pairs ;; ret true)
                 (fun _ =>
                    modify (set_failed_to_write_lists true) ;;
                    modify (set_types_of_lists_to_write []) ;;
                    ret false))
              (fun written =>
                 if written then writeLists_loop rest else ret false) s
        end
  end.

Definition writeLists : M unit :=
  fun s =>
    if failed_to_write_lists s then ret tt s
    else
      match types_of_lists_to_write s with
      | [] => ret tt s
      | types =>
          bind (writeLists_loop types) (fun written =>
            if written then
              (* The list files was successfully written, we don't need the
                 'need_rebuild_lists.mark' file any longer. *)
              bind (remove_file
                      (getNeedRebuildListsMarkFilePath (directory_path s)))
                (fun _ => modify (set_types_of_lists_to_write []))
            else ret tt) s
      end.

Definition scheduleWriteLists (type : AccessEntityType) : M unit :=
  fun s =>
    if failed_to_write_lists s then ret tt s
    else
      (modify (fun s1 =>
         set_types_of_lists_to_write
           (flat_set_insert type (types_of_lists_to_write s1)) s1) ;;
       fun s1 =>
         if lists_writing_thread_is_waiting s1 then ret tt s1
         else
           (when (lists_writing_thread s1) (emit JoinListsWritingThread) ;;
            (* Create the 'need_rebuild_lists.mark' file. *)
            create_empty_file
              (getNeedRebuildListsMarkFilePath (directory_path s1)) ;;
            emit StartListsWritingThread ;;
            modify (set_lists_writing_thread true) ;;
            modify (set_lists_writing_thread_is_waiting true)) s1) s.

(** [listsWritingThreadFunc], from the point where its wait ends, with the
    mutex locked again: [timed_out] tells whether the wait ended by the
    timeout or by the notification of [lists_writing_thread_should_exit]. *)
Definition listsWritingThreadFunc (timed_out : bool) : M unit :=
  lock_guard
    (modify (set_lists_writing_thread_is_waiting false) ;;
     when timed_out writeLists).

(** [stopListsWritingThread]: the thread, if there is one, is notified and
    joined.  If it is still waiting, it ends in between, [timed_out]
    telling how its wait ended: by the notification, or by the timeout
    that came first. *)
Definition stopListsWritingThread (timed_out : bool) : M unit :=
  fun s =>
    if lists_writing_thread s then
      (emit NotifyListsWritingThreadShouldExit ;;
       (fun s1 =>
          if lists_writing_thread_is_waiting s1 then
            listsWritingThreadFunc timed_out s1
          else ret tt s1) ;;
       emit JoinListsWritingThread ;;
       modify (set_lists_writing_thread false)) s
    else ret tt s.

Definition shutdown (timed_out : bool) : M unit :=
  stopListsWritingThread timed_out ;;
  lock_guard writeLists.

(** The destructor: [try { shutdown(); } catch (...)], the exception
    being logged. *)
Definition destructor (timed_out : bool) : M unit :=
  try_catch (shutdown timed_out) (fun _ => ret tt).

(** The first loop of [readLists] over the types from [type] on: the
    triples read so far, or [None] as soon as a list file does not exist
    or cannot be read. *)
Fixpoint readLists_loop (count type : nat)
    (ids_names_types : list (UUID * string * AccessEntityType))
    : M (option (list (UUID * string * AccessEntityType))) :=
  match count with
  | O => ret (Some ids_names_types)
  | S count' =>
      fun s =>
        let file_path := getListFilePath (directory_path s) type in
        bind (exists_file file_path) (fun found =>
          if negb found then ret None
          else
            bind (try_catch
                    (bind (readListFile file_path) (fun id_name_pairs =>
                       ret (Some id_name_pairs)))
                    (fun _ => ret None))
              (fun read =>
                 match read with
                 | None => ret None
                 | Some id_name_pairs =>
                     readLists_loop count' (S type)
                       (ids_names_types
                        ++ ((fun '(id, name) => (id, name, type))
                            <$> id_name_pairs))
                 end)) s
  end.

(** The last loop of [readLists]: [entries_by_id[id]] is created or found,
    its [id], [type] and [name] are set, and the name points to it. *)
Definition load_entry (s : State) (id_name_type : UUID * string * AccessEntityType)
    : State :=
  let '(id, name, type) := id_name_type in
  let entity :=
    match entries_by_id s !! id with
    | Some entry => entry_entity entry
    | None => None
    end in
  let s1 := set_entries_by_id
              (<[id := mkEntry id name type entity]> (entries_by_id s)) s in
  set_entries_by_name type (<[name := id]> (entries_by_name s1 type)) s1.

Definition readLists : M bool :=
  bind (readLists_loop (MAX ext) 0 []) (fun read =>
    match read with
    | None => ret false
    | Some ids_names_types =>
        modify (set_entries_by_id ∅) ;;
        modify (set_entries_by_name_and_type (fun _ => ∅)) ;;
        modify (fun s => fold_left load_entry ids_names_types s) ;;
        ret true
    end).

(** ** Finding and reading *)

Definition findImpl (type : AccessEntityType) (name : string)
    : M (option UUID) :=
  lock_guard
    (fun s =>
       match entries_by_name s type !! name with
       | None => ret None s
       | Some pointer =>
           dereference pointer (fun entry => ret (Some (entry_id entry))) s
       end).

Definition findAllImpl (type : AccessEntityType) : M (list UUID) :=
  lock_guard
    (fun s =>
       match collect_id_name_pairs (map_to_list (entries_by_name s type))
               (entries_by_id s) with
       | Some id_name_pairs => ret (id_name_pairs.*1) s
       | None => (Undefined, s)
       end).

(** [exists] in the source. *)
Definition exists_ (id : UUID) : M bool :=
  lock_guard
    (fun s => ret (bool_decide (is_Some (entries_by_id s !! id))) s).

Definition set_entry (id : UUID) (entry : Entry) (s : State) : State :=
  set_entries_by_id (<[id := entry]> (entries_by_id s)) s.

Definition readImpl (id : UUID) (throw_if_not_exists : bool)
    : M (option AccessEntity) :=
  lock_guard
    (fun s =>
       match entries_by_id s !! id with
       | None =>
           if throw_if_not_exists then throwNotFound id s else ret None s
       | Some entry =>
           match entry_entity entry with
           | Some entity => ret (Some entity) s
           | None =>
               bind (readAccessEntityFromDisk id) (fun entity =>
                 modify (set_entry id
                           (mkEntry (entry_id entry) (entry_name entry)
                              (entry_type entry) (Some entity))) ;;
                 ret (Some entity)) s
           end
       end).

Definition readNameWithTypeImpl (id : UUID) (throw_if_not_exists : bool)
    : M (option (string * AccessEntityType)) :=
  lock_guard
    (fun s =>
       match entries_by_id s !! id with
       | None =>
           if throw_if_not_exists then throwNotFound id s else ret None s
       | Some entry => ret (Some (entry_name entry, entry_type entry)) s
       end).

(** ** Removing, inserting, updating *)

Definition removeNoLock (id : UUID) (throw_if_not_exists write_on_disk : bool)
    : M bool :=
  fun s =>
    match entries_by_id s !! id with
    | None =>
        if throw_if_not_exists then throwNotFound id s else ret false s
    | Some entry =>
        let type := entry_type entry in
        if readonly s then throwReadonlyCannotRemove type (entry_name entry) s
        else
          (when write_on_disk
             (scheduleWriteLists type ;; deleteAccessEntityOnDisk id) ;;
           (* Do removing. *)
           modify (fun s1 =>
             set_entries_by_name type
               (delete (entry_name entry) (entries_by_name s1 type)) s1) ;;
           modify (fun s1 => set_entries_by_id (delete id (entries_by_id s1)) s1) ;;
           emit (onEntityRemoved id type) ;;
           ret true) s
    end.

Definition removeImpl (id : UUID) (throw_if_not_exists : bool) : M bool :=
  lock_guard (removeNoLock id throw_if_not_exists true).

(** The end of [insertNoLock], "Do insertion". *)
Definition insertNoLock_insertion (id : UUID) (new_entity : AccessEntity)
    (write_on_disk : bool) : M unit :=
  let name := getName new_entity in
  let type := getType new_entity in
  when write_on_disk (writeAccessEntityToDisk id new_entity) ;;
  modify (set_entry id (mkEntry id name type (Some new_entity))) ;;
  modify (fun s =>
    set_entries_by_name type (<[name := id]> (entries_by_name s type)) s) ;;
  emit (onEntityAdded id new_entity).

(** The branch [if (id_collision)] of [insertNoLock]; the result tells
    whether the function returns there ([return true]) or goes on to the
    insertion. *)
Definition insertNoLock_id_collision (id : UUID) (new_entity : AccessEntity)
    (write_on_disk : bool) : M bool :=
  let name := getName new_entity in
  let type := getType new_entity in
  dereference id (fun existing_entry =>
    if decide (entry_type existing_entry = type) then
      when (negb (bool_decide (entry_entity existing_entry = Some new_entity)))
        (when write_on_disk (writeAccessEntityToDisk id new_entity) ;;
         when (negb (bool_decide (entry_name existing_entry = name)))
           (modify (fun s =>
              set_entries_by_name type
                (delete (entry_name existing_entry) (entries_by_name s type))
                s) ;;
            (* [emplace] inserts only where there is no such key *)
            modify (fun s =>
              match entries_by_name s type !! name with
              | Some _ => s
              | None =>
                  set_entries_by_name type
                    (<[name := id]> (entries_by_name s type)) s
              end)) ;;
         modify (set_entry id
                   (mkEntry (entry_id existing_entry)
                      (entry_name existing_entry) (entry_type existing_entry)
                      (Some new_entity))) ;;
         emit (onEntityUpdated id new_entity)) ;;
      ret true
    else
      bind (removeNoLock id false write_on_disk) (fun _ => ret false)).

(** [insertNoLock].  The result is the value returned together with what
    is stored into [*conflicting_id], if anything (and if the pointer is
    not null). *)
Definition insertNoLock (id : UUID) (new_entity : AccessEntity)
    (replace_if_exists throw_if_exists write_on_disk : bool)
    : M (bool * option UUID) :=
  let name := getName new_entity in
  let type := getType new_entity in
  fun s =>
    (* Check that we can insert. *)
    if readonly s then throwReadonlyCannotInsert type name s
    else
      let it_by_name := entries_by_name s type !! name in
      let name_collision := bool_decide (is_Some it_by_name) in
      bind
        (match it_by_name with
         | Some pointer =>
             dereference pointer (fun entry => ret (Some (entry_id entry)))
         | None => ret None
         end)
        (fun id_by_name =>
           if name_collision && negb replace_if_exists then
             if throw_if_exists then throwNameCollisionCannotInsert type name
             else ret (false, id_by_name)
           else
             let it_by_id := entries_by_id s !! id in
             let id_collision := bool_decide (is_Some it_by_id) in
             if id_collision && negb replace_if_exists then
               if throw_if_exists then
                 match it_by_id with
                 | Some existing_entry =>
                     throwIDCollisionCannotInsert id type name
                       (entry_type existing_entry) (entry_name existing_entry)
                 | None => ret (false, None)
                 end
               else ret (false, Some id)
             else
               when write_on_disk (scheduleWriteLists type) ;;
               (* Remove collisions if necessary. *)
               when (name_collision
                     && negb (bool_decide (id_by_name = Some id)))
                 (match id_by_name with
                  | Some other =>
                      bind (removeNoLock other false write_on_disk)
                        (fun _ => ret tt)
                  | None => ret tt
                  end) ;;
               bind
                 (if id_collision then
                    insertNoLock_id_collision id new_entity write_on_disk
                  else ret false)
                 (fun returned =>
                    if returned then ret (true, None)
                    else
                      (* Do insertion. *)
                      insertNoLock_insertion id new_entity write_on_disk ;;
                      ret (true, None))) s.

Definition insertImpl (id : UUID) (new_entity : AccessEntity)
    (replace_if_exists throw_if_exists : bool) : M (bool * option UUID) :=
  lock_guard (insertNoLock id new_entity replace_if_exists throw_if_exists true).

(** [UpdateFunc]: the caller's function from the old entity to the new
    one, which may throw. *)
Definition UpdateFunc : Type := AccessEntity -> UUID -> Error + AccessEntity.

Definition updateNoLock (id : UUID) (update_func : UpdateFunc)
    (throw_if_not_exists write_on_disk : bool) : M bool :=
  fun s =>
    match entries_by_id s !! id with
    | None =>
        if throw_if_not_exists then throwNotFound id s else ret false s
    | Some entry =>
        if readonly s then
          throwReadonlyCannotUpdate (entry_type entry) (entry_name entry) s
        else
          bind
            (match entry_entity entry with
             | Some entity => ret entity
             | None =>
                 bind (readAccessEntityFromDisk id) (fun entity =>
                   modify (set_entry id
                             (mkEntry (entry_id entry) (entry_name entry)
                                (entry_type entry) (Some entity))) ;;
                   ret entity)
             end)
            (fun old_entity =>
               match update_func old_entity id with
               | inl e => throw e
               | inr new_entity =>
                   if negb (isTypeOf new_entity (getType old_entity)) then
                     throwBadCast id (getType new_entity) (getName new_entity)
                       (getType old_entity)
                   else if decide (new_entity = old_entity) then ret true
                   else
                     let new_name := getName new_entity in
                     let old_name := getName old_entity in
                     let type := entry_type entry in
                     let name_changed :=
                       negb (bool_decide (new_name = old_name)) in
                     when name_changed
                       (fun s1 =>
                          if bool_decide
                               (is_Some (entries_by_name s1 type !! new_name))
                          then throwNameCollisionCannotRename type old_name
                                 new_name s1
                          else when write_on_disk (scheduleWriteLists type) s1) ;;
                     when write_on_disk
                       (writeAccessEntityToDisk id new_entity) ;;
                     modify (set_entry id
                               (mkEntry (entry_id entry) (entry_name entry)
                                  (entry_type entry) (Some new_entity))) ;;
                     when name_changed
                       (modify (fun s1 =>
                          set_entries_by_name type
                            (delete (entry_name entry)
                               (entries_by_name s1 type)) s1) ;;
                        modify (set_entry id
                                  (mkEntry (entry_id entry) new_name
                                     (entry_type entry) (Some new_entity))) ;;
                        modify (fun s1 =>
                          set_entries_by_name type
                            (<[new_name := id]> (entries_by_name s1 type)) s1)) ;;
                     emit (onEntityUpdated id new_entity) ;;
                     ret true
               end) s
    end.

Definition updateImpl (id : UUID) (update_func : UpdateFunc)
    (throw_if_not_exists : bool) : M bool :=
  lock_guard (updateNoLock id update_func throw_if_not_exists true).

(** The loop of [removeAllExceptInMemory] over the ids of
    [entries_by_id]. *)
Fixpoint removeAllExceptInMemory_loop (ids ids_to_keep : list UUID) : M unit :=
  match ids with
  | [] => ret tt
  | id :: rest =>
      (if bool_decide (id ∈ ids_to_keep) then ret tt
       else bind (removeNoLock id true false) (fun _ => ret tt)) ;;
      removeAllExceptInMemory_loop rest ids_to_keep
  end.

Definition removeAllExceptInMemory (ids_to_keep : list UUID) : M unit :=
  fun s =>
    removeAllExceptInMemory_loop ((map_to_list (entries_by_id s)).*1)
      ids_to_keep s.

(** The last loop of [setAllInMemory], "Insert or update entities". *)
Fixpoint setAllInMemory_loop (entities : list (UUID * AccessEntity)) : M unit :=
  match entities with
  | [] => ret tt
  | (id, entity) :: rest =>
      bind (insertNoLock id entity true false false) (fun _ => ret tt) ;;
      setAllInMemory_loop rest
  end.

Definition setAllInMemory (all_entities : list (UUID * AccessEntity)) : M unit :=
  (* Remove conflicting entities from the specified list. *)
  let entities_without_conflicts :=
    clearConflictsInEntitiesList ext all_entities in
  (* Remove entities which are not used anymore. *)
  let ids_to_keep := entities_without_conflicts.*1 in
  removeAllExceptInMemory ids_to_keep ;;
  (* Insert or update entities. *)
  setAllInMemory_loop entities_without_conflicts.

End WithExternals.

(** * Auxiliary definitions for the proofs about the storage *)

(** ** The two maps as one index *)

(** The two maps describe the same entries: every entry is stored under
    its own id and its name points to it in the map of its type, and every
    name points to an entry of that type and name (so no pointer
    dangles). *)
Definition index_ok_maps (entries : gmap UUID Entry)
    (names : AccessEntityType -> gmap string UUID) : Prop :=
  (forall id entry, entries !! id = Some entry ->
     entry_id entry = id
     /\ names (entry_type entry) !! entry_name entry = Some id)
  /\ (forall type name pointer, names type !! name = Some pointer ->
        exists entry, entries !! pointer = Some entry
                      /\ entry_type entry = type
                      /\ entry_name entry = name).

Definition index_ok (s : State) : Prop :=
  index_ok_maps (entries_by_id s) (entries_by_name_and_type s).

(** The last part of [insertNoLock], from the branch on the id on;
    [id_collision] is the flag computed before. *)
Definition insertNoLock_tail (ext : Externals) (id : UUID)
    (new_entity : AccessEntity) (write_on_disk id_collision : bool)
    : M (bool * option UUID) :=
  bind
    (if id_collision then
       insertNoLock_id_collision ext id new_entity write_on_disk
     else ret false)
    (fun returned =>
       if returned then ret (true, None)
       else
         bind (insertNoLock_insertion ext id new_entity write_on_disk)
           (fun _ => ret (true, None))).

(** A call left the members in memory as they were (it may have written to
    the disk, to the set of lists to write and to the log). *)
Definition same_memory (s s' : State) : Prop :=
  entries_by_id s' = entries_by_id s
  /\ entries_by_name_and_type s' = entries_by_name_and_type s
  /\ readonly s' = readonly s
  /\ directory_path s' = directory_path s
  /\ backup_allowed s' = backup_allowed s.

(** A call left the disk and the bookkeeping of the lists as they were. *)
Definition same_disk (s s' : State) : Prop :=
  disk s' = disk s
  /\ faults s' = faults s
  /\ types_of_lists_to_write s' = types_of_lists_to_write s
  /\ failed_to_write_lists s' = failed_to_write_lists s
  /\ lists_writing_thread s' = lists_writing_thread s
  /\ lists_writing_thread_is_waiting s' = lists_writing_thread_is_waiting s.

(** The readers of a list file give back what the writers wrote, and
    leave what follows it. *)
Definition readers_invert_writers (ext : Externals) : Prop :=
  (forall n rest,
     readVarUInt ext (writeVarUInt ext n +:+ rest) = Some (n, rest))
  /\ (forall text rest,
        readStringBinary ext (writeStringBinary ext text +:+ rest)
        = Some (text, rest))
  /\ (forall id rest,
        readUUIDText ext (writeUUIDText ext id +:+ rest) = Some (id, rest)).

(** The pairs the list file of [type] holds, if the file is there and can
    be read and parsed. *)
Definition stored_list (ext : Externals) (s : State) (type : AccessEntityType)
    : option (list (UUID * string)) :=
  let file_path := getListFilePath ext (directory_path s) type in
  if read_fails (faults s) file_path then None
  else
    match disk s !! file_path with
    | Some contents => parse_list ext contents
    | None => None
    end.

(** The triples of id, name and type the list files of the [count] types
    from [type] on hold, if every one of them can be read. *)
Fixpoint stored_lists (ext : Externals) (s : State) (count type : nat)
    : option (list (UUID * string * AccessEntityType)) :=
  match count with
  | O => Some []
  | S count' =>
      match stored_list ext s type with
      | None => None
      | Some id_name_pairs =>
          match stored_lists ext s count' (S type) with
          | None => None
          | Some rest =>
              Some (((fun '(id, name) => (id, name, type)) <$> id_name_pairs)
                    ++ rest)
          end
      end
  end.

(** The pairs in memory for [type]: of every name of the type, the id it
    points to and the name. *)
Definition listed (s : State) (type : AccessEntityType) : list (UUID * string) :=
  (fun '(name, pointer) => (pointer, name))
  <$> map_to_list (entries_by_name s type).

(** From [s] to [s'] nothing happened to the lists, or writing them
    failed, or they were written: the members in memory are the same, and
    either the disk and the bookkeeping of the lists are as they were; or
    lists were due, the failure is recorded, the set is cleared and the
    mark file is as it was; or lists were due, the set is cleared, the
    mark file is gone and each list file holds the pairs of its type (for
    the types with a file of their own). *)
Definition lists_written (ext : Externals) (s s' : State) : Prop :=
  let mark := getNeedRebuildListsMarkFilePath (directory_path s) in
  let list_path := getListFilePath ext (directory_path s) in
  same_memory s s'
  /\ faults s' = faults s
  /\ ((disk s' = disk s
       /\ types_of_lists_to_write s' = types_of_lists_to_write s
       /\ failed_to_write_lists s' = failed_to_write_lists s)
      \/ (failed_to_write_lists s = false
          /\ types_of_lists_to_write s <> []
          /\ failed_to_write_lists s' = true
          /\ types_of_lists_to_write s' = []
          /\ disk s' !! mark = disk s !! mark)
      \/ (failed_to_write_lists s = false
          /\ types_of_lists_to_write s <> []
          /\ failed_to_write_lists s' = false
          /\ types_of_lists_to_write s' = []
          /\ disk s' !! mark = None
          /\ forall type, type ∈ types_of_lists_to_write s ->
               (forall type', type' ∈ types_of_lists_to_write s ->
                  list_path type' = list_path type -> type' = type) ->
               disk s' !! list_path type
               = Some (render_list ext (listed s type)))).

(** ** Concrete instances to evaluate the definitions on *)

(** [n] in unary: [n] times the digit 1, then the digit 0. *)
Fixpoint write_unary (n : nat) : string :=
  match n with
  | O => "0"%string
  | S n' => String "1"%char (write_unary n')
  end.

Fixpoint read_unary (in_ : string) : option (nat * string) :=
  match in_ with
  | String "1"%char rest =>
      match read_unary rest with
      | Some (n, rest') => Some (S n, rest')
      | None => None
      end
  | String "0"%char rest => Some (O, rest)
  | _ => None
  end.

(** The first [n] characters of a string and the rest, if it has as many. *)
Fixpoint split_string (n : nat) (in_ : string) : option (string * string) :=
  match n with
  | O => Some (""%string, in_)
  | S n' =>
      match in_ with
      | EmptyString => None
      | String c rest =>
          match split_string n' rest with
          | Some (front, back) => Some (String c front, back)
          | None => None
          end
      end
  end.

Definition write_string (text : string) : string :=
  write_unary (String.length text) +:+ text.

Definition read_string (in_ : string) : option (string * string) :=
  match read_unary in_ with
  | Some (n, rest) => split_string n rest
  | None => None
  end.

Definition write_number (n : N) : string := write_unary (N.to_nat n).

Definition read_number (in_ : string) : option (N * string) :=
  match read_unary in_ with
  | Some (n, rest) => Some (N.of_nat n, rest)
  | None => None
  end.

Definition write_entity (entity : AccessEntity) : string :=
  write_unary (getType entity) +:+ write_string (getName entity)
  +:+ definition entity.

Definition read_entity (contents : string) : option AccessEntity :=
  match read_unary contents with
  | Some (type, rest) =>
      match read_string rest with
      | Some (name, rest') => Some (mkAccessEntity name type rest')
      | None => None
      end
  | None => None
  end.

(** Externals to run the storage with: two types of entities, numbers and
    lengths in unary, [<path>.tmp] for the temporary file. *)
Definition simple_externals : Externals :=
  {| MAX := 2;
     toString := write_number;
     plural_raw_name := fun type => if decide (type = 0) then "users" else "roles";
     to_lower := fun name => name;
     replace_extension := fun path extension => path +:+ extension;
     serializeAccessEntity := write_entity;
     deserializeAccessEntity := read_entity;
     writeVarUInt := write_number;
     readVarUInt := read_number;
     writeStringBinary := write_string;
     readStringBinary := read_string;
     writeUUIDText := write_number;
     readUUIDText := read_number;
     clearConflictsInEntitiesList := fun entities => entities |}%string.

(** A writable storage with no entries on an empty disk. *)
Definition empty_storage : State :=
  {| directory_path := "/access/";
     readonly := false;
     backup_allowed := false;
     entries_by_id := ∅;
     entries_by_name_and_type := fun _ => ∅;
     failed_to_write_lists := false;
     types_of_lists_to_write := [];
     lists_writing_thread := false;
     lists_writing_thread_is_waiting := false;
     disk := ∅;
     faults := no_faults;
     log := [] |}.

Definition alice : AccessEntity := mkAccessEntity "alice" 0 "CREATE USER alice".
Definition bob : AccessEntity := mkAccessEntity "bob" 0 "CREATE USER bob".
Definition admin : AccessEntity := mkAccessEntity "admin" 1 "CREATE ROLE admin".

Definition alicia : AccessEntity :=
  mkAccessEntity "alicia" 0 "CREATE USER alicia".

(** The state a call leaves, whatever its outcome. *)
Definition state_of {A : Type} (result : Outcome A * State) : State := result.2.

(** The storage after [alice] and [admin] were inserted under the ids 1
    and 2, in memory and on the disk. *)
Definition small_storage : State :=
  state_of (insertNoLock simple_externals 2%N admin false true true
              (state_of (insertNoLock simple_externals 1%N alice false true true
                           empty_storage))).

End DiskAccessStorage.

(** * Properties of [byteSwap] *)
Module ByteSwapProofs.
Import ByteSwap.

Local Open Scope Z_scope.

(** The examples of the registered documentation. *)
Example byteSwap_doc_8 : apply (TInteger UInt8) 54 = inr 54.
Proof. reflexivity. Qed.

Example byteSwap_doc_16 : apply (TInteger UInt16) 4135 = inr 10000.
Proof. reflexivity. Qed.

Example byteSwap_doc_32 :
  apply (TInteger UInt32) 3351772109 = inr 3455829959.
Proof. reflexivity. Qed.

Example byteSwap_doc_64 :
  apply (TInteger UInt64) 123294967295 = inr 18439412204227788800.
Proof. reflexivity. Qed.

Example byteSwap_int16_negative : apply (TInteger Int16) (-2) = inr (-257).
Proof. reflexivity. Qed.

Example byteSwap_uint128 :
  apply (TInteger UInt128) 1 = inr (2 ^ 120).
Proof. reflexivity. Qed.


(** ** Bit operations as arithmetic *)

Lemma low_byte (x : Z) : Z.land x 255 = x mod 256.
Proof. change 255 with (Z.ones 8). now rewrite Z.land_ones by lia. Qed.

Lemma drop_low_byte (x : Z) : Z.shiftr x 8 = x / 256.
Proof. now rewrite Z.shiftr_div_pow2 by lia. Qed.

Lemma push_byte (a b : Z) :
  0 <= b < 256 -> Z.lor b (Z.shiftl a 8) = b + 256 * a.
Proof.
  intros Hb.
  assert (Hdisj : Z.land b (Z.shiftl a 8) = 0).
  { apply Z.bits_inj'. intros i Hi.
    rewrite Z.land_spec, Z.bits_0.
    destruct (Z.lt_ge_cases i 8) as [Hlt | Hge].
    - rewrite (Z.shiftl_spec_low a 8 i) by lia. apply andb_false_r.
    - replace (Z.testbit b i) with false; [reflexivity |].
      symmetry. destruct (Z.eq_dec b 0) as [-> | Hnz]; [apply Z.bits_0 |].
      apply Z.bits_above_log2; [lia |].
      apply Z.log2_lt_pow2; [lia |].
      apply Z.lt_le_trans with (2 ^ 8); [simpl; lia |].
      apply Z.pow_le_mono_r; lia. }
  rewrite <- Z.lxor_lor by exact Hdisj.
  rewrite <- Z.add_nocarry_lxor by exact Hdisj.
  rewrite Z.shiftl_mul_pow2 by lia. change (2 ^ 8) with 256. lia.
Qed.

(** ** Object representations *)

Lemma object_bytes_length (n : nat) (u : Z) : length (object_bytes n u) = n.
Proof. revert u. induction n as [| n IH]; intros u; simpl; [| rewrite IH]; reflexivity. Qed.

Lemma object_bytes_are_bytes (n : nat) (u : Z) : Forall is_byte (object_bytes n u).
Proof.
  revert u. induction n as [| n IH]; intros u; simpl; constructor.
  - unfold is_byte. rewrite low_byte. apply Z.mod_pos_bound. lia.
  - apply IH.
Qed.

Lemma value_of_bytes_bound (bs : list Z) :
  Forall is_byte bs -> 0 <= value_of_bytes bs < 256 ^ Z.of_nat (length bs).
Proof.
  induction 1 as [| b bs Hb _ IH]; [simpl; lia |].
  cbn [value_of_bytes length]. rewrite push_byte by exact Hb.
  rewrite Nat2Z.inj_succ, Z.pow_succ_r by lia.
  unfold is_byte in Hb. nia.
Qed.

Lemma value_of_object_bytes (n : nat) (u : Z) :
  0 <= u < 256 ^ Z.of_nat n -> value_of_bytes (object_bytes n u) = u.
Proof.
  revert u. induction n as [| n IH]; intros u Hu.
  - simpl in *. lia.
  - cbn [object_bytes value_of_bytes].
    rewrite Nat2Z.inj_succ, Z.pow_succ_r in Hu by lia.
    rewrite push_byte.
    + rewrite IH, low_byte, drop_low_byte.
      * symmetry. rewrite Z.add_comm. apply Z.div_mod. lia.
      * rewrite drop_low_byte. split.
        -- apply Z.div_pos; lia.
        -- apply Z.div_lt_upper_bound; lia.
    + rewrite low_byte. apply Z.mod_pos_bound. lia.
Qed.

Lemma object_bytes_of_value (bs : list Z) :
  Forall is_byte bs -> object_bytes (length bs) (value_of_bytes bs) = bs.
Proof.
  induction 1 as [| b bs Hb Hbs IH]; [reflexivity |].
  cbn [length object_bytes value_of_bytes].
  rewrite push_byte by exact Hb.
  rewrite low_byte, drop_low_byte.
  pose proof (value_of_bytes_bound bs Hbs) as Hv.
  unfold is_byte in Hb.
  replace ((b + 256 * value_of_bytes bs) mod 256) with b.
  - replace ((b + 256 * value_of_bytes bs) / 256) with (value_of_bytes bs).
    + now rewrite IH.
    + apply Z.div_unique with (r := b); lia.
  - apply Z.mod_unique with (q := value_of_bytes bs); lia.
Qed.

Lemma value_of_bytes_app (front back : list Z) :
  Forall is_byte front -> Forall is_byte back ->
  value_of_bytes (front ++ back)
  = value_of_bytes front + 256 ^ Z.of_nat (length front) * value_of_bytes back.
Proof.
  intros Hf Hb. induction Hf as [| b front Hbyte Hf IH]; [simpl; lia |].
  cbn [app value_of_bytes length].
  rewrite !push_byte by exact Hbyte.
  rewrite IH, Nat2Z.inj_succ, Z.pow_succ_r by lia. ring.
Qed.

Lemma rev_bytes (bs : list Z) : Forall is_byte bs -> Forall is_byte (rev bs).
Proof. apply List.Forall_rev. Qed.

Lemma swap_pattern_bound (n : nat) (u : Z) :
  0 <= swap_pattern n u < 256 ^ Z.of_nat n.
Proof.
  unfold swap_pattern.
  pose proof (value_of_bytes_bound (rev (object_bytes n u))
                (rev_bytes _ (object_bytes_are_bytes n u))) as H.
  now rewrite length_rev, object_bytes_length in H.
Qed.

Lemma swap_pattern_involutive (n : nat) (u : Z) :
  0 <= u < 256 ^ Z.of_nat n -> swap_pattern n (swap_pattern n u) = u.
Proof.
  intros Hu. unfold swap_pattern.
  pose proof (object_bytes_of_value (rev (object_bytes n u))
                (rev_bytes _ (object_bytes_are_bytes n u))) as H.
  rewrite length_rev, object_bytes_length in H.
  rewrite H, rev_involutive. now apply value_of_object_bytes.
Qed.

Lemma byteswap_loop_spec (n : nat) (x acc : Z) :
  0 <= acc ->
  byteswap_loop n x acc = swap_pattern n x + 256 ^ Z.of_nat n * acc.
Proof.
  revert x acc. induction n as [| n IH]; intros x acc Hacc.
  - unfold swap_pattern. simpl. lia.
  - cbn [byteswap_loop].
    assert (Hlow : is_byte (Z.land x 255)).
    { unfold is_byte. rewrite low_byte. apply Z.mod_pos_bound. lia. }
    rewrite Z.lor_comm, push_byte by exact Hlow.
    rewrite IH by (unfold is_byte in Hlow; lia).
    unfold swap_pattern. cbn [object_bytes rev].
    rewrite value_of_bytes_app.
    + rewrite length_rev, object_bytes_length.
      cbn [value_of_bytes]. rewrite push_byte by exact Hlow.
      change (Z.shiftl 0 8) with 0.
      rewrite Nat2Z.inj_succ, Z.pow_succ_r by lia. ring.
    + apply rev_bytes, object_bytes_are_bytes.
    + constructor; [exact Hlow | constructor].
Qed.

Lemma reverseMemcpy_whole (dst src : list Z) (n : nat) :
  length src = n -> length dst = n -> reverseMemcpy dst src n = rev src.
Proof.
  intros Hs Hd. unfold reverseMemcpy.
  rewrite firstn_all2 by lia. rewrite skipn_all2 by lia. apply app_nil_r.
Qed.

(** ** Two's complement conversions *)

Lemma pow_bits (T : IntegerType) : 2 ^ bits T = 256 ^ Z.of_nat (sizeof T).
Proof. destruct T; reflexivity. Qed.

Lemma pow_bits_half (T : IntegerType) :
  2 ^ bits T = 2 * 2 ^ (bits T - 1) /\ 0 < 2 ^ (bits T - 1).
Proof.
  assert (Hb : 0 <= bits T - 1) by (unfold bits; destruct T; simpl; lia).
  split; [| apply Z.pow_pos_nonneg; lia].
  replace (bits T) with (Z.succ (bits T - 1)) at 1 by lia.
  now rewrite Z.pow_succ_r.
Qed.

Lemma to_unsigned_range (T : IntegerType) (x : Z) :
  0 <= to_unsigned T x < 2 ^ bits T.
Proof.
  unfold to_unsigned. apply Z.mod_pos_bound.
  destruct (pow_bits_half T). lia.
Qed.

Lemma of_to_unsigned (T : IntegerType) (x : Z) :
  in_range T x -> of_unsigned T (to_unsigned T x) = x.
Proof.
  unfold in_range, of_unsigned, to_unsigned.
  destruct (pow_bits_half T) as [Hpow Hpos].
  set (full := 2 ^ bits T) in *. set (half := 2 ^ (bits T - 1)) in *.
  destruct (is_signed T); cbn [andb]; intros Hx.
  - destruct (Z.lt_ge_cases x 0) as [Hneg | Hnonneg].
    + replace (x mod full) with (x + full)
        by (apply Z.mod_unique with (q := -1); lia).
      destruct (Z.leb_spec half (x + full)); lia.
    + rewrite Z.mod_small by lia.
      destruct (Z.leb_spec half x); lia.
  - apply Z.mod_small. exact Hx.
Qed.

Lemma of_unsigned_in_range (T : IntegerType) (u : Z) :
  0 <= u < 2 ^ bits T -> in_range T (of_unsigned T u).
Proof.
  unfold in_range, of_unsigned.
  destruct (pow_bits_half T) as [Hpow Hpos].
  set (full := 2 ^ bits T) in *. set (half := 2 ^ (bits T - 1)) in *.
  destruct (is_signed T); cbn [andb]; intros Hu; [| exact Hu].
  destruct (Z.leb_spec half u); lia.
Qed.

Lemma to_of_unsigned (T : IntegerType) (u : Z) :
  0 <= u < 2 ^ bits T -> to_unsigned T (of_unsigned T u) = u.
Proof.
  unfold of_unsigned, to_unsigned.
  destruct (pow_bits_half T) as [Hpow Hpos].
  set (full := 2 ^ bits T) in *. set (half := 2 ^ (bits T - 1)) in *.
  destruct (is_signed T); cbn [andb]; intros Hu; [| now apply Z.mod_small].
  destruct (Z.leb_spec half u).
  - symmetry. apply Z.mod_unique with (q := -1); lia.
  - apply Z.mod_small. lia.
Qed.

(** ** Both overloads reverse the bytes of the pattern *)

Lemma std_byteswap_pattern (T : IntegerType) (x : Z) :
  std_byteswap T x = of_unsigned T (swap_pattern (sizeof T) (to_unsigned T x)).
Proof.
  unfold std_byteswap. rewrite byteswap_loop_spec by lia. f_equal. lia.
Qed.

Lemma byteSwap_wide_pattern (T : IntegerType) (x : Z) :
  byteSwap_wide T x = of_unsigned T (swap_pattern (sizeof T) (to_unsigned T x)).
Proof.
  unfold byteSwap_wide, swap_pattern.
  rewrite reverseMemcpy_whole; [reflexivity | apply object_bytes_length |].
  apply length_replicate.
Qed.

Lemma byteSwap_pattern (T : IntegerType) (x : Z) :
  byteSwap (TInteger T) x
  = inr (of_unsigned T (swap_pattern (sizeof T) (to_unsigned T x))).
Proof.
  unfold byteSwap.
  destruct (is_wide T); [rewrite byteSwap_wide_pattern | rewrite std_byteswap_pattern];
    reflexivity.
Qed.

Lemma swap_pattern_one_byte (u : Z) : 0 <= u < 256 -> swap_pattern 1 u = u.
Proof.
  intros Hu. unfold swap_pattern. cbn [object_bytes rev app value_of_bytes].
  change (Z.shiftl 0 8) with 0. rewrite Z.lor_0_r, low_byte.
  now apply Z.mod_small.
Qed.

(** C10. [byteSwap] is an involution on every supported integer type,
    built-in or wide (128 and 256 bits), signed or unsigned: the result of
    [byteSwap] is again a value of the type, and swapping it gives the
    argument back.  Consequently, on the one-byte types [byteSwap] is the
    identity. *)
Theorem byteSwap_involution (T : IntegerType) (x : Z) :
  in_range T x ->
  (exists y, byteSwap (TInteger T) x = inr y /\ in_range T y
             /\ byteSwap (TInteger T) y = inr x)
  /\ (sizeof T = 1%nat -> byteSwap (TInteger T) x = inr x).
Proof.
  intros Hx.
  pose proof (to_unsigned_range T x) as Hu.
  pose proof (swap_pattern_bound (sizeof T) (to_unsigned T x)) as Hs.
  rewrite (pow_bits T) in Hu.
  split.
  - exists (of_unsigned T (swap_pattern (sizeof T) (to_unsigned T x))).
    split; [apply byteSwap_pattern |].
    split; [apply of_unsigned_in_range; now rewrite pow_bits |].
    rewrite byteSwap_pattern. f_equal.
    rewrite to_of_unsigned by now rewrite pow_bits.
    rewrite swap_pattern_involutive by exact Hu.
    now apply of_to_unsigned.
  - intros Hone. rewrite byteSwap_pattern. f_equal.
    rewrite Hone in *. rewrite swap_pattern_one_byte by exact Hu.
    now apply of_to_unsigned.
Qed.

Lemma byteSwap_involution_witness :
  in_range Int256 (-3)
  /\ (exists y, byteSwap (TInteger Int256) (-3) = inr y /\ in_range Int256 y
                /\ byteSwap (TInteger Int256) y = inr (-3)).
Proof.
  assert (H : in_range Int256 (-3)).
  { vm_compute. split; [discriminate | reflexivity]. }
  split; [exact H |].
  exact (proj1 (byteSwap_involution Int256 (-3) H)).
Defined.

(** ** More on [byteSwap] *)

(** Byte [i] of the result is byte [sizeof(T) - 1 - i] of the argument:
    the object representation of [byteSwap(x)] is that of [x] reversed, for
    the built-in and for the wide types alike. *)
Theorem byteSwap_reverses_bytes (T : IntegerType) (x : Z) :
  exists y,
    byteSwap (TInteger T) x = inr y
    /\ object_bytes (sizeof T) (to_unsigned T y)
       = rev (object_bytes (sizeof T) (to_unsigned T x)).
Proof.
  eexists. split; [apply byteSwap_pattern |].
  pose proof (swap_pattern_bound (sizeof T) (to_unsigned T x)) as Hs.
  rewrite to_of_unsigned by now rewrite pow_bits.
  unfold swap_pattern.
  pose proof (object_bytes_of_value (rev (object_bytes (sizeof T) (to_unsigned T x)))
                (rev_bytes _ (object_bytes_are_bytes _ _))) as H.
  now rewrite length_rev, object_bytes_length in H.
Qed.

Lemma byteSwap_pattern_inj (T : IntegerType) (x y : Z) :
  in_range T x -> in_range T y ->
  of_unsigned T (swap_pattern (sizeof T) (to_unsigned T x))
  = of_unsigned T (swap_pattern (sizeof T) (to_unsigned T y)) ->
  x = y.
Proof.
  intros Hx Hy Heq.
  pose proof (to_unsigned_range T x) as Hux.
  pose proof (to_unsigned_range T y) as Huy.
  rewrite (pow_bits T) in Hux, Huy.
  apply (f_equal (to_unsigned T)) in Heq.
  rewrite !to_of_unsigned in Heq
    by (rewrite pow_bits; apply swap_pattern_bound).
  apply (f_equal (swap_pattern (sizeof T))) in Heq.
  rewrite !swap_pattern_involutive in Heq by assumption.
  apply (f_equal (of_unsigned T)) in Heq.
  now rewrite !of_to_unsigned in Heq.
Qed.

(** [byteSwap] is a bijection on the values of every integer type: two
    values with the same result are equal, and every value of the type is
    the result of one. *)
Theorem byteSwap_bijective (T : IntegerType) (x y : Z) :
  in_range T x -> in_range T y ->
  (byteSwap (TInteger T) x = byteSwap (TInteger T) y -> x = y)
  /\ exists x', in_range T x' /\ byteSwap (TInteger T) x' = inr y.
Proof.
  intros Hx Hy. split.
  - rewrite !byteSwap_pattern. intros Heq. injection Heq as Heq.
    now apply (byteSwap_pattern_inj T).
  - pose proof (to_unsigned_range T y) as Hu.
    pose proof (swap_pattern_bound (sizeof T) (to_unsigned T y)) as Hs.
    exists (of_unsigned T (swap_pattern (sizeof T) (to_unsigned T y))).
    split; [apply of_unsigned_in_range; now rewrite pow_bits |].
    rewrite byteSwap_pattern. f_equal.
    rewrite to_of_unsigned by now rewrite pow_bits.
    rewrite swap_pattern_involutive by now rewrite <- pow_bits.
    now apply of_to_unsigned.
Qed.

Lemma byteSwap_bijective_witness :
  (byteSwap (TInteger Int32) 7 = byteSwap (TInteger Int32) 7 -> 7 = 7)
  /\ exists x', in_range Int32 x' /\ byteSwap (TInteger Int32) x' = inr 7.
Proof.
  assert (H : in_range Int32 7) by (vm_compute; split; [discriminate | reflexivity]).
  exact (byteSwap_bijective Int32 7 7 H H).
Defined.

(** The only exception [byteSwap] raises is [NOT_IMPLEMENTED], with the
    name of the type in its message, and it raises it for no integer type:
    a failing call is a call of the third overload. *)
Theorem byteSwap_throws_only_not_implemented (A : ArgType) (x : Z)
    (e : Exception) :
  apply A x = inl e ->
  exc_code e = NOT_IMPLEMENTED
  /\ exists type_name,
       A = TOther type_name
       /\ exc_message e
          = ("byteSwap is not implemented for " ++ type_name ++ " datatype")%string.
Proof.
  unfold apply, byteSwap. destruct A as [T | name].
  - destruct (is_wide T); discriminate.
  - intros [= <-]. split; [reflexivity |]. now exists name.
Qed.

Lemma byteSwap_throws_only_not_implemented_witness :
  exc_code (mkException NOT_IMPLEMENTED
              "byteSwap is not implemented for Float64 datatype")
  = NOT_IMPLEMENTED.
Proof.
  exact (proj1 (byteSwap_throws_only_not_implemented (TOther "Float64") 0 _
                  eq_refl)).
Defined.

(** [FunctionUnaryArithmeticMonotonicity<NameByteSwap>::has()] is false,
    and rightly so: on every type wider than one byte, [byteSwap] reverses
    the order of some pair of values and keeps the order of another. *)
Theorem byteSwap_not_monotonic (T : IntegerType) :
  (2 <= sizeof T)%nat ->
  has = false
  /\ (exists x y bx by_,
        in_range T x /\ in_range T y /\ x < y
        /\ byteSwap (TInteger T) x = inr bx
        /\ byteSwap (TInteger T) y = inr by_ /\ by_ < bx)
  /\ (exists x y bx by_,
        in_range T x /\ in_range T y /\ x < y
        /\ byteSwap (TInteger T) x = inr bx
        /\ byteSwap (TInteger T) y = inr by_ /\ bx < by_).
Proof.
  intros Hsize. split; [reflexivity |]. split.
  - destruct T; cbn in Hsize; try lia.
    all: exists 1, 256; do 2 eexists.
    all: split; [vm_compute; split; [discriminate | reflexivity] |].
    all: split; [vm_compute; split; [discriminate | reflexivity] |].
    all: split; [reflexivity |].
    all: split; [vm_compute; reflexivity |].
    all: split; [vm_compute; reflexivity |]; reflexivity.
  - destruct T; cbn in Hsize; try lia.
    all: exists 1, 2; do 2 eexists.
    all: split; [vm_compute; split; [discriminate | reflexivity] |].
    all: split; [vm_compute; split; [discriminate | reflexivity] |].
    all: split; [reflexivity |].
    all: split; [vm_compute; reflexivity |].
    all: split; [vm_compute; reflexivity |]; reflexivity.
Qed.

Lemma byteSwap_not_monotonic_witness :
  exists x y bx by_,
    in_range UInt64 x /\ in_range UInt64 y /\ x < y
    /\ byteSwap (TInteger UInt64) x = inr bx
    /\ byteSwap (TInteger UInt64) y = inr by_ /\ by_ < bx.
Proof.
  assert (H : (2 <= sizeof UInt64)%nat) by (cbn; lia).
  exact (proj1 (proj2 (byteSwap_not_monotonic UInt64 H))).
Defined.

End ByteSwapProofs.


(** * Properties of the parallel formatter *)
Module ParallelFormattingProofs.
Import ParallelFormatting.

Local Open Scope nat_scope.
Local Open Scope member_scope.

Example scenario_output :
  out <$> run (constructor (mkParams (bracket_formatter true) 4)) scenario
  = Some [Byte.x3c; Byte.x78; Byte.x79; Byte.x3e; Byte.x54].
Proof. vm_compute. reflexivity. Qed.

Example scenario_sequential :
  sequential_segments (bracket_formatter true) (caller_ops scenario)
  = [inr [Byte.x3c]; inr [Byte.x78]; inr [Byte.x79]; inr [Byte.x3e];
     inr [Byte.x54]].
Proof. vm_compute. reflexivity. Qed.

(** Scenario S1: the sink holds [[a][b][c]] whatever the order in which
    the jobs finish. *)
Example scenario_S1_output :
  out <$> run (constructor (mkParams boxing_formatter 4)) scenario_S1
  = Some [Byte.x5b; Byte.x61; Byte.x5d; Byte.x5b; Byte.x62; Byte.x5d;
          Byte.x5b; Byte.x63; Byte.x5d].
Proof. vm_compute. reflexivity. Qed.

(** Scenario S4: after a worker has thrown, [finalize] rethrows once and a
    second [finalize] returns without rethrowing; the sink holds a prefix of
    the output. *)
Example scenario_S4 :
  let s1 := state_after poisoned
              [LCaller OpFinalizePrefix; LCollector] in
  (run_caller OpFinalizePrefix poisoned).1 = Thrown failure
  /\ collector_finished s1 = true
  /\ (run_caller OpFinalizeWait s1).1 = Returned tt
  /\ (run_caller OpFinalizePush s1).1 = Returned tt
  /\ out s1 = [].
Proof.
  split; [vm_compute; reflexivity |].
  split; [vm_compute; reflexivity |].
  split; [vm_compute; reflexivity |].
  split; vm_compute; reflexivity.
Qed.

(** Scenario S6: after [onCancel] in mid-stream the collector leaves its
    loop, nothing more is enqueued, and [finalize] does not block. *)
Example scenario_S6 :
  let s0 := constructor (mkParams boxing_formatter 4) in
  let s := state_after s0
             [LCaller OpWritePrefix; LCaller (OpConsume chunk_a);
              LFormatter 0; LCollector; LCaller OpCancel;
              LCaller (OpConsume chunk_b); LFormatter 0; LCollector;
              LCaller OpFinalizeWait; LCaller OpJoin] in
  out s = []
  /\ (collector_unit_number s, writer_unit_number s) = (1, 2)
  /\ collector_finished s = true
  /\ pool s = [].
Proof.
  split; [vm_compute; reflexivity |].
  split; [vm_compute; reflexivity |].
  split; vm_compute; reflexivity.
Qed.

(** ** Executions *)

Lemma run_snoc (s0 : State) (tr : list Label) (l : Label) :
  run s0 (tr ++ [l])
  = match run s0 tr with Some s => step_fun s l | None => None end.
Proof. unfold run. now rewrite fold_left_app. Qed.

Lemma run_exec (s0 : State) (tr : list Label) (s : State) :
  run s0 tr = Some s -> exec s0 tr s.
Proof.
  revert s. induction tr as [| l tr IH] using rev_ind; intros s Hrun.
  - injection Hrun as <-. constructor.
  - rewrite run_snoc in Hrun.
    destruct (run s0 tr) as [s1 |] eqn:Hprev; [| discriminate].
    apply exec_step with s1; [now apply IH | exact Hrun].
Qed.


Lemma caller_ops_snoc (tr : list Label) (l : Label) :
  caller_ops (tr ++ [l])
  = caller_ops tr ++ match l with LCaller op => [op] | _ => [] end.
Proof. unfold caller_ops. rewrite omap_app. destruct l; reflexivity. Qed.

(** ** The ring size (C2) *)




(** ** [flush] (C8) *)

(** C8, as the code has it.  [flushImpl] always returns; it sets
    [need_flush] when [auto_flush] is off and changes nothing when
    [auto_flush] is on.  No other member is written. *)
Theorem flushImpl_sets_need_flush (s : State) :
  flushImpl s
  = (Returned tt, if auto_flush s then s else set_need_flush true s)
  /\ need_flush (flushImpl s).2 = (if auto_flush s then need_flush s else true).
Proof. unfold flushImpl. destruct (auto_flush s); split; reflexivity. Qed.

(** The spec's sentence on [flush] fails with [auto_flush] on: after
    [setAutoFlush], [flush] leaves [need_flush] unset. *)
Lemma flushImpl_auto_flush :
  let s0 := constructor (mkParams (bracket_formatter false) 4) in
  let s := (setAutoFlush s0).2 in
  run s0 [LCaller OpSetAutoFlush] = Some s
  /\ flushImpl s = (Returned tt, s)
  /\ need_flush (flushImpl s).2 = false.
Proof. repeat split. Qed.

(** ** [resetFormatterImpl] (C9) *)

(** C9.  In every state, [resetFormatterImpl] throws an exception whose
    code is [NOT_IMPLEMENTED] and leaves the instance as it was; as a step
    of the caller it is a step from the state to itself. *)
Theorem resetFormatterImpl_not_implemented (s : State) :
  (exists e, resetFormatterImpl s = (Thrown e, s)
             /\ exc_code e = NOT_IMPLEMENTED)
  /\ step s (LCaller OpResetFormatter) s.
Proof.
  split; [| reflexivity].
  eexists. split; reflexivity.
Qed.

(** ** The effect of each kind of step *)

Lemma caller_step (s : State) (op : CallerOp) (s' : State) :
  step s (LCaller op) s' ->
  caller_frame s s'
  /\ (emergency_stop s = false ->
      caller_effect s
        (submission (save_totals_and_extremes_in_statistics s)
           (started_prefix s) (started_suffix s) op) s').
Proof.
  intros Hstep. unfold caller_frame.
  destruct op; step_cases Hstep; use_equations; cbn.
  all: try (repeat split; intros; try congruence; fail).
  all: try (repeat split; intros; try congruence; eexists; repeat split; try eassumption; try reflexivity; rewrite ?orb_true_r, ?orb_false_r; try tauto; fail).
  all: try (repeat split; intros; try congruence; eexists; repeat split; try eassumption; try reflexivity; left; rewrite ?orb_true_r, ?orb_false_r; tauto).
Qed.


Lemma formatter_step (s : State) (job : nat) (s' : State) :
  step s (LFormatter job) s' ->
  exists ticket first_row_num u u',
    pool s !! job = Some (ticket, first_row_num)
    /\ processing_units s !! (ticket mod length (processing_units s)) = Some u
    /\ pool s' = delete job (pool s)
    /\ processing_units s'
       = <[ticket mod length (processing_units s) := u']> (processing_units s)
    /\ type u' = type u
    /\ chunk u' = chunk u
    /\ formatter_frame s s'
    /\ ((emergency_stop s' = emergency_stop s
         /\ status u' = READY_TO_READ
         /\ run_inner (internal_formatter_creator s) (type u) (chunk u)
              (statistics s)
            = inr (take (actual_memory_size u') (segment u')))
        \/ (emergency_stop s' = true /\ status u' = status u)).
Proof.
  intros Hstep. unfold formatter_frame, format_unit in *.
  step_cases Hstep.
  all: do 4 eexists.
  all: (split; [reflexivity |]); (split; [eassumption |]);
    (split; [reflexivity |]).
  all: (split;
        [ first [ reflexivity
                | rewrite list_insert_insert_eq; reflexivity
                | symmetry; apply list_insert_id; eassumption ] |]).
  all: cbn; (split; [congruence |]); (split; [reflexivity |]).
  all: (split; [repeat split; auto |]).
  all: try (right; split; reflexivity).
  all: left; (split; [reflexivity |]); (split; [reflexivity |]).
  all: rewrite take_app_length.
  all: unfold run_inner in *; use_equations; cbn in *; try reflexivity.
  all: match goal with a : ProcessingUnit |- _ => destruct a end;
    unfold format_unit, run_inner in *; cbn in *; subst; assumption.
Qed.

Lemma collector_step (s s' : State) :
  step s LCollector s' ->
  collector_finished s = false
  /\ collector_frame s s'
  /\ (emergency_stop s = true -> collector_idle s s')
  /\ (emergency_stop s = false ->
      exists u,
        processing_units s
        !! (collector_unit_number s mod length (processing_units s)) = Some u
        /\ status u = READY_TO_READ
        /\ ((collector_idle s s' /\ collector_finished s' = false)
            \/ (emergency_stop s' = false
                /\ out s' = out s ++ take (actual_memory_size u) (segment u)
                /\ ((type u = FINALIZE
                     /\ processing_units s' = processing_units s
                     /\ collector_unit_number s' = collector_unit_number s
                     /\ collected_finalize s' = true
                     /\ collector_finished s' = true)
                    \/ (type u <> FINALIZE
                        /\ processing_units s'
                           = <[collector_unit_number s
                               mod length (processing_units s) :=
                                 mkProcessingUnit READY_TO_INSERT (type u)
                                   (chunk u) (segment u) (actual_memory_size u)
                                   (unit_statistics u) (rows_num u)]>
                               (processing_units s)
                        /\ collector_unit_number s'
                           = S (collector_unit_number s)
                        /\ collected_finalize s' = collected_finalize s
                        /\ collector_finished s' = false))))).
Proof.
  intros Hstep. unfold collector_frame, collector_idle.
  step_cases Hstep.
  all: (split; [reflexivity |]); (split; [repeat split; reflexivity |]).
  all: split; intros Hes; try congruence.
  all: try (repeat split; congruence).
  all: eexists; (split; [first [eassumption | reflexivity] |]);
    (split; [assumption |]).
  all: try (left; repeat split; congruence).
  all: right; (split; [congruence |]); (split; [reflexivity |]).
  all: try (left; repeat split; congruence).
  all: right; use_equations; repeat split; congruence.
Qed.

Lemma environment_step (s : State) (pe oe : option Exception) (s' : State) :
  step s (LEnvironment pe oe) s' ->
  s' = set_pool_error pe (set_out_error oe s).
Proof. unfold step. cbn. congruence. Qed.

(** ** The ring invariant is kept by every step *)

Lemma mod_window_inj (n c t1 t2 : nat) :
  c <= t1 < c + n -> c <= t2 < c + n -> t1 mod n = t2 mod n -> t1 = t2.
Proof.
  intros H1 H2 Hmod.
  pose proof (Nat.div_mod_eq t1 n) as E1.
  pose proof (Nat.div_mod_eq t2 n) as E2.
  rewrite Hmod in E1.
  assert (t1 / n = t2 / n) as Hq by nia.
  rewrite Hq in E1. lia.
Qed.

Lemma mod_window_shift (n c : nat) : (c + n) mod n = c mod n.
Proof.
  destruct n as [| n]; [now rewrite Nat.add_0_r |].
  replace (c + S n) with (c + 1 * S n) by lia.
  apply Nat.Div0.mod_add.
Qed.

Lemma ring_ok_init (n : nat) : ring_ok (replicate n new_unit) [] 0 0.
Proof.
  unfold ring_ok. rewrite length_replicate. split; [lia |].
  split; [| split].
  - intros t Ht. exists new_unit. split.
    + apply lookup_replicate_2. apply Nat.mod_upper_bound. lia.
    + cbn. split; [lia | reflexivity].
  - intros j t frn H. discriminate H.
  - intros j1 j2 t f1 f2 H. discriminate H.
Qed.

Lemma ring_ok_push (units : list ProcessingUnit) (jobs : list (nat * nat))
    (c w : nat) (u u' : ProcessingUnit) (frn : nat) :
  ring_ok units jobs c w ->
  units !! (w mod length units) = Some u ->
  status u = READY_TO_INSERT ->
  status u' = READY_TO_FORMAT ->
  ring_ok (<[w mod length units := u']> units) jobs c (S w)
  /\ ring_ok (<[w mod length units := u']> units) (jobs ++ [(w, frn)]) c (S w).
Proof.
  intros (Hb & Hslots & Hjobs & Huniq) Hu Hfree Hfmt.
  pose proof (lookup_lt_Some _ _ _ Hu) as Hlt.
  assert (Hw : w < c + length units).
  { destruct (decide (w < c + length units)) as [| Hge]; [assumption |].
    assert (w = c + length units) as -> by lia.
    destruct (Hslots c ltac:(lia)) as (u0 & Hu0 & Hst0).
    rewrite mod_window_shift in Hu. rewrite Hu in Hu0. injection Hu0 as <-.
    apply Hst0 in Hfree. lia. }
  assert (Hslots' : forall t, c <= t < c + length units ->
            exists u0, <[w mod length units := u']> units !! (t mod length units)
                       = Some u0
                       /\ (status u0 = READY_TO_INSERT <-> S w <= t)).
  { intros t Ht. destruct (decide (t = w)) as [-> | Hne].
    - exists u'. split; [now apply list_lookup_insert_eq |].
      rewrite Hfmt. split; [discriminate | lia].
    - destruct (Hslots t Ht) as (u0 & Hu0 & Hst0).
      exists u0. split.
      + rewrite list_lookup_insert_ne; [assumption |].
        intros Heq. apply Hne. symmetry.
        apply (mod_window_inj (length units) c); [lia | lia | exact Heq].
      + rewrite Hst0. lia. }
  assert (Hjobs' : forall j t frn0, jobs !! j = Some (t, frn0) ->
            c <= t < S w
            /\ exists u0, <[w mod length units := u']> units !! (t mod length units)
                          = Some u0
                          /\ status u0 = READY_TO_FORMAT).
  { intros j t frn0 Hj. destruct (Hjobs j t frn0 Hj) as (Ht & u0 & Hu0 & Hst0).
    split; [lia |]. exists u0. split; [| assumption].
    rewrite list_lookup_insert_ne; [assumption |].
    intros Heq. assert (w = t); [| lia].
    apply (mod_window_inj (length units) c); [lia | lia | exact Heq]. }
  unfold ring_ok. rewrite !length_insert.
  split; (split; [lia |]); (split; [exact Hslots' |]).
  - split; [exact Hjobs' | exact Huniq].
  - split.
    + intros j t frn0 Hj. apply lookup_snoc_Some in Hj as [[_ Hj] | [_ Hj]].
      * eapply Hjobs', Hj.
      * injection Hj as <- <-. split; [lia |].
        exists u'. split; [now apply list_lookup_insert_eq | assumption].
    + intros j1 j2 t f1 f2 H1 H2.
      apply lookup_snoc_Some in H1 as [[Hl1 H1] | [Hl1 H1]];
        apply lookup_snoc_Some in H2 as [[Hl2 H2] | [Hl2 H2]].
      * eapply Huniq; eassumption.
      * injection H2 as <- <-. apply Hjobs in H1. lia.
      * injection H1 as <- <-. apply Hjobs in H2. lia.
      * lia.
Qed.

Lemma lookup_delete_origin {A : Type} (l : list A) (i j : nat) (x : A) :
  delete i l !! j = Some x ->
  exists j', l !! j' = Some x /\ j' <> i /\ (j = if decide (j' < i) then j' else pred j').
Proof.
  intros H. destruct (decide (j < i)) as [Hlt | Hge].
  - rewrite list_lookup_delete_lt in H by assumption.
    exists j. split; [assumption |]. split; [lia |].
    now rewrite decide_True.
  - rewrite list_lookup_delete_ge in H by lia.
    exists (S j). split; [assumption |]. split; [lia |].
    rewrite decide_False by lia. reflexivity.
Qed.

Lemma ring_ok_format (units : list ProcessingUnit) (jobs : list (nat * nat))
    (c w : nat) (job t frn : nat) (u' : ProcessingUnit) :
  ring_ok units jobs c w ->
  jobs !! job = Some (t, frn) ->
  status u' = READY_TO_READ \/ status u' = READY_TO_FORMAT ->
  ring_ok (<[t mod length units := u']> units) (delete job jobs) c w.
Proof.
  intros (Hb & Hslots & Hjobs & Huniq) Hjob Hst.
  destruct (Hjobs _ _ _ Hjob) as (Ht & u & Hu & Hfmt).
  pose proof (lookup_lt_Some _ _ _ Hu) as Hlt.
  unfold ring_ok. rewrite !length_insert.
  split; [lia |]. split; [| split].
  - intros t' Ht'. destruct (decide (t' = t)) as [-> | Hne].
    + exists u'. split; [now apply list_lookup_insert_eq |].
      split; [intros Hfree; destruct Hst; congruence | lia].
    + destruct (Hslots t' Ht') as (u0 & Hu0 & Hst0).
      exists u0. split; [| assumption].
      rewrite list_lookup_insert_ne; [assumption |].
      intros Heq. apply Hne. symmetry.
      apply (mod_window_inj (length units) c); [lia | lia | exact Heq].
  - intros j t' frn' Hj.
    apply lookup_delete_origin in Hj as (j' & Hj' & Hne & _).
    destruct (Hjobs _ _ _ Hj') as (Ht' & u0 & Hu0 & Hst0).
    split; [assumption |]. exists u0. split; [| assumption].
    rewrite list_lookup_insert_ne; [assumption |].
    intros Heq. apply Hne.
    assert (t = t') as <-
      by (apply (mod_window_inj (length units) c); [lia | lia | exact Heq]).
    eapply Huniq; eassumption.
  - intros j1 j2 t' f1 f2 H1 H2.
    apply lookup_delete_origin in H1 as (j1' & H1 & _ & ->).
    apply lookup_delete_origin in H2 as (j2' & H2 & _ & ->).
    now rewrite (Huniq _ _ _ _ _ H1 H2).
Qed.

Lemma ring_ok_collect (units : list ProcessingUnit) (jobs : list (nat * nat))
    (c w : nat) (u u' : ProcessingUnit) :
  ring_ok units jobs c w ->
  units !! (c mod length units) = Some u ->
  status u = READY_TO_READ ->
  status u' = READY_TO_INSERT ->
  ring_ok (<[c mod length units := u']> units) jobs (S c) w.
Proof.
  intros (Hb & Hslots & Hjobs & Huniq) Hu Hready Hfree.
  pose proof (lookup_lt_Some _ _ _ Hu) as Hlt.
  assert (Hc : c < w).
  { destruct (Hslots c ltac:(lia)) as (u0 & Hu0 & Hst0).
    rewrite Hu in Hu0. injection Hu0 as <-.
    destruct (decide (c < w)); [assumption |].
    assert (status u = READY_TO_INSERT) by (apply Hst0; lia). congruence. }
  unfold ring_ok. rewrite !length_insert.
  split; [lia |]. split; [| split].
  - intros t Ht. destruct (decide (t = c + length units)) as [-> | Hne].
    + exists u'. rewrite mod_window_shift.
      split; [now apply list_lookup_insert_eq |].
      rewrite Hfree. split; [lia | reflexivity].
    + destruct (Hslots t ltac:(lia)) as (u0 & Hu0 & Hst0).
      exists u0. split; [| assumption].
      rewrite list_lookup_insert_ne; [assumption |].
      intros Heq. assert (c = t); [| lia].
      apply (mod_window_inj (length units) c); [lia | lia | exact Heq].
  - intros j t frn Hj.
    destruct (Hjobs _ _ _ Hj) as (Ht & u0 & Hu0 & Hst0).
    assert (Hne : t <> c).
    { intros ->. rewrite Hu in Hu0. injection Hu0 as <-. congruence. }
    split; [lia |]. exists u0. split; [| assumption].
    rewrite list_lookup_insert_ne; [assumption |].
    intros Heq. apply Hne. symmetry.
    apply (mod_window_inj (length units) c); [lia | lia | exact Heq].
  - exact Huniq.
Qed.

Lemma status_cycle_refl (units : list ProcessingUnit) :
  status_cycle units units /\ one_slot_written units units.
Proof.
  split; [intros i u Hu; exists u; auto |].
  exists 0. reflexivity.
Qed.

Lemma status_cycle_insert (units : list ProcessingUnit) (i : nat)
    (u u' : ProcessingUnit) :
  units !! i = Some u ->
  status u' = status u \/ status u' = next_status (status u) ->
  status_cycle units (<[i := u']> units)
  /\ one_slot_written units (<[i := u']> units).
Proof.
  intros Hu Hst. split.
  - intros j u0 Hj. destruct (decide (i = j)) as [<- | Hne].
    + exists u'. split.
      * apply list_lookup_insert_eq. eapply lookup_lt_Some, Hu.
      * rewrite Hu in Hj. now injection Hj as <-.
    + exists u0. rewrite list_lookup_insert_ne by assumption. auto.
  - exists i. intros j Hne. apply list_lookup_insert_ne. congruence.
Qed.

Ltac ring_unchanged Hinv :=
  split; [exact Hinv |];
  split; [reflexivity |];
  split; [lia |];
  split; [lia | apply status_cycle_refl].

Lemma step_ring (s : State) (l : Label) (s' : State) :
  ring_invariant s -> step s l s' ->
  ring_invariant s'
  /\ length (processing_units s') = length (processing_units s)
  /\ collector_unit_number s <= collector_unit_number s'
  /\ writer_unit_number s <= writer_unit_number s'
  /\ status_cycle (processing_units s) (processing_units s')
  /\ one_slot_written (processing_units s) (processing_units s').
Proof.
  unfold ring_invariant. intros Hinv Hstep.
  destruct l as [op | job | | pe oe].
  - apply caller_step in Hstep as [Hframe Heffect].
    destruct Hframe as (_ & Hc & _ & _ & _ & _ & Hstop). rewrite Hc.
    destruct (emergency_stop s) eqn:Hes.
    { destruct (Hstop eq_refl) as (_ & -> & -> & ->).
      ring_unchanged Hinv. }
    specialize (Heffect eq_refl).
    destruct (submission _ _ _ op) as [| f | ty ch p sx]; cbn in Heffect.
    + destruct Heffect as (-> & -> & -> & _).
      ring_unchanged Hinv.
    + destruct Heffect as (-> & -> & -> & _).
      ring_unchanged Hinv.
    + destruct Heffect as (u & Hu & Hfree & -> & -> & _ & Hpool).
      set (u' := mkProcessingUnit _ _ _ _ _ _ _).
      destruct (ring_ok_push _ _ _ _ u u' (rows_consumed s) Hinv Hu Hfree eq_refl)
        as [Hfailed Hqueued].
      rewrite length_insert.
      split; [| split; [reflexivity | split; [lia | split; [lia |]]]].
      * destruct Hpool as [(_ & -> & _) | (_ & ->)]; assumption.
      * eapply status_cycle_insert; [exact Hu |].
        right. now rewrite Hfree.
  - apply formatter_step in Hstep
      as (t & frn & u & u' & Hjob & Hu & -> & -> & _ & _ & Hframe & Hst).
    destruct Hframe as (_ & -> & -> & _).
    pose proof Hinv as (Hb & Hslots & Hjobs & Huniq).
    destruct (Hjobs _ _ _ Hjob) as (_ & u0 & Hu0 & Hfmt).
    rewrite Hu in Hu0. injection Hu0 as <-.
    rewrite length_insert.
    split; [| split; [reflexivity | split; [lia | split; [lia |]]]].
    + eapply ring_ok_format; [exact Hinv | exact Hjob |].
      destruct Hst as [(_ & -> & _) | (_ & ->)]; auto.
    + eapply status_cycle_insert; [exact Hu |].
      destruct Hst as [(_ & -> & _) | (_ & ->)]; [right | left];
        [now rewrite Hfmt | reflexivity].
  - apply collector_step in Hstep as (_ & Hframe & Hstopped & Hrunning).
    destruct Hframe as (-> & -> & _).
    destruct (emergency_stop s) eqn:Hes.
    { destruct (Hstopped eq_refl) as (_ & -> & -> & _).
      ring_unchanged Hinv. }
    destruct (Hrunning eq_refl) as (u & Hu & Hready & Hcases).
    destruct Hcases as [[(_ & -> & -> & _) _] | (_ & _ & Hcases)].
    { ring_unchanged Hinv. }
    destruct Hcases as [(_ & -> & -> & _) | (_ & -> & -> & _)].
    { ring_unchanged Hinv. }
    rewrite length_insert.
    split; [| split; [reflexivity | split; [lia | split; [lia |]]]].
    + eapply ring_ok_collect; [exact Hinv | exact Hu | exact Hready | reflexivity].
    + eapply status_cycle_insert; [exact Hu |]. right. now rewrite Hready.
  - apply environment_step in Hstep as ->. cbn.
    ring_unchanged Hinv.
Qed.

Lemma constructor_ring (params : Params) : ring_invariant (constructor params).
Proof. apply ring_ok_init. Qed.

Lemma exec_ring (s0 : State) (tr : list Label) (s : State) :
  ring_invariant s0 -> exec s0 tr s ->
  ring_invariant s
  /\ length (processing_units s) = length (processing_units s0)
  /\ collector_unit_number s0 <= collector_unit_number s
  /\ writer_unit_number s0 <= writer_unit_number s.
Proof.
  intros H0. induction 1 as [| tr s l s' _ IH Hstep].
  - split; [assumption | split; [reflexivity | lia]].
  - destruct IH as (Hinv & Hlen & Hc & Hw).
    destruct (step_ring _ _ _ Hinv Hstep) as (Hinv' & Hlen' & Hc' & Hw' & _).
    split; [assumption | split; [congruence | lia]].
Qed.

(** ** What no step undoes *)

Lemma capability_queries_app (evs evs' : list Event) :
  capability_queries (evs ++ evs')
  = capability_queries evs + capability_queries evs'.
Proof. unfold capability_queries. now rewrite List.filter_app, length_app. Qed.

Ltac sticky_goal :=
  unfold sticky; cbn;
  repeat split; intros; try congruence;
  unfold capability_queries; rewrite ?List.filter_app, ?length_app; cbn; lia.

Lemma step_sticky (s : State) (l : Label) (s' : State) :
  step s l s' -> sticky s s'.
Proof.
  intros Hstep. destruct l as [op | job | | pe oe].
  - destruct op; step_cases Hstep. all: sticky_goal.
  - step_cases Hstep; sticky_goal.
  - step_cases Hstep; sticky_goal.
  - step_cases Hstep; sticky_goal.
Qed.

Lemma exec_sticky (s : State) (tr : list Label) (s' : State) :
  exec s tr s' -> sticky s s'.
Proof.
  induction 1 as [| tr s1 l s2 _ IH Hstep].
  - unfold sticky. repeat split; auto.
  - apply step_sticky in Hstep.
    destruct IH as (H1 & H2 & H3 & H4 & H5 & H6).
    destruct Hstep as (K1 & K2 & K3 & K4 & K5 & K6).
    unfold sticky. repeat split; intros; auto; congruence.
Qed.

(** ** Background errors (C4) *)

Lemma onBackgroundException_report (s : State) (e : Exception) :
  (onBackgroundException e s).1 = Returned tt
  /\ background_exception (onBackgroundException e s).2
     = Some (default e (background_exception s))
  /\ emergency_stop (onBackgroundException e s).2 = true
  /\ events (onBackgroundException e s).2 = events s ++ report_events.
Proof.
  unfold onBackgroundException, lock_guard, emit.
  unfold bind, modify, ret.
  cbn. destruct (background_exception s) eqn:Hbg; cbn;
    repeat split; unfold report_events; now rewrite <- ?app_assoc.
Qed.

Lemma report_all_swallowed (later : list Exception) (s : State) (e : Exception) :
  background_exception s = Some e ->
  background_exception (report_all later s) = Some e
  /\ emergency_stop (report_all later s) = emergency_stop s || bool_decide (later <> [])
  /\ events (report_all later s) = events s ++ (later ≫= fun _ => report_events).
Proof.
  revert s. induction later as [| e1 later IH]; intros s Hbg.
  - cbn. rewrite orb_false_r, app_nil_r. auto.
  - destruct (onBackgroundException_report s e1) as (_ & Hbg1 & Hes1 & Hev1).
    rewrite Hbg in Hbg1. cbn in Hbg1.
    destruct (IH _ Hbg1) as (IHbg & IHes & IHev).
    change (report_all (e1 :: later) s)
      with (report_all later (onBackgroundException e1 s).2).
    rewrite IHbg, IHes, IHev, Hes1, Hev1. cbn.
    rewrite orb_true_r, <- app_assoc. auto.
Qed.

(** C4.  A report of a background error always returns; it writes
    [background_exception] only if none is recorded yet, sets
    [emergency_stop] and notifies the writer's and the collector's
    condition variables (under [mutex]).  After it, any number of further
    reports leave [background_exception] as it is, and each of them again
    sets [emergency_stop] and notifies both condition variables. *)
Theorem onBackgroundException_first_wins (s : State) (e : Exception)
    (later : list Exception) :
  let s1 := (onBackgroundException e s).2 in
  (onBackgroundException e s).1 = Returned tt
  /\ background_exception s1 = Some (default e (background_exception s))
  /\ emergency_stop s1 = true
  /\ events s1 = events s ++ report_events
  /\ background_exception (report_all later s1) = background_exception s1
  /\ emergency_stop (report_all later s1) = true
  /\ events (report_all later s1)
     = events s1 ++ (later ≫= fun _ => report_events).
Proof.
  intros s1. subst s1.
  destruct (onBackgroundException_report s e) as (Hret & Hbg & Hes & Hev).
  destruct (report_all_swallowed later _ _ Hbg) as (Kbg & Kes & Kev).
  rewrite Kbg, Kes, Hes. auto 10.
Qed.

(** The pool threads and the collector report their errors through
    [onBackgroundException]: a job whose formatter throws, a write the sink
    refuses. *)
Lemma formatter_failure_reports (s : State) (ticket first_row_num : nat)
    (u : ProcessingUnit) (e : Exception) :
  processing_units s !! (ticket mod length (processing_units s)) = Some u ->
  type u <> FINALIZE ->
  format_unit (internal_formatter_creator s) u = inl e ->
  formatterThreadFunction ticket first_row_num s
  = onBackgroundException e (set_events (events s ++ [CreateFormatter]) s).
Proof.
  intros Hu Hty Hfail. unfold formatterThreadFunction.
  rewrite Hu. unfold try_catch, emit, bind, modify, ret. cbn.
  destruct (type u) eqn:Htype; try congruence; cbn; now rewrite Hfail.
Qed.

Lemma collector_failure_reports (s : State) (u : ProcessingUnit) (e : Exception) :
  processing_units s
  !! (collector_unit_number s mod length (processing_units s)) = Some u ->
  emergency_stop s = false ->
  status u = READY_TO_READ ->
  out_error s = Some e ->
  collectorThreadFunction_iteration s
  = (Returned true, (onBackgroundException e s).2).
Proof.
  intros Hu Hes Hready Herror. unfold collectorThreadFunction_iteration.
  rewrite Hu, Hes, Hready.
  unfold try_catch, write_out, bind. cbn. rewrite Herror.
  pose proof (onBackgroundException_report s e) as [Hret _].
  destruct (onBackgroundException e s) as [r s1]. cbn in Hret |- *.
  now rewrite Hret.
Qed.

(** In the modelled threads, once an exception is recorded no step of any
    thread replaces it, and the emergency stop stays. *)
Lemma background_exception_kept (s : State) (tr : list Label) (s' : State)
    (e : Exception) :
  exec s tr s' -> background_exception s = Some e ->
  background_exception s' = Some e.
Proof. intros Hexec. apply (exec_sticky _ _ _ Hexec). Qed.

(** ** Rethrowing the background exception (C5) *)

(** C5.  With a background exception recorded and not yet rethrown, the
    rethrow path throws it and latches [exception_is_rethrown]; whatever the
    threads do afterwards, every later call of the rethrow path returns
    without throwing and without changing anything. *)
Theorem rethrowBackgroundException_once (s : State) (e : Exception) :
  background_exception s = Some e ->
  exception_is_rethrown s = false ->
  rethrowBackgroundException s = (Thrown e, set_exception_is_rethrown true s)
  /\ exception_is_rethrown (set_exception_is_rethrown true s) = true
  /\ forall tr s', exec (set_exception_is_rethrown true s) tr s' ->
       rethrowBackgroundException s' = (Returned tt, s').
Proof.
  intros Hbg Hlatch. unfold rethrowBackgroundException at 1.
  rewrite Hlatch. cbn. rewrite Hbg.
  split; [reflexivity |]. split; [reflexivity |].
  intros tr s' Hexec.
  apply exec_sticky in Hexec as (Hkept & _).
  unfold rethrowBackgroundException. now rewrite (Hkept eq_refl).
Qed.

Lemma rethrowBackgroundException_once_witness :
  rethrowBackgroundException poisoned
  = (Thrown failure, set_exception_is_rethrown true poisoned)
  /\ rethrowBackgroundException (set_exception_is_rethrown true poisoned)
     = (Returned tt, set_exception_is_rethrown true poisoned).
Proof.
  assert (Hbg : background_exception poisoned = Some failure) by reflexivity.
  assert (Hlatch : exception_is_rethrown poisoned = false) by reflexivity.
  destruct (rethrowBackgroundException_once poisoned failure Hbg Hlatch)
    as (Hfirst & _ & Hlater).
  split; [exact Hfirst |].
  apply (Hlater []). constructor.
Defined.

(** Under emergency stop the producer path and the last phase of
    [finalize] reach the caller through the rethrow path only. *)
Lemma addChunk_poisoned (s : State) (chunk_ : Chunk) (type_ : ProcessingUnitType)
    (u : ProcessingUnit) (e : Exception) :
  emergency_stop s = true ->
  background_exception s = Some e ->
  processing_units s !! (writer_unit_number s mod length (processing_units s))
  = Some u ->
  addChunk chunk_ type_ true s = rethrowBackgroundException s
  /\ addChunk chunk_ type_ false s = (Returned tt, s).
Proof.
  intros Hes Hbg Hu. unfold addChunk. rewrite Hu, Hes, Hbg. split; reflexivity.
Qed.

Lemma finalizeImpl_wait_poisoned (s : State) (e : Exception) :
  collector_finished s = true -> background_exception s = Some e ->
  finalizeImpl_wait s = rethrowBackgroundException s.
Proof. intros Hcf Hbg. unfold finalizeImpl_wait. now rewrite Hcf, Hbg. Qed.

(** ** The tickets (C6) *)




(** ** The status of a slot (C7) *)

(** C7.  A status is one of the three values; every slot starts as
    [READY_TO_INSERT]; and in every execution from the constructor, a step
    of any thread leaves the status of each slot as it is or moves it to
    the next one of the cycle [READY_TO_INSERT -> READY_TO_FORMAT ->
    READY_TO_READ -> READY_TO_INSERT], and it writes to one slot at most. *)
Theorem status_follows_cycle (params : Params) (tr : list Label) (s : State)
    (l : Label) (s' : State) :
  exec (constructor params) tr s ->
  step s l s' ->
  (forall st : ProcessingUnitStatus,
     st = READY_TO_INSERT \/ st = READY_TO_FORMAT \/ st = READY_TO_READ)
  /\ (forall i u, processing_units (constructor params) !! i = Some u ->
        status u = READY_TO_INSERT)
  /\ (forall i u, processing_units s !! i = Some u ->
        exists u', processing_units s' !! i = Some u'
                   /\ (status u' = status u
                       \/ status u' = next_status (status u)))
  /\ (exists k, forall i, i <> k ->
        processing_units s' !! i = processing_units s !! i).
Proof.
  intros Hexec Hstep.
  destruct (exec_ring _ _ _ (constructor_ring params) Hexec) as (Hinv & _).
  destruct (step_ring _ _ _ Hinv Hstep) as (_ & _ & _ & _ & Hcycle & Hone).
  split; [intros []; auto |].
  split; [| split; assumption].
  intros i u Hu. cbn in Hu. apply lookup_replicate in Hu as [-> _]. reflexivity.
Qed.

Lemma status_follows_cycle_witness :
  let s0 := constructor (mkParams (bracket_formatter true) 4) in
  let s := state_after s0 (take 3 scenario) in
  let s' := state_after s [LFormatter 2] in
  status <$> processing_units s
  = [READY_TO_FORMAT; READY_TO_FORMAT; READY_TO_FORMAT; READY_TO_INSERT;
     READY_TO_INSERT; READY_TO_INSERT]
  /\ status <$> processing_units s'
     = [READY_TO_FORMAT; READY_TO_FORMAT; READY_TO_READ; READY_TO_INSERT;
        READY_TO_INSERT; READY_TO_INSERT]
  /\ (forall i u, processing_units s !! i = Some u ->
        exists u', processing_units s' !! i = Some u'
                   /\ (status u' = status u
                       \/ status u' = next_status (status u))).
Proof.
  intros s0 s s'.
  split; [vm_compute; reflexivity |]. split; [vm_compute; reflexivity |].
  apply (status_follows_cycle (mkParams (bracket_formatter true) 4)
           (take 3 scenario) s (LFormatter 2) s').
  - apply run_exec. vm_compute. reflexivity.
  - vm_compute. reflexivity.
Defined.

(** ** Totals and extremes (C3) *)







(** ** Order preservation (C1) *)




















(** ** More on the member functions of the header *)

Lemma step_totals (s : State) (l : Label) (s' : State) :
  step s l s' ->
  (save_totals_and_extremes_in_statistics s = true ->
   are_totals_written s' = are_totals_written s)
  /\ (save_totals_and_extremes_in_statistics s = false ->
      totals (statistics s') = totals (statistics s)
      /\ extremes (statistics s') = extremes (statistics s))
  /\ (are_totals_written s' = true ->
      are_totals_written s = true
      \/ exists totals_, l = LCaller (OpConsumeTotals totals_)).
Proof.
  intros Hstep. destruct l as [op | job | | pe oe].
  - destruct op; step_cases Hstep.
    all: repeat split; intros; try congruence; eauto.
  - step_cases Hstep; repeat split; intros; try congruence; eauto.
  - step_cases Hstep; repeat split; intros; try congruence; eauto.
  - step_cases Hstep; repeat split; intros; try congruence; eauto.
Qed.

(** Totals and extremes go one way only.  In every execution from the
    constructor: if the inner formatter uses them in finalize,
    [are_totals_written] is never set; if it does not, the totals and
    extremes of [statistics] are never written; and [are_totals_written] is
    set only after a call of [consumeTotals]. *)
Theorem totals_stored_or_written (params : Params) (tr : list Label)
    (s : State) :
  exec (constructor params) tr s ->
  (save_totals_and_extremes_in_statistics s = true ->
   are_totals_written s = false)
  /\ (save_totals_and_extremes_in_statistics s = false ->
      totals (statistics s) = empty_chunk
      /\ extremes (statistics s) = empty_chunk)
  /\ (are_totals_written s = true ->
      exists totals_, In (OpConsumeTotals totals_) (caller_ops tr)).
Proof.
  induction 1 as [| tr s1 l s2 Hexec IH Hstep].
  - cbn. repeat split; intros; congruence.
  - pose proof (step_sticky _ _ _ Hstep) as (_ & _ & _ & Hsave & _).
    destruct (step_totals _ _ _ Hstep) as (Hw & Hs & Hc).
    destruct IH as (IHw & IHs & IHc).
    rewrite Hsave. split; [| split].
    + intros Ht. rewrite Hw by exact Ht. now apply IHw.
    + intros Hf. destruct (Hs Hf) as [-> ->]. now apply IHs.
    + intros Ht. rewrite caller_ops_snoc.
      destruct (Hc Ht) as [Hold | [totals_ ->]].
      * destruct (IHc Hold) as [totals_ Hin]. exists totals_.
        apply List.in_or_app. now left.
      * exists totals_. apply List.in_or_app. right. now left.
Qed.

Lemma totals_stored_or_written_witness :
  let s := state_after (constructor (mkParams (bracket_formatter true) 4))
             scenario in
  totals (statistics s) = chunk_T /\ are_totals_written s = false.
Proof.
  assert (Hexec : exec (constructor (mkParams (bracket_formatter true) 4))
                    scenario
                    (state_after (constructor (mkParams (bracket_formatter true) 4))
                       scenario)).
  { apply run_exec. vm_compute. reflexivity. }
  split; [vm_compute; reflexivity |].
  apply (proj1 (totals_stored_or_written _ _ _ Hexec)).
  vm_compute. reflexivity.
Defined.






Lemma stores_guarded_app (held : bool) (evs evs' : list Event) :
  stores_guarded held (evs ++ evs')
  = match stores_guarded held evs with
    | Some held' => stores_guarded held' evs'
    | None => None
    end.
Proof.
  revert held. induction evs as [| ev evs IH]; intros held; [reflexivity |].
  destruct ev as [m | m | | | | |]; try destruct m; destruct held; cbn;
    auto.
Qed.

Lemma step_stores_guarded (s : State) (l : Label) (s' : State) :
  step s l s' ->
  exists evs, events s' = events s ++ evs
              /\ stores_guarded false evs = Some false.
Proof.
  intros Hstep. destruct l as [op | job | | pe oe].
  - destruct op; step_cases Hstep.
    all: rewrite <- ?app_assoc; cbn.
    all: first [ eexists; split; [reflexivity |]; reflexivity
               | exists []; split; [now rewrite app_nil_r | reflexivity] ].
  - step_cases Hstep.
    all: rewrite <- ?app_assoc; cbn.
    all: first [ eexists; split; [reflexivity |]; reflexivity
               | exists []; split; [now rewrite app_nil_r | reflexivity] ].
  - step_cases Hstep.
    all: rewrite <- ?app_assoc; cbn.
    all: first [ eexists; split; [reflexivity |]; reflexivity
               | exists []; split; [now rewrite app_nil_r | reflexivity] ].
  - step_cases Hstep. exists []. split; [now rewrite app_nil_r | reflexivity].
Qed.

(** No store to [statistics] is unguarded.  In the log of every execution
    from the constructor, each store to [statistics] lies between a lock
    and the next unlock of [statistics_mutex], the mutex is never locked
    while held, and it is free after every step: the setters, the routing
    of totals and extremes and the copy made for [FINALIZE] release what
    they lock, on return as on throw. *)
Theorem statistics_stores_guarded (params : Params) (tr : list Label)
    (s : State) :
  exec (constructor params) tr s ->
  stores_guarded false (events s) = Some false.
Proof.
  induction 1 as [| tr s1 l s2 _ IH Hstep]; [reflexivity |].
  destruct (step_stores_guarded _ _ _ Hstep) as (evs & -> & Hevs).
  now rewrite stores_guarded_app, IH.
Qed.

Lemma statistics_stores_guarded_witness :
  stores_guarded false
    (events (state_after (constructor (mkParams (bracket_formatter true) 4))
               scenario))
  = Some false.
Proof.
  apply (statistics_stores_guarded (mkParams (bracket_formatter true) 4)
           scenario).
  apply run_exec. vm_compute. reflexivity.
Defined.
End ParallelFormattingProofs.

(** * Properties of the access storage on disk *)
Module DiskAccessStorageProofs.
Import DiskAccessStorage.

Local Open Scope nat_scope.
Local Open Scope storage_scope.

(** ** Strings *)

Lemma append_cons (x : ascii) (a b : string) :
  String x a +:+ b = String x (a +:+ b).
Proof. reflexivity. Qed.

Lemma append_nil (b : string) : "" +:+ b = b.
Proof. reflexivity. Qed.

Lemma append_assoc (a b c : string) : (a +:+ b) +:+ c = a +:+ (b +:+ c).
Proof.
  induction a as [| x a IH]; [reflexivity |].
  now rewrite !append_cons, IH.
Qed.

Lemma append_nonempty (a : string) (c : ascii) (b : string) :
  a +:+ String c b <> ""%string.
Proof. destruct a; discriminate. Qed.

Lemma append_last_char (a b : string) (c d : ascii) :
  a +:+ String c "" = b +:+ String d "" -> c = d.
Proof.
  revert b. induction a as [| x a IH]; intros [| y b];
    rewrite ?append_cons, ?append_nil; intros H.
  - now injection H.
  - injection H as _ H. symmetry in H. now apply append_nonempty in H.
  - injection H as _ H. now apply append_nonempty in H.
  - injection H as _ H. now apply IH in H.
Qed.

(** ** Paths *)

Lemma paths_differ (ext : Externals) (dir1 dir2 dir3 : string)
    (id : UUID) (type : AccessEntityType) :
  getEntityFilePath ext dir1 id <> getListFilePath ext dir2 type
  /\ getEntityFilePath ext dir1 id <> getNeedRebuildListsMarkFilePath dir3
  /\ getListFilePath ext dir2 type <> getNeedRebuildListsMarkFilePath dir3.
Proof.
  unfold getEntityFilePath, getListFilePath, getNeedRebuildListsMarkFilePath.
  change ".sql"%string with (".sq" +:+ "l")%string.
  change ".list"%string with (".lis" +:+ "t")%string.
  change "need_rebuild_lists.mark"%string
    with ("need_rebuild_lists.mar" +:+ "k")%string.
  rewrite <- !append_assoc.
  split; [| split]; intros H; apply append_last_char in H; discriminate.
Qed.

(** An entity file, a list file and the mark file never have the same
    path, whatever the directories, the id and the type (the three names
    end in [.sql], [.list] and [.mark]): writing or removing one of them
    never touches another. *)
Theorem paths_never_collide (ext : Externals) (dir1 dir2 dir3 : string)
    (id : UUID) (type : AccessEntityType) :
  getEntityFilePath ext dir1 id <> getListFilePath ext dir2 type
  /\ getEntityFilePath ext dir1 id <> getNeedRebuildListsMarkFilePath dir3
  /\ getListFilePath ext dir2 type <> getNeedRebuildListsMarkFilePath dir3.
Proof. apply paths_differ. Qed.

(** ** List files *)

Lemma read_written_pairs (ext : Externals)
    (id_name_pairs : list (UUID * string)) :
  readers_invert_writers ext ->
  read_id_name_pairs ext (length id_name_pairs)
    (write_id_name_pairs ext id_name_pairs)
  = Some id_name_pairs.
Proof.
  intros (_ & Hname & Hid).
  induction id_name_pairs as [| [id name] rest IH]; [reflexivity |].
  cbn [length read_id_name_pairs write_id_name_pairs].
  now rewrite Hname, Hid, IH.
Qed.

Lemma parse_rendered_list (ext : Externals)
    (id_name_pairs : list (UUID * string)) :
  readers_invert_writers ext ->
  parse_list ext (render_list ext id_name_pairs) = Some id_name_pairs.
Proof.
  intros Hext. unfold parse_list, render_list.
  destruct Hext as (Hnum & Hrest). rewrite Hnum, Nat2N.id.
  apply read_written_pairs. now split.
Qed.

(** What [writeListFile] wrote, [readListFile] reads back: the same pairs
    of id and name in the same order, provided each reading primitive
    inverts its writing primitive and the file system does not fail. *)
Theorem list_file_round_trip (ext : Externals) (file_path : string)
    (id_name_pairs : list (UUID * string)) (s : State) :
  readers_invert_writers ext ->
  write_fails (faults s) file_path = WritesAll ->
  read_fails (faults s) file_path = false ->
  exists s',
    writeListFile ext file_path id_name_pairs s = (Returned tt, s')
    /\ readListFile ext file_path s' = (Returned id_name_pairs, s').
Proof.
  intros Hext Hwrite Hread. eexists.
  unfold writeListFile, write_file. rewrite Hwrite. split; [reflexivity |].
  unfold readListFile, read_file, bind. cbn.
  rewrite Hread, lookup_insert_eq, parse_rendered_list by exact Hext.
  reflexivity.
Qed.

Lemma read_write_unary (n : nat) (rest : string) :
  read_unary (write_unary n +:+ rest) = Some (n, rest).
Proof.
  induction n as [| n IH]; [reflexivity |].
  cbn [write_unary]. rewrite append_cons. cbn [read_unary]. now rewrite IH.
Qed.

Lemma split_string_append (text rest : string) :
  split_string (String.length text) (text +:+ rest) = Some (text, rest).
Proof.
  induction text as [| c text IH]; [reflexivity |].
  rewrite append_cons. cbn [String.length split_string]. now rewrite IH.
Qed.

Lemma simple_externals_invert : readers_invert_writers simple_externals.
Proof.
  split; [| split]; cbn.
  - intros n rest. unfold read_number, write_number.
    now rewrite read_write_unary, N2Nat.id.
  - intros text rest. unfold read_string, write_string.
    now rewrite append_assoc, read_write_unary, split_string_append.
  - intros id rest. unfold read_number, write_number.
    now rewrite read_write_unary, N2Nat.id.
Qed.

Lemma list_file_round_trip_witness :
  exists s',
    writeListFile simple_externals "/access/users.list"
      [(1%N, "alice"%string); (3%N, "bob"%string)] empty_storage
    = (Returned tt, s')
    /\ readListFile simple_externals "/access/users.list" s'
       = (Returned [(1%N, "alice"%string); (3%N, "bob"%string)], s').
Proof.
  apply (list_file_round_trip simple_externals);
    [exact simple_externals_invert | reflexivity | reflexivity].
Defined.

(** ** Entity files *)

(** [writeEntityFile] replaces the file or leaves it alone.  Provided the
    temporary path differs from the path: when the call returns, the file
    holds the serialized entity; when it throws, wherever the failure, the
    file is as it was; in both cases no temporary file is left, no other
    file is touched and nothing in memory changes. *)
Theorem writeEntityFile_all_or_nothing (ext : Externals) (file_path : string)
    (entity : AccessEntity) (s : State) :
  replace_extension ext file_path ".tmp" <> file_path ->
  let tmp_file_path := replace_extension ext file_path ".tmp" in
  let result := writeEntityFile ext file_path entity s in
  match result.1 with
  | Returned _ =>
      disk result.2 !! file_path = Some (serializeAccessEntity ext entity)
  | Thrown _ => disk result.2 !! file_path = disk s !! file_path
  | Undefined => False
  end
  /\ disk result.2 !! tmp_file_path = None
  /\ (forall other, other <> file_path -> other <> tmp_file_path ->
        disk result.2 !! other = disk s !! other)
  /\ same_memory s result.2.
Proof.
  intros Htmp. cbn zeta.
  unfold writeEntityFile, write_file, rename_file, remove_file, bind, same_memory.
  set (tmp := replace_extension ext file_path ".tmp") in *.
  destruct (write_fails (faults s) tmp) eqn:Hwrite; cbn.
  - destruct (rename_fails (faults s) tmp file_path) eqn:Hrename; cbn.
    + rewrite lookup_delete_eq, lookup_delete_ne, lookup_insert_ne by congruence.
      repeat split; try reflexivity.
      intros other H1 H2.
      now rewrite lookup_delete_ne, lookup_insert_ne by congruence.
    + rewrite lookup_insert_eq. cbn.
      rewrite lookup_insert_eq, lookup_insert_ne, lookup_delete_eq by congruence.
      repeat split; try reflexivity.
      intros other H1 H2.
      now rewrite lookup_insert_ne, lookup_delete_ne, lookup_insert_ne
        by congruence.
  - rewrite lookup_delete_eq, lookup_delete_ne by congruence.
    repeat split; try reflexivity.
    intros other H1 H2. now rewrite lookup_delete_ne by congruence.
  - rewrite lookup_delete_eq, lookup_delete_ne, lookup_insert_ne by congruence.
    repeat split; try reflexivity.
    intros other H1 H2.
    now rewrite lookup_delete_ne, lookup_insert_ne by congruence.
Qed.

Lemma writeEntityFile_all_or_nothing_witness :
  disk (writeEntityFile simple_externals "/access/10.sql" bob small_storage).2
  !! "/access/10.sql"%string
  = Some (write_entity bob).
Proof.
  assert (Htmp : replace_extension simple_externals "/access/10.sql" ".tmp"
                 <> "/access/10.sql"%string) by discriminate.
  exact (proj1 (writeEntityFile_all_or_nothing simple_externals
                  "/access/10.sql" bob small_storage Htmp)).
Defined.

(** ** The index *)

Lemma with_names_same (names : AccessEntityType -> gmap string UUID)
    (type : AccessEntityType) (m : gmap string UUID) :
  with_names names type m type = m.
Proof. unfold with_names. now rewrite decide_True. Qed.

Lemma with_names_other (names : AccessEntityType -> gmap string UUID)
    (type type' : AccessEntityType) (m : gmap string UUID) :
  type' <> type -> with_names names type m type' = names type'.
Proof. intros H. unfold with_names. now rewrite decide_False. Qed.

Lemma index_ok_maps_ext (entries : gmap UUID Entry)
    (names names' : AccessEntityType -> gmap string UUID) :
  (forall type, names' type = names type) ->
  index_ok_maps entries names -> index_ok_maps entries names'.
Proof.
  intros Hext [H1 H2]. split.
  - intros id entry Hin. rewrite Hext. now apply H1.
  - intros type name pointer. rewrite Hext. apply H2.
Qed.

Lemma index_ok_empty : index_ok_maps ∅ (fun _ => ∅).
Proof.
  split.
  - intros id entry H. now rewrite lookup_empty in H.
  - intros type name pointer H. now rewrite lookup_empty in H.
Qed.

(** Erasing an entry and its name. *)
Lemma index_ok_erase (entries : gmap UUID Entry)
    (names : AccessEntityType -> gmap string UUID) (id : UUID) (entry : Entry) :
  index_ok_maps entries names -> entries !! id = Some entry ->
  index_ok_maps (delete id entries)
    (with_names names (entry_type entry)
       (delete (entry_name entry) (names (entry_type entry)))).
Proof.
  intros [H1 H2] Hin. split.
  - intros id' entry' Hin'. apply lookup_delete_Some in Hin' as [Hne Hin'].
    destruct (H1 _ _ Hin') as [Hid Hname]. split; [exact Hid |].
    unfold with_names. case_decide as Htype; [| exact Hname].
    rewrite lookup_delete_ne; [now rewrite <- Htype |].
    intros Heq. destruct (H1 _ _ Hin) as [_ Hname0].
    rewrite Htype, <- Heq, Hname0 in Hname. congruence.
  - intros type name pointer. unfold with_names.
    case_decide as Htype.
    + subst type. intros Hl. apply lookup_delete_Some in Hl as [Hne Hl].
      destruct (H2 _ _ _ Hl) as (entry' & Hin' & Ht & Hn).
      exists entry'. split; [| now split].
      rewrite lookup_delete_ne; [exact Hin' |].
      intros <-. congruence.
    + intros Hl. destruct (H2 _ _ _ Hl) as (entry' & Hin' & Ht & Hn).
      exists entry'. split; [| now split].
      rewrite lookup_delete_ne; [exact Hin' |].
      intros <-. congruence.
Qed.

(** A new entry under a free id and a free name. *)
Lemma index_ok_insert (entries : gmap UUID Entry)
    (names : AccessEntityType -> gmap string UUID) (id : UUID) (name : string)
    (type : AccessEntityType) (entity : option AccessEntity) :
  index_ok_maps entries names ->
  entries !! id = None -> names type !! name = None ->
  index_ok_maps (<[id := mkEntry id name type entity]> entries)
    (with_names names type (<[name := id]> (names type))).
Proof.
  intros [H1 H2] Hfree Hname. split.
  - intros id' entry' Hin'. apply lookup_insert_Some in Hin' as [[<- <-] | [Hne Hin']].
    + cbn. split; [reflexivity |].
      now rewrite with_names_same, lookup_insert_eq.
    + destruct (H1 _ _ Hin') as [Hid Hn]. split; [exact Hid |].
      unfold with_names. case_decide as Htype; [| exact Hn].
      rewrite lookup_insert_ne; [now rewrite <- Htype |].
      intros Heq. rewrite Htype, <- Heq in Hn. congruence.
  - intros type' name' pointer. unfold with_names.
    case_decide as Htype.
    + subst type'. intros Hl.
      apply lookup_insert_Some in Hl as [[<- <-] | [Hne Hl]].
      * eexists. rewrite lookup_insert_eq. now repeat split.
      * destruct (H2 _ _ _ Hl) as (entry' & Hin' & Ht & Hn).
        exists entry'. split; [| now split].
        rewrite lookup_insert_ne; [exact Hin' | congruence].
    + intros Hl. destruct (H2 _ _ _ Hl) as (entry' & Hin' & Ht & Hn).
      exists entry'. split; [| now split].
      rewrite lookup_insert_ne; [exact Hin' | congruence].
Qed.

(** Another entity in an entry. *)
Lemma index_ok_entity (entries : gmap UUID Entry)
    (names : AccessEntityType -> gmap string UUID) (id : UUID) (entry : Entry)
    (entity : option AccessEntity) :
  index_ok_maps entries names -> entries !! id = Some entry ->
  index_ok_maps
    (<[id := mkEntry (entry_id entry) (entry_name entry) (entry_type entry)
               entity]> entries)
    names.
Proof.
  intros [H1 H2] Hin. split.
  - intros id' entry' Hin'.
    apply lookup_insert_Some in Hin' as [[<- <-] | [Hne Hin']]; [| now apply H1].
    cbn. now apply H1.
  - intros type name pointer Hl.
    destruct (H2 _ _ _ Hl) as (entry' & Hin' & Ht & Hn).
    destruct (decide (pointer = id)) as [-> | Hne].
    + eexists. rewrite lookup_insert_eq. split; [reflexivity |].
      cbn. split; congruence.
    + exists entry'. now rewrite lookup_insert_ne by congruence.
Qed.

(** Another name for an entry, free so far. *)
Lemma index_ok_rename (entries : gmap UUID Entry)
    (names : AccessEntityType -> gmap string UUID) (id : UUID) (entry : Entry)
    (new_name : string) (entity : option AccessEntity) :
  index_ok_maps entries names -> entries !! id = Some entry ->
  names (entry_type entry) !! new_name = None ->
  index_ok_maps
    (<[id := mkEntry (entry_id entry) new_name (entry_type entry) entity]>
       entries)
    (with_names names (entry_type entry)
       (<[new_name := id]>
          (delete (entry_name entry) (names (entry_type entry))))).
Proof.
  intros Hok Hin Hfree.
  pose proof (index_ok_erase _ _ _ _ Hok Hin) as Herased.
  destruct Hok as [H1 _]. destruct (H1 _ _ Hin) as [Hid _].
  pose proof (index_ok_insert _ _ id new_name (entry_type entry) entity Herased)
    as Hins.
  rewrite insert_delete_eq in Hins. rewrite Hid.
  eapply index_ok_maps_ext; [| apply Hins].
  - intros type. unfold with_names.
    case_decide; [| reflexivity]. now rewrite decide_True.
  - apply lookup_delete_eq.
  - rewrite with_names_same.
    destruct (decide (new_name = entry_name entry)) as [-> | Hne].
    + apply lookup_delete_eq.
    + now rewrite lookup_delete_ne.
Qed.

(** ** What the calls on the disk leave alone *)

Lemma same_memory_refl (s : State) : same_memory s s.
Proof. now repeat split. Qed.

Lemma same_memory_trans (s1 s2 s3 : State) :
  same_memory s1 s2 -> same_memory s2 s3 -> same_memory s1 s3.
Proof.
  intros (A1 & A2 & A3 & A4 & A5) (B1 & B2 & B3 & B4 & B5).
  repeat split; congruence.
Qed.

Lemma same_memory_index (s s' : State) :
  same_memory s s' -> index_ok s -> index_ok s'.
Proof. intros (H1 & H2 & _). unfold index_ok. now rewrite H1, H2. Qed.

Lemma scheduleWriteLists_returns (type : AccessEntityType) (s : State) :
  exists s', scheduleWriteLists type s = (Returned tt, s')
             /\ same_memory s s'.
Proof.
  unfold scheduleWriteLists, create_empty_file, when, emit, bind, modify, ret.
  destruct (failed_to_write_lists s); [eexists; split; [reflexivity | apply same_memory_refl] |].
  cbn. destruct (lists_writing_thread_is_waiting s);
    [eexists; split; [reflexivity | now repeat split] |].
  destruct (lists_writing_thread s); cbn;
    destruct (ofstream_fails _ _); cbn;
    eexists; (split; [reflexivity | now repeat split]).
Qed.

Lemma writeAccessEntityToDisk_ends (ext : Externals) (id : UUID)
    (entity : AccessEntity) (s : State) :
  exists r s', writeAccessEntityToDisk ext id entity s = (r, s')
               /\ r <> Undefined /\ same_memory s s'.
Proof.
  unfold writeAccessEntityToDisk, writeEntityFile, write_file, rename_file,
    remove_file, bind.
  destruct (write_fails _ _); cbn.
  - destruct (rename_fails _ _ _); cbn.
    + do 2 eexists. split; [reflexivity |]. split; [discriminate | now repeat split].
    + rewrite lookup_insert_eq. cbn.
      do 2 eexists. split; [reflexivity |]. split; [discriminate | now repeat split].
  - do 2 eexists. split; [reflexivity |]. split; [discriminate | now repeat split].
  - do 2 eexists. split; [reflexivity |]. split; [discriminate | now repeat split].
Qed.

Lemma deleteAccessEntityOnDisk_ends (ext : Externals) (id : UUID) (s : State) :
  exists r s', deleteAccessEntityOnDisk ext id s = (r, s')
               /\ r <> Undefined /\ same_memory s s'.
Proof.
  unfold deleteAccessEntityOnDisk, remove_file, bind, ret, throw. cbn.
  case_bool_decide; do 2 eexists;
    (split; [reflexivity |]); (split; [discriminate | now repeat split]).
Qed.

Lemma readAccessEntityFromDisk_reads (ext : Externals) (id : UUID) (s : State) :
  exists r, readAccessEntityFromDisk ext id s = (r, s) /\ r <> Undefined.
Proof.
  unfold readAccessEntityFromDisk, readEntityFile, read_file, bind, ret, throw.
  destruct (read_fails _ _); [eexists; split; [reflexivity | discriminate] |].
  destruct (disk s !! _); [| eexists; split; [reflexivity | discriminate]].
  destruct (deserializeAccessEntity _ _);
    eexists; (split; [reflexivity | discriminate]).
Qed.

(** ** [removeNoLock] *)

(** What [removeNoLock] does to the two maps: either it returns [true] and
    the entry and its name are erased, or it ends otherwise and nothing in
    memory has changed. *)
Lemma removeNoLock_effect (ext : Externals) (id : UUID)
    (throw_if_not_exists write_on_disk : bool) (s : State) :
  exists r s',
    removeNoLock ext id throw_if_not_exists write_on_disk s = (r, s')
    /\ readonly s' = readonly s
    /\ directory_path s' = directory_path s
    /\ ((r = Returned true
         /\ readonly s = false
         /\ exists entry,
              entries_by_id s !! id = Some entry
              /\ entries_by_id s' = delete id (entries_by_id s)
              /\ entries_by_name_and_type s'
                 = with_names (entries_by_name_and_type s) (entry_type entry)
                     (delete (entry_name entry)
                        (entries_by_name_and_type s (entry_type entry))))
        \/ (r <> Returned true /\ r <> Undefined /\ same_memory s s'
            /\ (r = Returned false ->
                entries_by_id s !! id = None
                /\ throw_if_not_exists = false)
            /\ (entries_by_id s !! id = None ->
                r = if throw_if_not_exists then Thrown (NotFound id)
                    else Returned false)
            /\ (forall entry, entries_by_id s !! id = Some entry ->
                readonly s = true ->
                r = Thrown (ReadonlyCannotRemove (entry_type entry)
                              (entry_name entry))))).
Proof.
  unfold removeNoLock.
  destruct (entries_by_id s !! id) as [entry |] eqn:Hin.
  - destruct (readonly s) eqn:Hro.
    + do 2 eexists. split; [reflexivity |].
      split; [exact Hro |]. split; [reflexivity |].
      right. split; [discriminate |]. split; [discriminate |].
      split; [repeat split; exact Hro |].
      split; [discriminate |]. split; [discriminate |].
      intros ? [= <-] _. reflexivity.
    + destruct write_on_disk; unfold when, bind.
      * destruct (scheduleWriteLists_returns (entry_type entry) s)
          as (s1 & -> & Hm1).
        destruct (deleteAccessEntityOnDisk_ends ext id s1)
          as (r & s2 & -> & Hr & Hm2).
        pose proof (same_memory_trans _ _ _ Hm1 Hm2) as (E1 & E2 & E3 & E4 & E5).
        destruct r as [[] | e |]; [| | congruence].
        -- cbn. do 2 eexists. split; [reflexivity |]. cbn.
           split; [congruence |]. split; [congruence |].
           left. split; [reflexivity |]. split; [reflexivity |].
           exists entry. split; [reflexivity |].
           unfold entries_by_name. now rewrite E1, E2.
        -- do 2 eexists. split; [reflexivity |]. cbn.
           split; [congruence |]. split; [congruence |].
           right. split; [discriminate |]. split; [discriminate |].
           split; [now repeat split |].
           split; [discriminate |]. split; [discriminate |]. congruence.
      * cbn. do 2 eexists. split; [reflexivity |]. cbn.
        split; [exact Hro |]. split; [reflexivity |].
        left. split; [reflexivity |]. split; [reflexivity |].
        exists entry. now repeat split.
  - destruct throw_if_not_exists; do 2 eexists;
      (split; [reflexivity |]); do 2 (split; [reflexivity |]);
      right; (split; [discriminate |]); (split; [discriminate |]);
      (split; [apply same_memory_refl |]);
      (split; [try discriminate; now intros _ |]);
      (split; [reflexivity | discriminate]).
Qed.

(** [removeNoLock] keeps the two maps in step.  From a state where they
    describe the same entries, whatever the arguments and whatever the disk
    answers, the call leaves them describing the same entries: either it
    returns [true] and exactly the entry of [id] and its name are gone, or
    it returns [false] or throws and nothing in memory has changed (a
    failure to delete the file leaves the entry in place). *)
Theorem removeNoLock_keeps_index (ext : Externals) (id : UUID)
    (throw_if_not_exists write_on_disk : bool) (s : State) :
  index_ok s ->
  let result := removeNoLock ext id throw_if_not_exists write_on_disk s in
  index_ok result.2
  /\ match result.1 with
     | Returned true =>
         exists entry,
           entries_by_id s !! id = Some entry
           /\ entries_by_id result.2 = delete id (entries_by_id s)
           /\ (forall type name,
                 entries_by_name result.2 type !! name
                 = if decide (type = entry_type entry
                              /\ name = entry_name entry)
                   then None else entries_by_name s type !! name)
     | Returned false =>
         entries_by_id s !! id = None /\ same_memory s result.2
     | Thrown _ => same_memory s result.2
     | Undefined => False
     end.
Proof.
  intros Hok. cbn zeta.
  destruct (removeNoLock_effect ext id throw_if_not_exists write_on_disk s)
    as (r & s' & -> & _ & _ & Heffect). cbn.
  destruct Heffect as [(-> & _ & entry & Hin & He & Hn)
                      | (Hr1 & Hr2 & Hmem & Hfalse & _)].
  - split.
    + unfold index_ok. rewrite He, Hn. now apply index_ok_erase.
    + exists entry. split; [exact Hin |]. split; [exact He |].
      intros type name. unfold entries_by_name. rewrite Hn. unfold with_names.
      case_decide as Htype.
      * subst type. case_decide as Hname.
        -- destruct Hname as [_ ->]. apply lookup_delete_eq.
        -- rewrite lookup_delete_ne; [reflexivity |]. intros Heq. now apply Hname.
      * rewrite decide_False; [reflexivity |]. now intros [? _].
  - split; [now apply (same_memory_index s) |].
    destruct r as [[] | e |]; try congruence.
    split; [now apply Hfalse | exact Hmem].
Qed.

Lemma small_storage_state :
  map_to_list (entries_by_id small_storage)
  = [(2%N, mkEntry 2%N "admin" 1 (Some admin));
     (1%N, mkEntry 1%N "alice" 0 (Some alice))]
  /\ entries_by_name small_storage 0 !! "alice"%string = Some 1%N
  /\ entries_by_name small_storage 1 !! "admin"%string = Some 2%N.
Proof. split; [| split]; vm_compute; reflexivity. Qed.

(** ** [insertNoLock] *)

(** The end of [insertNoLock]: the entry is stored and its name points to
    it, unless writing the file failed. *)
Lemma insertNoLock_insertion_effect (ext : Externals) (id : UUID)
    (new_entity : AccessEntity) (write_on_disk : bool) (s : State) :
  exists r s',
    insertNoLock_insertion ext id new_entity write_on_disk s = (r, s')
    /\ readonly s' = readonly s
    /\ directory_path s' = directory_path s
    /\ ((r = Returned tt
         /\ entries_by_id s'
            = <[id := mkEntry id (getName new_entity) (getType new_entity)
                        (Some new_entity)]> (entries_by_id s)
         /\ entries_by_name_and_type s'
            = with_names (entries_by_name_and_type s) (getType new_entity)
                (<[getName new_entity := id]>
                   (entries_by_name_and_type s (getType new_entity))))
        \/ ((exists e, r = Thrown e) /\ same_memory s s')).
Proof.
  unfold insertNoLock_insertion, when, bind.
  destruct write_on_disk.
  - destruct (writeAccessEntityToDisk_ends ext id new_entity s)
      as (r & s1 & -> & Hr & (E1 & E2 & E3 & E4 & E5)).
    destruct r as [[] | e |]; [| | congruence].
    + cbn. do 2 eexists. split; [reflexivity |]. cbn.
      split; [exact E3 |]. split; [exact E4 |]. left.
      split; [reflexivity |]. unfold entries_by_name. now rewrite E1, E2.
    + do 2 eexists. split; [reflexivity |].
      split; [exact E3 |]. split; [exact E4 |]. right.
      split; [now exists e | now repeat split].
  - cbn. do 2 eexists. split; [reflexivity |]. cbn.
    do 2 (split; [reflexivity |]). left. now repeat split.
Qed.

(** [entries_by_name.emplace(name, pointer)]. *)
Lemma emplace_free (names : gmap string UUID) (name : string) (pointer : UUID) :
  names !! name = None ->
  match names !! name with
  | Some _ => names
  | None => <[name := pointer]> names
  end = <[name := pointer]> names.
Proof. now intros ->. Qed.

(** The branch of [insertNoLock] for an id that is taken. *)
Lemma insertNoLock_id_collision_effect (ext : Externals) (id : UUID)
    (new_entity : AccessEntity) (write_on_disk : bool) (s : State)
    (entry : Entry) :
  entries_by_id s !! id = Some entry ->
  exists r s',
    insertNoLock_id_collision ext id new_entity write_on_disk s = (r, s')
    /\ readonly s' = readonly s
    /\ directory_path s' = directory_path s
    /\ (((exists e, r = Thrown e) /\ same_memory s s')
        \/ (r = Returned true
            /\ entry_type entry = getType new_entity
            /\ entry_entity entry = Some new_entity
            /\ s' = s)
        \/ (r = Returned true
            /\ entry_type entry = getType new_entity
            /\ entry_entity entry <> Some new_entity
            /\ entries_by_id s'
               = <[id := mkEntry (entry_id entry) (entry_name entry)
                           (entry_type entry) (Some new_entity)]>
                   (entries_by_id s)
            /\ ((entry_name entry = getName new_entity
                 /\ entries_by_name_and_type s' = entries_by_name_and_type s)
                \/ (entry_name entry <> getName new_entity
                    /\ entries_by_name_and_type s'
                       = let erased :=
                           with_names (entries_by_name_and_type s)
                             (getType new_entity)
                             (delete (entry_name entry)
                                (entries_by_name_and_type s
                                   (getType new_entity))) in
                         match erased (getType new_entity)
                               !! getName new_entity with
                         | Some _ => erased
                         | None =>
                             with_names erased (getType new_entity)
                               (<[getName new_entity := id]>
                                  (erased (getType new_entity)))
                         end)))
        \/ (r = Returned false
            /\ entry_type entry <> getType new_entity
            /\ readonly s = false
            /\ entries_by_id s' = delete id (entries_by_id s)
            /\ entries_by_name_and_type s'
               = with_names (entries_by_name_and_type s) (entry_type entry)
                   (delete (entry_name entry)
                      (entries_by_name_and_type s (entry_type entry))))).
Proof.
  intros Hin. unfold insertNoLock_id_collision, dereference. rewrite Hin.
  destruct (decide (entry_type entry = getType new_entity)) as [Htype | Htype].
  - unfold when at 1. case_bool_decide as Hentity; cbn [negb].
    + cbn. do 2 eexists. split; [reflexivity |]. do 2 (split; [reflexivity |]).
      right. left. now repeat split.
    + unfold bind at 1 2. unfold when at 1. destruct write_on_disk.
      * destruct (writeAccessEntityToDisk_ends ext id new_entity s)
          as (r & s1 & -> & Hr & (E1 & E2 & E3 & E4 & E5)).
        destruct r as [[] | e |]; [| | congruence].
        -- case_bool_decide as Hname; cbn.
           ++ do 2 eexists. split; [reflexivity |]. cbn.
              split; [exact E3 |]. split; [exact E4 |].
              right. right. left. split; [reflexivity |].
              split; [exact Htype |]. split; [exact Hentity |].
              rewrite E1. split; [reflexivity |]. left. now split.
           ++ unfold entries_by_name. cbn.
              destruct (with_names (entries_by_name_and_type s1)
                          (getType new_entity)
                          (delete (entry_name entry)
                             (entries_by_name_and_type s1 (getType new_entity)))
                          (getType new_entity) !! getName new_entity)
                eqn:Hemplace; cbn.
              ** do 2 eexists. split; [reflexivity |]. cbn.
                 split; [exact E3 |]. split; [exact E4 |].
                 right. right. left. split; [reflexivity |].
                 split; [exact Htype |]. split; [exact Hentity |].
                 rewrite E1. split; [reflexivity |]. right.
                 split; [exact Hname |]. cbn zeta.
                 rewrite <- E2, Hemplace. reflexivity.
              ** do 2 eexists. split; [reflexivity |]. cbn.
                 split; [exact E3 |]. split; [exact E4 |].
                 right. right. left. split; [reflexivity |].
                 split; [exact Htype |]. split; [exact Hentity |].
                 rewrite E1. split; [reflexivity |]. right.
                 split; [exact Hname |]. cbn zeta.
                 rewrite <- E2, Hemplace. reflexivity.
        -- do 2 eexists. split; [reflexivity |].
           split; [exact E3 |]. split; [exact E4 |]. left.
           split; [now exists e | now repeat split].
      * cbn. case_bool_decide as Hname; cbn.
        -- do 2 eexists. split; [reflexivity |]. cbn.
           do 2 (split; [reflexivity |]).
           right. right. left. split; [reflexivity |].
           split; [exact Htype |]. split; [exact Hentity |].
           split; [reflexivity |]. left. now split.
        -- unfold entries_by_name. cbn.
           destruct (with_names (entries_by_name_and_type s)
                       (getType new_entity)
                       (delete (entry_name entry)
                          (entries_by_name_and_type s (getType new_entity)))
                       (getType new_entity) !! getName new_entity)
             eqn:Hemplace; cbn.
           ++ do 2 eexists. split; [reflexivity |]. cbn.
              do 2 (split; [reflexivity |]).
              right. right. left. split; [reflexivity |].
              split; [exact Htype |]. split; [exact Hentity |].
              split; [reflexivity |]. right.
              split; [exact Hname |]. cbn zeta. rewrite ?Hemplace. reflexivity.
           ++ do 2 eexists. split; [reflexivity |]. cbn.
              do 2 (split; [reflexivity |]).
              right. right. left. split; [reflexivity |].
              split; [exact Htype |]. split; [exact Hentity |].
              split; [reflexivity |]. right.
              split; [exact Hname |]. cbn zeta. rewrite ?Hemplace. reflexivity.
  - unfold bind.
    destruct (removeNoLock_effect ext id false write_on_disk s)
      as (r & s1 & -> & Hro & Hdir & Heffect).
    destruct Heffect as [(-> & Hrw & entry' & Hin' & He & Hn)
                        | (Hr1 & Hr2 & Hmem & Hfalse & _)].
    + rewrite Hin in Hin'. injection Hin' as <-.
      do 2 eexists. split; [reflexivity |].
      split; [exact Hro |]. split; [exact Hdir |].
      right. right. right. now repeat split.
    + destruct r as [[] | e |]; try congruence.
      * destruct Hfalse as [Hnone _]; [reflexivity | congruence].
      * do 2 eexists. split; [reflexivity |].
        split; [exact Hro |]. split; [exact Hdir |].
        left. split; [now exists e | exact Hmem].
Qed.

Lemma index_step_erase (s s' : State) (id : UUID) (entry : Entry) :
  index_ok s -> entries_by_id s !! id = Some entry ->
  entries_by_id s' = delete id (entries_by_id s) ->
  entries_by_name_and_type s'
  = with_names (entries_by_name_and_type s) (entry_type entry)
      (delete (entry_name entry)
         (entries_by_name_and_type s (entry_type entry))) ->
  index_ok s'.
Proof.
  intros Hok Hin He Hn. unfold index_ok. rewrite He, Hn.
  now apply index_ok_erase.
Qed.

Lemma index_step_insert (s s' : State) (id : UUID) (name : string)
    (type : AccessEntityType) (entity : option AccessEntity) :
  index_ok s -> entries_by_id s !! id = None ->
  entries_by_name_and_type s type !! name = None ->
  entries_by_id s' = <[id := mkEntry id name type entity]> (entries_by_id s) ->
  entries_by_name_and_type s'
  = with_names (entries_by_name_and_type s) type
      (<[name := id]> (entries_by_name_and_type s type)) ->
  index_ok s'.
Proof.
  intros Hok Hfree Hname He Hn. unfold index_ok. rewrite He, Hn.
  now apply index_ok_insert.
Qed.

Lemma index_step_entity (s s' : State) (id : UUID) (entry : Entry)
    (entity : option AccessEntity) :
  index_ok s -> entries_by_id s !! id = Some entry ->
  entries_by_id s'
  = <[id := mkEntry (entry_id entry) (entry_name entry) (entry_type entry)
              entity]> (entries_by_id s) ->
  entries_by_name_and_type s' = entries_by_name_and_type s ->
  index_ok s'.
Proof.
  intros Hok Hin He Hn. unfold index_ok. rewrite He, Hn.
  now apply index_ok_entity.
Qed.

(** The last part of [insertNoLock], from the branch on the id on: with
    the name free or pointing to [id] itself, the maps stay in step. *)
Lemma insertNoLock_tail_index (ext : Externals) (id : UUID)
    (new_entity : AccessEntity) (write_on_disk id_collision : bool)
    (s : State) :
  index_ok s ->
  (forall entry, entries_by_id s !! id = Some entry ->
     entry_type entry = getType new_entity ->
     entry_name entry = getName new_entity) ->
  id_collision = bool_decide (is_Some (entries_by_id s !! id)) ->
  (entries_by_name s (getType new_entity) !! getName new_entity = None
   \/ entries_by_name s (getType new_entity) !! getName new_entity = Some id) ->
  exists r s',
    insertNoLock_tail ext id new_entity write_on_disk id_collision s = (r, s')
    /\ r <> Undefined
    /\ (forall conflicting_id, r <> Returned (false, conflicting_id))
    /\ readonly s' = readonly s
    /\ index_ok s'.
Proof.
  intros Hok Hsame -> Hname. unfold insertNoLock_tail. unfold bind at 1.
  destruct (entries_by_id s !! id) as [entry |] eqn:Hin.
  - rewrite bool_decide_true by eauto.
    destruct (insertNoLock_id_collision_effect ext id new_entity write_on_disk
                s entry Hin) as (r & s1 & -> & Hro & _ & Heffect).
    destruct Heffect
      as [([e ->] & Hmem)
         | [(-> & _ & _ & ->)
           | [(-> & Htype & _ & He & Hnames)
             | (-> & Htype & _ & He & Hn)]]].
    + do 2 eexists. split; [reflexivity |].
      split; [discriminate |]. split; [discriminate |].
      split; [exact Hro |]. now apply (same_memory_index s).
    + do 2 eexists. split; [reflexivity |].
      split; [discriminate |]. split; [discriminate |]. now split.
    + do 2 eexists. split; [reflexivity |].
      split; [discriminate |]. split; [discriminate |].
      split; [exact Hro |].
      destruct Hnames as [[_ Hn] | [Hne _]].
      * now apply (index_step_entity s s1 id entry (Some new_entity)).
      * now specialize (Hsame _ eq_refl Htype).
    + assert (Hok1 : index_ok s1) by now apply (index_step_erase s s1 id entry).
      assert (Hfree : entries_by_id s1 !! id = None)
        by (rewrite He; apply lookup_delete_eq).
      assert (Hname1 : entries_by_name_and_type s1 (getType new_entity)
                       !! getName new_entity = None).
      { rewrite Hn, with_names_other by congruence.
        destruct Hname as [Hnone | Hown]; [exact Hnone |].
        destruct Hok as [_ H2]. destruct (H2 _ _ _ Hown) as (entry' & Hin' & Ht & _).
        congruence. }
      unfold bind.
      destruct (insertNoLock_insertion_effect ext id new_entity write_on_disk s1)
        as (r & s2 & -> & Hro2 & _ & Heffect).
      destruct Heffect as [(-> & He2 & Hn2) | ([e ->] & Hmem)].
      * do 2 eexists. split; [reflexivity |].
        split; [discriminate |]. split; [discriminate |].
        split; [congruence |].
        now apply (index_step_insert s1 s2 id (getName new_entity)
                     (getType new_entity) (Some new_entity)).
      * do 2 eexists. split; [reflexivity |].
        split; [discriminate |]. split; [discriminate |].
        split; [congruence |]. now apply (same_memory_index s1).
  - rewrite bool_decide_false by (intros [? ?]; discriminate).
    cbn. unfold bind.
    assert (Hname1 : entries_by_name_and_type s (getType new_entity)
                     !! getName new_entity = None).
    { destruct Hname as [Hnone | Hown]; [exact Hnone |].
      destruct Hok as [_ H2]. destruct (H2 _ _ _ Hown) as (entry' & Hin' & _).
      congruence. }
    destruct (insertNoLock_insertion_effect ext id new_entity write_on_disk s)
      as (r & s2 & -> & Hro2 & _ & Heffect).
    destruct Heffect as [(-> & He2 & Hn2) | ([e ->] & Hmem)].
    + do 2 eexists. split; [reflexivity |].
      split; [discriminate |]. split; [discriminate |].
      split; [congruence |].
      now apply (index_step_insert s s2 id (getName new_entity)
                   (getType new_entity) (Some new_entity)).
    + do 2 eexists. split; [reflexivity |].
      split; [discriminate |]. split; [discriminate |].
      split; [congruence |]. now apply (same_memory_index s).
Qed.


(** Without [replace_if_exists], a name or an id that is taken ends the
    call at once: it throws or returns [false] with the id in the way, the
    holder of the name first, and writes nothing. *)
Lemma insertNoLock_conflict (ext : Externals) (id : UUID)
    (new_entity : AccessEntity) (throw_if_exists write_on_disk : bool)
    (s : State) :
  index_ok s -> readonly s = false ->
  let type := getType new_entity in
  let name := getName new_entity in
  (forall holder, entries_by_name s type !! name = Some holder ->
     insertNoLock ext id new_entity false throw_if_exists write_on_disk s
     = (if throw_if_exists then Thrown (NameCollisionCannotInsert type name)
        else Returned (false, Some holder), s))
  /\ (forall entry,
        entries_by_name s type !! name = None ->
        entries_by_id s !! id = Some entry ->
        insertNoLock ext id new_entity false throw_if_exists write_on_disk s
        = (if throw_if_exists then
             Thrown (IDCollisionCannotInsert id type name (entry_type entry)
                       (entry_name entry))
           else Returned (false, Some id), s)).
Proof.
  intros [H1 H2] Hro. cbn zeta. split.
  - intros pointer Hbyname.
    destruct (H2 _ _ _ Hbyname) as (holder & Hholder & _).
    destruct (H1 _ _ Hholder) as [Hid _].
    unfold insertNoLock. rewrite Hro, Hbyname.
    unfold bind at 1. unfold dereference. rewrite Hholder. cbn [ret].
    rewrite bool_decide_true by eauto. rewrite Hid. cbn [negb andb].
    now destruct throw_if_exists.
  - intros entry Hbyname Hin.
    unfold insertNoLock. rewrite Hro, Hbyname, Hin.
    unfold bind at 1. cbn [ret].
    rewrite bool_decide_false by (intros [? ?]; discriminate).
    rewrite bool_decide_true by eauto. cbn [negb andb].
    now destruct throw_if_exists.
Qed.

(** The first part of [insertNoLock] when it does not end at once: the
    holder of the name, if it is another entry, is removed, and the call
    goes on from there, unless the removal throws. *)
Lemma insertNoLock_head (ext : Externals) (id : UUID)
    (new_entity : AccessEntity)
    (replace_if_exists throw_if_exists write_on_disk : bool) (s : State) :
  index_ok s -> readonly s = false ->
  let type := getType new_entity in
  let name := getName new_entity in
  (replace_if_exists = true
   \/ (entries_by_name s type !! name = None /\ entries_by_id s !! id = None)) ->
  exists s2,
    readonly s2 = false
    /\ index_ok s2
    /\ entries_by_id s2 !! id = entries_by_id s !! id
    /\ ((same_memory s s2
         /\ (entries_by_name s type !! name = None
             \/ entries_by_name s type !! name = Some id)
         /\ insertNoLock ext id new_entity replace_if_exists throw_if_exists
              write_on_disk s
            = insertNoLock_tail ext id new_entity write_on_disk
                (bool_decide (is_Some (entries_by_id s !! id))) s2)
        \/ (exists pointer holder,
              pointer <> id
              /\ entries_by_name s type !! name = Some pointer
              /\ entries_by_id s !! pointer = Some holder
              /\ entry_type holder = type
              /\ entry_name holder = name
              /\ ((entries_by_id s2 = delete pointer (entries_by_id s)
                   /\ entries_by_name_and_type s2
                      = with_names (entries_by_name_and_type s) type
                          (delete name (entries_by_name_and_type s type))
                   /\ insertNoLock ext id new_entity replace_if_exists
                        throw_if_exists write_on_disk s
                      = insertNoLock_tail ext id new_entity write_on_disk
                          (bool_decide (is_Some (entries_by_id s !! id))) s2)
                  \/ (same_memory s s2
                      /\ exists e,
                           insertNoLock ext id new_entity replace_if_exists
                             throw_if_exists write_on_disk s
                           = (Thrown e, s2))))).
Proof.
  intros Hok Hro. cbn zeta. intros Hgo.
  assert (Hstart : exists s1, (if write_on_disk
                              then scheduleWriteLists (getType new_entity)
                              else ret tt) s = (Returned tt, s1)
                             /\ same_memory s s1).
  { destruct write_on_disk; [apply scheduleWriteLists_returns |].
    exists s. split; [reflexivity | apply same_memory_refl]. }
  destruct Hstart as (s1 & Hstart & Hm1).
  pose proof Hm1 as (E1 & E2 & E3 & _).
  pose proof (same_memory_index _ _ Hm1 Hok) as Hok1.
  set (call := insertNoLock ext id new_entity replace_if_exists
                 throw_if_exists write_on_disk s).
  assert (Hcall : call = insertNoLock ext id new_entity replace_if_exists
                           throw_if_exists write_on_disk s) by reflexivity.
  clearbody call. unfold insertNoLock in Hcall. rewrite Hro in Hcall.
  destruct (entries_by_name s (getType new_entity) !! getName new_entity)
    as [pointer |] eqn:Hbyname.
  - destruct Hgo as [-> | [? _]]; [| discriminate].
    pose proof Hok as [H1 H2].
    destruct (H2 _ _ _ Hbyname) as (holder & Hholder & Htype & Hname).
    destruct (H1 _ _ Hholder) as [Hid _].
    unfold bind at 1 in Hcall. unfold dereference in Hcall.
    rewrite Hholder in Hcall. cbn [ret] in Hcall.
    rewrite bool_decide_true in Hcall by eauto. rewrite Hid in Hcall.
    cbn [negb andb] in Hcall. rewrite andb_false_r in Hcall.
    unfold bind at 1 in Hcall. unfold when at 1 in Hcall.
    rewrite Hstart in Hcall.
    unfold bind at 1 in Hcall. unfold when at 1 in Hcall.
    case_bool_decide as Hself; cbn [negb] in Hcall.
    + injection Hself as ->. cbn [ret] in Hcall.
      exists s1. split; [congruence |]. split; [exact Hok1 |].
      split; [now rewrite E1 |]. left.
      split; [exact Hm1 |]. split; [now right | exact Hcall].
    + assert (Hne : pointer <> id) by congruence.
      unfold bind at 1 in Hcall.
      destruct (removeNoLock_effect ext pointer false write_on_disk s1)
        as (r & s2 & Hremove & Hro2 & _ & Heffect).
      rewrite Hremove in Hcall.
      destruct Heffect as [(-> & _ & holder' & Hin' & He & Hn)
                          | (Hr1 & Hr2 & Hmem & Hfalse & _)].
      * rewrite E1, Hholder in Hin'. injection Hin' as <-.
        assert (Hok2 : index_ok s2).
        { apply (index_step_erase s1 s2 pointer holder); try assumption.
          now rewrite E1. }
        unfold ret at 1 in Hcall. cbn beta iota in Hcall.
        exists s2. split; [congruence |]. split; [exact Hok2 |].
        split; [now rewrite He, lookup_delete_ne, E1 by exact Hne |].
        right. exists pointer, holder.
        split; [exact Hne |]. split; [reflexivity |]. split; [exact Hholder |].
        split; [exact Htype |]. split; [exact Hname |]. left.
        split; [now rewrite He, E1 |].
        split; [now rewrite Hn, E2, Htype, Hname | exact Hcall].
      * destruct r as [[] | e |]; try congruence.
        -- destruct Hfalse as [Hnone _]; [reflexivity |].
           rewrite E1 in Hnone. congruence.
        -- exists s2. split; [congruence |].
           split; [now apply (same_memory_index s1) |].
           destruct Hmem as (F1 & F2 & F3 & F4 & F5).
           split; [now rewrite F1, E1 |].
           right. exists pointer, holder.
           split; [exact Hne |]. split; [reflexivity |]. split; [exact Hholder |].
           split; [exact Htype |]. split; [exact Hname |]. right.
           split; [| now exists e].
           apply (same_memory_trans s s1 s2); [exact Hm1 | now repeat split].
  - unfold bind at 1 in Hcall. cbn [ret] in Hcall.
    rewrite bool_decide_false in Hcall by (intros [? ?]; discriminate).
    cbn [andb] in Hcall.
    assert (Hskip : bool_decide (is_Some (entries_by_id s !! id))
                    && negb replace_if_exists = false).
    { destruct Hgo as [-> | [_ ->]]; [apply andb_false_r |].
      rewrite bool_decide_false; [reflexivity |]. intros [? ?]. discriminate. }
    rewrite Hskip in Hcall.
    unfold bind at 1 in Hcall. unfold when at 1 in Hcall.
    rewrite Hstart in Hcall.
    unfold bind at 1 in Hcall. unfold when at 1 in Hcall. cbn [ret] in Hcall.
    exists s1. split; [congruence |]. split; [exact Hok1 |].
    split; [now rewrite E1 |]. left.
    split; [exact Hm1 |]. split; [now left | exact Hcall].
Qed.

(** [insertNoLock] keeps the two maps in step, whatever the flags and
    whatever the disk answers, as long as it does not replace an entity by
    one of the same id and type under another name. *)
Lemma insertNoLock_index (ext : Externals) (id : UUID)
    (new_entity : AccessEntity)
    (replace_if_exists throw_if_exists write_on_disk : bool) (s : State) :
  index_ok s ->
  (forall entry, entries_by_id s !! id = Some entry ->
     entry_type entry = getType new_entity ->
     entry_name entry = getName new_entity) ->
  exists r s',
    insertNoLock ext id new_entity replace_if_exists throw_if_exists
      write_on_disk s = (r, s')
    /\ r <> Undefined
    /\ readonly s' = readonly s
    /\ index_ok s'.
Proof.
  intros Hok Hsame.
  destruct (readonly s) eqn:Hro.
  { unfold insertNoLock. rewrite Hro. do 2 eexists.
    split; [reflexivity |]. split; [discriminate |]. now split. }
  assert (Hgo : replace_if_exists = true
                \/ (entries_by_name s (getType new_entity)
                    !! getName new_entity = None
                    /\ entries_by_id s !! id = None)
                \/ exists r, insertNoLock ext id new_entity replace_if_exists
                               throw_if_exists write_on_disk s = (r, s)
                             /\ r <> Undefined).
  { destruct replace_if_exists; [now left | right].
    destruct (insertNoLock_conflict ext id new_entity throw_if_exists
                write_on_disk s Hok Hro) as [Hname Hid].
    destruct (entries_by_name s (getType new_entity) !! getName new_entity)
      as [holder |] eqn:Hbyname.
    - right. eexists. split; [now apply Hname |].
      destruct throw_if_exists; discriminate.
    - destruct (entries_by_id s !! id) as [entry |] eqn:Hin; [| now left].
      right. eexists. split; [now apply Hid |].
      destruct throw_if_exists; discriminate. }
  assert (Hhead : replace_if_exists = true
                  \/ (entries_by_name s (getType new_entity)
                      !! getName new_entity = None
                      /\ entries_by_id s !! id = None) ->
                  exists r s',
                    insertNoLock ext id new_entity replace_if_exists
                      throw_if_exists write_on_disk s = (r, s')
                    /\ r <> Undefined /\ readonly s' = readonly s
                    /\ index_ok s').
  { intros Hcase.
    destruct (insertNoLock_head ext id new_entity replace_if_exists
                throw_if_exists write_on_disk s Hok Hro Hcase)
      as (s2 & Hro2 & Hok2 & Hid2 & Hreached).
    assert (Htail : entries_by_name s2 (getType new_entity)
                    !! getName new_entity = None
                    \/ entries_by_name s2 (getType new_entity)
                       !! getName new_entity = Some id ->
                    exists r s',
                      insertNoLock_tail ext id new_entity write_on_disk
                        (bool_decide (is_Some (entries_by_id s !! id))) s2
                      = (r, s')
                      /\ r <> Undefined /\ readonly s' = readonly s
                      /\ index_ok s').
    { intros Hname.
      destruct (insertNoLock_tail_index ext id new_entity write_on_disk
                  (bool_decide (is_Some (entries_by_id s !! id))) s2)
        as (r & s3 & Hrun & Hr & _ & Hro3 & Hok3).
      - exact Hok2.
      - rewrite Hid2. exact Hsame.
      - now rewrite Hid2.
      - exact Hname.
      - exists r, s3. split; [exact Hrun |]. split; [exact Hr |].
        split; [congruence | exact Hok3]. }
    destruct Hreached
      as [(Hmem & Hname & ->)
         | (pointer & holder & Hne & Hbyname & Hholder & Htype & Hname
            & [(He & Hn & ->) | (Hmem & e & ->)])].
    - apply Htail. destruct Hmem as (_ & E2 & _).
      unfold entries_by_name in *. now rewrite E2.
    - apply Htail. left. unfold entries_by_name.
      rewrite Hn, with_names_same. apply lookup_delete_eq.
    - do 2 eexists. split; [reflexivity |]. split; [discriminate |].
      split; [congruence | exact Hok2]. }
  destruct Hgo as [Hrep | [Hfree | (r & Hrun & Hr)]].
  - destruct Hhead as (r & s' & Hrun & Hr & Hro' & Hok'); [now left |].
    exists r, s'. split; [exact Hrun |]. split; [exact Hr |].
    split; [congruence | exact Hok'].
  - destruct Hhead as (r & s' & Hrun & Hr & Hro' & Hok'); [now right |].
    exists r, s'. split; [exact Hrun |]. split; [exact Hr |].
    split; [congruence | exact Hok'].
  - exists r, s. split; [exact Hrun |]. split; [exact Hr |].
    split; [exact Hro | exact Hok].
Qed.

(** [insertNoLock] keeps the two maps in step.  From a state where they
    describe the same entries the call never dereferences a dangling
    pointer and leaves them describing the same entries, whatever the
    flags, whatever the disk answers and however the call ends, as long as
    it does not replace an entity by one of the same id and type under
    another name. *)
Theorem insertNoLock_keeps_index (ext : Externals) (id : UUID)
    (new_entity : AccessEntity)
    (replace_if_exists throw_if_exists write_on_disk : bool) (s : State) :
  index_ok s ->
  (forall entry, entries_by_id s !! id = Some entry ->
     entry_type entry = getType new_entity ->
     entry_name entry = getName new_entity) ->
  let result := insertNoLock ext id new_entity replace_if_exists
                  throw_if_exists write_on_disk s in
  result.1 <> Undefined /\ index_ok result.2.
Proof.
  intros Hok Hsame.
  destruct (insertNoLock_index ext id new_entity replace_if_exists
              throw_if_exists write_on_disk s Hok Hsame)
    as (r & s' & Hrun & Hr & _ & Hok').
  cbn zeta. rewrite Hrun. now split.
Qed.

Lemma empty_storage_index : index_ok empty_storage.
Proof. apply index_ok_empty. Qed.

Lemma small_storage_index : index_ok small_storage.
Proof.
  unfold small_storage, state_of.
  destruct (insertNoLock_index simple_externals 1%N alice false true true
              empty_storage empty_storage_index) as (r1 & s1 & Hrun1 & _ & _ & Hok1).
  { intros entry H. vm_compute in H. discriminate. }
  rewrite Hrun1. cbn [snd].
  destruct (insertNoLock_index simple_externals 2%N admin false true true
              s1 Hok1) as (r2 & s2 & Hrun2 & _ & _ & Hok2).
  { intros entry H. apply (f_equal snd) in Hrun1. cbn [snd] in Hrun1.
    subst s1. vm_compute in H. discriminate. }
  now rewrite Hrun2.
Qed.

Lemma insertNoLock_keeps_index_witness :
  index_ok (insertNoLock simple_externals 3%N bob true false true
              small_storage).2.
Proof.
  apply (insertNoLock_keeps_index simple_externals 3%N bob true false true
           small_storage small_storage_index).
  intros entry H. vm_compute in H. discriminate.
Defined.

Lemma removeNoLock_keeps_index_witness :
  index_ok (removeNoLock simple_externals 1%N true true small_storage).2.
Proof.
  exact (proj1 (removeNoLock_keeps_index simple_externals 1%N true true
                  small_storage small_storage_index)).
Defined.

(** Replacing an entity by one of the same id and type under another name
    moves the pointer to the new name but leaves the old name in the
    entry.  From a state where the two maps describe the same entries,
    when such a call returns: the new name points to the entry, the old
    name is free, the entry still has the old name, which is what
    [readNameWithTypeImpl] reports; the two maps no longer describe the
    same entries, and once the entry is removed the new name is left
    pointing to the erased entry, which [findImpl] then dereferences. *)
Theorem insertNoLock_rename_in_place (ext : Externals) (id : UUID)
    (new_entity : AccessEntity) (throw_if_exists write_on_disk : bool)
    (s : State) (entry : Entry) (r : bool * option UUID) (s' : State) :
  index_ok s ->
  readonly s = false ->
  entries_by_id s !! id = Some entry ->
  entry_type entry = getType new_entity ->
  entry_name entry <> getName new_entity ->
  entry_entity entry <> Some new_entity ->
  insertNoLock ext id new_entity true throw_if_exists write_on_disk s
  = (Returned r, s') ->
  r = (true, None)
  /\ entries_by_id s' !! id
     = Some (mkEntry id (entry_name entry) (entry_type entry)
               (Some new_entity))
  /\ entries_by_name s' (getType new_entity) !! getName new_entity = Some id
  /\ entries_by_name s' (getType new_entity) !! entry_name entry = None
  /\ ~ index_ok s'
  /\ (readNameWithTypeImpl id false s').1
     = Returned (Some (entry_name entry, entry_type entry))
  /\ (findImpl (getType new_entity) (getName new_entity)
        (removeNoLock ext id false false s').2).1
     = Undefined.
Proof.
  intros Hok Hro Hin Htype Hname Hentity Hrun.
  pose proof Hok as [H1 H2]. destruct (H1 _ _ Hin) as [Hid Hown].
  destruct (insertNoLock_head ext id new_entity true throw_if_exists
              write_on_disk s Hok Hro (or_introl eq_refl))
    as (s2 & Hro2 & Hok2 & Hid2 & Hreached).
  assert (Hfree : entries_by_name_and_type s2 (getType new_entity)
                  !! getName new_entity = None
                  /\ insertNoLock ext id new_entity true throw_if_exists
                       write_on_disk s
                     = insertNoLock_tail ext id new_entity write_on_disk
                         (bool_decide (is_Some (entries_by_id s !! id))) s2).
  { destruct Hreached
      as [((_ & E2 & _) & Hbyname & Heq)
         | (pointer & holder & Hne & Hbyname & Hholder & _ & _
            & [(He & Hn & Heq) | (_ & e & Heq)])].
    - split; [| exact Heq]. rewrite E2.
      destruct Hbyname as [Hnone | Hself]; [exact Hnone |].
      destruct (H2 _ _ _ Hself) as (entry' & Hin' & _ & Hname').
      congruence.
    - split; [| exact Heq]. rewrite Hn, with_names_same. apply lookup_delete_eq.
    - congruence. }
  destruct Hfree as [Hfree Heq]. rewrite Heq in Hrun. clear Heq.
  rewrite Hin, bool_decide_true in Hrun by eauto.
  unfold insertNoLock_tail, bind in Hrun.
  rewrite <- Hid2 in Hin.
  destruct (insertNoLock_id_collision_effect ext id new_entity write_on_disk
              s2 entry Hin) as (r3 & s3 & Hcollision & Hro3 & _ & Heffect).
  rewrite Hcollision in Hrun.
  destruct Heffect
    as [([e ->] & _)
       | [(-> & _ & Hsame & _)
         | [(-> & _ & _ & He & Hnames)
           | (-> & Hother & _)]]];
    [discriminate | congruence | | congruence].
  cbn in Hrun. injection Hrun as <- <-.
  destruct Hnames as [[Heq _] | [_ Hn]]; [congruence |].
  cbn zeta in Hn. rewrite with_names_same in Hn.
  rewrite lookup_delete_ne, Hfree in Hn by exact Hname.
  assert (Hentry : entries_by_id s3 !! id
                   = Some (mkEntry id (entry_name entry) (entry_type entry)
                             (Some new_entity))).
  { rewrite He, lookup_insert_eq. now rewrite Hid. }
  assert (Hnew : entries_by_name s3 (getType new_entity) !! getName new_entity
                 = Some id).
  { unfold entries_by_name. rewrite Hn, with_names_same. apply lookup_insert_eq. }
  assert (Hold : entries_by_name s3 (getType new_entity) !! entry_name entry
                 = None).
  { unfold entries_by_name. rewrite Hn, with_names_same.
    rewrite lookup_insert_ne by congruence. apply lookup_delete_eq. }
  split; [reflexivity |]. split; [exact Hentry |]. split; [exact Hnew |].
  split; [exact Hold |]. split; [| split].
  - intros [K1 _]. destruct (K1 _ _ Hentry) as [_ Kname]. cbn in Kname.
    unfold entries_by_name in Hold. rewrite Htype in Kname. congruence.
  - unfold readNameWithTypeImpl, lock_guard. cbn. now rewrite Hentry.
  - unfold removeNoLock. rewrite Hentry. cbn [entry_type entry_name].
    replace (readonly s3) with false by congruence.
    cbn. unfold findImpl, lock_guard, dereference. cbn.
    unfold entries_by_name in *. rewrite Htype, with_names_same.
    rewrite lookup_delete_ne by congruence.
    unfold entries_by_name in Hnew. rewrite Hnew.
    now rewrite lookup_delete_eq.
Qed.

(** An entity inserted under a free id: when the call returns [true] (the
    name was free, or [replace_if_exists] was set), the entry is there with
    the entity, its name points to it, the entry that held the name before
    is gone, every other entry is as it was, and the two maps describe the
    same entries. *)
Theorem insertNoLock_fresh_id (ext : Externals) (id : UUID)
    (new_entity : AccessEntity)
    (replace_if_exists throw_if_exists write_on_disk : bool) (s : State)
    (conflicting_id : option UUID) (s' : State) :
  index_ok s ->
  entries_by_id s !! id = None ->
  insertNoLock ext id new_entity replace_if_exists throw_if_exists
    write_on_disk s
  = (Returned (true, conflicting_id), s') ->
  conflicting_id = None
  /\ index_ok s'
  /\ entries_by_id s' !! id
     = Some (mkEntry id (getName new_entity) (getType new_entity)
               (Some new_entity))
  /\ entries_by_name s' (getType new_entity) !! getName new_entity = Some id
  /\ (forall other, other <> id ->
        entries_by_id s' !! other
        = if decide (entries_by_name s (getType new_entity)
                     !! getName new_entity = Some other)
          then None else entries_by_id s !! other).
Proof.
  intros Hok Hin Hrun.
  assert (Hok' : index_ok s').
  { destruct (insertNoLock_index ext id new_entity replace_if_exists
                throw_if_exists write_on_disk s Hok)
      as (r0 & s0 & Hrun0 & _ & _ & Hok0).
    - intros entry Hentry. congruence.
    - congruence. }
  destruct (readonly s) eqn:Hro.
  { unfold insertNoLock in Hrun. rewrite Hro in Hrun. discriminate. }
  assert (Hgo : replace_if_exists = true
                \/ (entries_by_name s (getType new_entity)
                    !! getName new_entity = None
                    /\ entries_by_id s !! id = None)).
  { destruct replace_if_exists; [now left | right].
    split; [| exact Hin].
    destruct (entries_by_name s (getType new_entity) !! getName new_entity)
      as [holder |] eqn:Hbyname; [| reflexivity].
    destruct (insertNoLock_conflict ext id new_entity throw_if_exists
                write_on_disk s Hok Hro) as [Hconflict _].
    rewrite (Hconflict _ Hbyname) in Hrun.
    destruct throw_if_exists; discriminate. }
  destruct (insertNoLock_head ext id new_entity replace_if_exists
              throw_if_exists write_on_disk s Hok Hro Hgo)
    as (s2 & Hro2 & Hok2 & Hid2 & Hreached).
  assert (Htail : insertNoLock_tail ext id new_entity write_on_disk false s2
                  = (Returned (true, conflicting_id), s')
                  /\ (forall other, other <> id ->
                        entries_by_id s2 !! other
                        = if decide (entries_by_name s (getType new_entity)
                                     !! getName new_entity = Some other)
                          then None else entries_by_id s !! other)).
  { rewrite Hin, bool_decide_false in Hreached
      by (intros [? ?]; discriminate).
    destruct Hreached
      as [((E1 & _) & Hbyname & Heq)
         | (pointer & holder & Hne & Hbyname & Hholder & _ & _
            & [(He & Hn & Heq) | (_ & e & Heq)])].
    - split; [congruence |]. intros other Hother. rewrite E1.
      rewrite decide_False; [reflexivity |].
      destruct Hbyname as [-> | ->]; congruence.
    - split; [congruence |]. intros other Hother. rewrite He, Hbyname.
      case_decide as Hcase.
      + injection Hcase as ->. apply lookup_delete_eq.
      + apply lookup_delete_ne. congruence.
    - congruence. }
  destruct Htail as [Htail Hothers].
  unfold insertNoLock_tail, bind in Htail. cbn [ret] in Htail.
  destruct (insertNoLock_insertion_effect ext id new_entity write_on_disk s2)
    as (r3 & s3 & Hinsertion & _ & _ & Heffect).
  rewrite Hinsertion in Htail.
  destruct Heffect as [(-> & He & Hn) | ([e ->] & _)]; [| discriminate].
  injection Htail as <- <-.
  split; [reflexivity |]. split; [exact Hok' |].
  split; [rewrite He; apply lookup_insert_eq |].
  split; [unfold entries_by_name; rewrite Hn, with_names_same;
          apply lookup_insert_eq |].
  intros other Hother. rewrite He, lookup_insert_ne by congruence.
  now apply Hothers.
Qed.

Lemma insertNoLock_rename_in_place_witness :
  ~ index_ok (insertNoLock simple_externals 1%N alicia true false false
                small_storage).2.
Proof.
  assert (Hrun : insertNoLock simple_externals 1%N alicia true false false
                   small_storage
                 = (Returned (true, None),
                    (insertNoLock simple_externals 1%N alicia true false false
                       small_storage).2)).
  { rewrite (surjective_pairing (insertNoLock _ _ _ _ _ _ _)) at 1.
    f_equal; vm_compute; reflexivity. }
  refine (proj1 (proj2 (proj2 (proj2 (proj2
            (insertNoLock_rename_in_place simple_externals 1%N alicia false
               false small_storage (mkEntry 1%N "alice" 0 (Some alice))
               (true, None) _ small_storage_index _ _ _ _ _ Hrun)))))).
  all: first [ vm_compute; reflexivity
             | intros H; vm_compute in H; discriminate ].
Defined.

Lemma insertNoLock_fresh_id_witness :
  entries_by_name
    (insertNoLock simple_externals 3%N bob false true true small_storage).2
    0 !! "bob"%string
  = Some 3%N.
Proof.
  assert (Hrun : insertNoLock simple_externals 3%N bob false true true
                   small_storage
                 = (Returned (true, None),
                    (insertNoLock simple_externals 3%N bob false true true
                       small_storage).2)).
  { rewrite (surjective_pairing (insertNoLock _ _ _ _ _ _ _)) at 1.
    f_equal; vm_compute; reflexivity. }
  refine (proj1 (proj2 (proj2 (proj2
            (insertNoLock_fresh_id simple_externals 3%N bob false true true
               small_storage None _ small_storage_index _ Hrun))))).
  vm_compute. reflexivity.
Defined.

(** ** [updateNoLock] *)

Lemma updateNoLock_index (ext : Externals) (id : UUID)
    (update_func : UpdateFunc) (throw_if_not_exists write_on_disk : bool)
    (s : State) :
  index_ok s ->
  exists r s',
    updateNoLock ext id update_func throw_if_not_exists write_on_disk s
    = (r, s')
    /\ r <> Undefined
    /\ readonly s' = readonly s
    /\ index_ok s'
    /\ (forall other, other <> id ->
          entries_by_id s' !! other = entries_by_id s !! other)
    /\ (entries_by_id s !! id = None -> same_memory s s')
    /\ (readonly s = true -> same_memory s s').
Proof.
  intros Hok.
  set (call := updateNoLock ext id update_func throw_if_not_exists
                 write_on_disk s).
  assert (Hcall : call = updateNoLock ext id update_func throw_if_not_exists
                           write_on_disk s) by reflexivity.
  clearbody call. unfold updateNoLock in Hcall.
  assert (Hsame : forall r, r <> Undefined -> call = (r, s) ->
            exists r s',
              call = (r, s') /\ r <> Undefined /\ readonly s' = readonly s
              /\ index_ok s'
              /\ (forall other, other <> id ->
                    entries_by_id s' !! other = entries_by_id s !! other)
              /\ (entries_by_id s !! id = None -> same_memory s s')
              /\ (readonly s = true -> same_memory s s')).
  { intros r Hr Heq. exists r, s. split; [exact Heq |]. split; [exact Hr |].
    split; [reflexivity |]. split; [exact Hok |]. split; [reflexivity |].
    split; intros _; apply same_memory_refl. }
  destruct (entries_by_id s !! id) as [entry |] eqn:Hin.
  2: { destruct throw_if_not_exists;
         (eapply Hsame; [| exact Hcall]); discriminate. }
  destruct (readonly s) eqn:Hro.
  { eapply Hsame; [| exact Hcall]. discriminate. }
  unfold bind at 1 in Hcall.
  (* the old entity, read from the disk if need be *)
  assert (Hold : exists r1 s1,
            match entry_entity entry with
            | Some entity => ret entity
            | None =>
                bind (readAccessEntityFromDisk ext id) (fun entity =>
                  bind (modify (set_entry id
                                  (mkEntry (entry_id entry) (entry_name entry)
                                     (entry_type entry) (Some entity))))
                    (fun _ => ret entity))
            end s = (r1, s1)
            /\ r1 <> Undefined
            /\ readonly s1 = false
            /\ index_ok s1
            /\ entries_by_name_and_type s1 = entries_by_name_and_type s
            /\ (forall other, other <> id ->
                  entries_by_id s1 !! other = entries_by_id s !! other)
            /\ exists entity1,
                 entries_by_id s1 !! id
                 = Some (mkEntry (entry_id entry) (entry_name entry)
                           (entry_type entry) entity1)).
  { destruct (entry_entity entry) as [entity |] eqn:Hentity.
    - exists (Returned entity), s. split; [reflexivity |].
      split; [discriminate |]. split; [exact Hro |]. split; [exact Hok |].
      split; [reflexivity |]. split; [reflexivity |].
      exists (Some entity). rewrite Hin, <- Hentity. now destruct entry.
    - unfold bind at 1.
      destruct (readAccessEntityFromDisk_reads ext id s) as (r & -> & Hr).
      destruct r as [entity | e |]; [| | congruence].
      + cbn. do 2 eexists. split; [reflexivity |]. cbn.
        split; [discriminate |]. split; [exact Hro |].
        split; [now apply (index_step_entity s _ id entry (Some entity)) |].
        split; [reflexivity |].
        split; [intros other Hother; now rewrite lookup_insert_ne by congruence |].
        exists (Some entity). apply lookup_insert_eq.
      + do 2 eexists. split; [reflexivity |].
        split; [discriminate |]. split; [exact Hro |]. split; [exact Hok |].
        split; [reflexivity |]. split; [reflexivity |].
        exists None. rewrite Hin, <- Hentity. now destruct entry. }
  destruct Hold as (r1 & s1 & Hold & Hr1 & Hro1 & Hok1 & Hn1 & Hothers1
                    & entity1 & Hin1).
  rewrite Hold in Hcall.
  assert (Hfinish : forall r s',
            call = (r, s') -> r <> Undefined -> readonly s' = false ->
            index_ok s' ->
            (forall other, other <> id ->
               entries_by_id s' !! other = entries_by_id s1 !! other) ->
            exists r s',
              call = (r, s') /\ r <> Undefined /\ readonly s' = false
              /\ index_ok s'
              /\ (forall other, other <> id ->
                    entries_by_id s' !! other = entries_by_id s !! other)
              /\ (Some entry = None -> same_memory s s')
              /\ (false = true -> same_memory s s')).
  { intros r s' Heq Hr Hro' Hok' Hothers'. exists r, s'.
    split; [exact Heq |]. split; [exact Hr |]. split; [exact Hro' |].
    split; [exact Hok' |].
    split; [intros other Hother; rewrite Hothers' by exact Hother;
            now apply Hothers1 |].
    split; discriminate. }
  destruct r1 as [old_entity | e |]; [| | congruence].
  2: { eapply (Hfinish _ s1);
        [exact Hcall | discriminate | exact Hro1 | exact Hok1 | reflexivity]. }
  destruct (update_func old_entity id) as [e | new_entity].
  { eapply (Hfinish _ s1);
        [exact Hcall | discriminate | exact Hro1 | exact Hok1 | reflexivity]. }
  destruct (isTypeOf new_entity (getType old_entity)); cbn [negb] in Hcall.
  2: { eapply (Hfinish _ s1);
        [exact Hcall | discriminate | exact Hro1 | exact Hok1 | reflexivity]. }
  destruct (decide (new_entity = old_entity)) as [Hequal | Hdiffers].
  { eapply (Hfinish _ s1);
        [exact Hcall | discriminate | exact Hro1 | exact Hok1 | reflexivity]. }
  unfold bind at 1 in Hcall. unfold when at 1 in Hcall.
  assert (Hwrite : forall s2, same_memory s1 s2 ->
            exists r s3,
              when write_on_disk (writeAccessEntityToDisk ext id new_entity) s2
              = (r, s3)
              /\ r <> Undefined /\ same_memory s1 s3).
  { intros s2 Hm2. unfold when. destruct write_on_disk.
    - destruct (writeAccessEntityToDisk_ends ext id new_entity s2)
        as (r & s3 & -> & Hr & Hm3).
      exists r, s3. split; [reflexivity |]. split; [exact Hr |].
      now apply (same_memory_trans s1 s2 s3).
    - exists (Returned tt), s2. split; [reflexivity |].
      split; [discriminate | exact Hm2]. }
  case_bool_decide as Hname; cbn [negb] in Hcall.
  - (* the name stays *)
    cbn [ret] in Hcall. unfold bind at 1 in Hcall.
    destruct (Hwrite s1 (same_memory_refl s1)) as (r & s3 & Hw & Hr & Hm3).
    rewrite Hw in Hcall.
    pose proof Hm3 as (F1 & F2 & F3 & _).
    destruct r as [[] | e |]; [| | congruence].
    + cbn in Hcall. eapply Hfinish; [exact Hcall | discriminate | | |].
      * cbn. congruence.
      * apply (index_step_entity s3 _ id
                 (mkEntry (entry_id entry) (entry_name entry)
                    (entry_type entry) entity1) (Some new_entity)).
        -- now apply (same_memory_index s1).
        -- now rewrite F1.
        -- reflexivity.
        -- reflexivity.
      * intros other Hother. cbn.
        now rewrite lookup_insert_ne, F1 by congruence.
    + eapply Hfinish; [exact Hcall | discriminate | congruence | |].
      * now apply (same_memory_index s1).
      * intros other Hother. now rewrite F1.
  - (* another name *)
    destruct (entries_by_name s1 (entry_type entry) !! getName new_entity)
      as [taken |] eqn:Htaken.
    { rewrite bool_decide_true in Hcall by eauto.
      eapply (Hfinish _ s1);
        [exact Hcall | discriminate | exact Hro1 | exact Hok1 | reflexivity]. }
    rewrite bool_decide_false in Hcall by (intros [? ?]; discriminate).
    assert (Hstart : exists s2,
              when write_on_disk (scheduleWriteLists (entry_type entry)) s1
              = (Returned tt, s2)
              /\ same_memory s1 s2).
    { unfold when. destruct write_on_disk; [apply scheduleWriteLists_returns |].
      exists s1. split; [reflexivity | apply same_memory_refl]. }
    destruct Hstart as (s2 & Hstart & Hm2).
    rewrite Hstart in Hcall. unfold bind at 1 in Hcall.
    destruct (Hwrite s2 Hm2) as (r & s3 & Hw & Hr & Hm3).
    rewrite Hw in Hcall.
    pose proof Hm3 as (F1 & F2 & F3 & _).
    destruct r as [[] | e |]; [| | congruence].
    + cbn in Hcall. eapply Hfinish; [exact Hcall | discriminate | | |].
      * cbn. congruence.
      * unfold index_ok. cbn. unfold entries_by_name. cbn.
        rewrite insert_insert_eq, with_names_same.
        eapply index_ok_maps_ext;
          [| apply (index_ok_rename (entries_by_id s3)
                      (entries_by_name_and_type s3) id
                      (mkEntry (entry_id entry) (entry_name entry)
                         (entry_type entry) entity1)
                      (getName new_entity) (Some new_entity))].
        -- intros type. cbn. unfold with_names.
           case_decide; reflexivity.
        -- now apply (same_memory_index s1).
        -- now rewrite F1.
        -- cbn. rewrite F2. exact Htaken.
      * intros other Hother. cbn.
        now rewrite !lookup_insert_ne, F1 by congruence.
    + eapply Hfinish; [exact Hcall | discriminate | congruence | |].
      * now apply (same_memory_index s1).
      * intros other Hother. now rewrite F1.
Qed.

(** [updateNoLock] keeps the two maps in step.  From a state where they
    describe the same entries, whatever the update function returns or
    throws and whatever the disk answers, the call never dereferences a
    dangling pointer, leaves the two maps describing the same entries (a
    new name that is taken is refused before anything is written) and
    leaves every other entry as it was. *)
Theorem updateNoLock_keeps_index (ext : Externals) (id : UUID)
    (update_func : UpdateFunc) (throw_if_not_exists write_on_disk : bool)
    (s : State) :
  index_ok s ->
  let result := updateNoLock ext id update_func throw_if_not_exists
                  write_on_disk s in
  result.1 <> Undefined
  /\ index_ok result.2
  /\ (forall other, other <> id ->
        entries_by_id result.2 !! other = entries_by_id s !! other).
Proof.
  intros Hok.
  destruct (updateNoLock_index ext id update_func throw_if_not_exists
              write_on_disk s Hok)
    as (r & s' & Hrun & Hr & _ & Hok' & Hothers & _).
  cbn zeta. rewrite Hrun. cbn [fst snd].
  split; [exact Hr |]. split; [exact Hok' | exact Hothers].
Qed.

Lemma updateNoLock_keeps_index_witness :
  index_ok
    (updateNoLock simple_externals 1%N (fun _ _ => inr alicia) true true
       small_storage).2.
Proof.
  exact (proj1 (proj2 (updateNoLock_keeps_index simple_externals 1%N
                         (fun _ _ => inr alicia) true true small_storage
                         small_storage_index))).
Defined.

(** ** A read-only storage *)

(** The state after a call that locked and unlocked [mutex] and did
    nothing else. *)
Lemma lock_guard_same {A : Type} (body : M A) (s : State) (r : Outcome A) :
  body (set_log (log s ++ [Lock]) s) = (r, set_log (log s ++ [Lock]) s) ->
  lock_guard body s = (r, set_log ((log s ++ [Lock]) ++ [Unlock]) s).
Proof. intros H. unfold lock_guard. now rewrite H. Qed.

(** A read-only storage is never written.  [insertImpl] always throws;
    [removeImpl] and [updateImpl] throw or, for an id that is not there and
    without [throw_if_not_exists], return [false]; none of them changes a
    member or the disk, or calls the update function. *)
Theorem readonly_storage_is_not_written (ext : Externals) (s : State)
    (id : UUID) (new_entity : AccessEntity) (update_func : UpdateFunc)
    (replace_if_exists throw_if_exists throw_if_not_exists : bool) :
  readonly s = true ->
  let unchanged := set_log ((log s ++ [Lock]) ++ [Unlock]) s in
  insertImpl ext id new_entity replace_if_exists throw_if_exists s
  = (Thrown (ReadonlyCannotInsert (getType new_entity) (getName new_entity)),
     unchanged)
  /\ removeImpl ext id throw_if_not_exists s
     = (match entries_by_id s !! id with
        | Some entry =>
            Thrown (ReadonlyCannotRemove (entry_type entry) (entry_name entry))
        | None =>
            if throw_if_not_exists then Thrown (NotFound id)
            else Returned false
        end, unchanged)
  /\ updateImpl ext id update_func throw_if_not_exists s
     = (match entries_by_id s !! id with
        | Some entry =>
            Thrown (ReadonlyCannotUpdate (entry_type entry) (entry_name entry))
        | None =>
            if throw_if_not_exists then Thrown (NotFound id)
            else Returned false
        end, unchanged).
Proof.
  intros Hro. cbn zeta. split; [| split].
  - apply lock_guard_same. unfold insertNoLock. cbn. now rewrite Hro.
  - apply lock_guard_same. unfold removeNoLock. cbn.
    destruct (entries_by_id s !! id); [now rewrite Hro |].
    now destruct throw_if_not_exists.
  - apply lock_guard_same. unfold updateNoLock. cbn.
    destruct (entries_by_id s !! id); [now rewrite Hro |].
    now destruct throw_if_not_exists.
Qed.

Lemma readonly_storage_is_not_written_witness :
  (insertImpl simple_externals 3%N bob true true
     (set_readonly true small_storage)).1
  = Thrown (ReadonlyCannotInsert 0 "bob").
Proof.
  assert (Hro : readonly (set_readonly true small_storage) = true)
    by reflexivity.
  rewrite (proj1 (readonly_storage_is_not_written simple_externals
                    (set_readonly true small_storage) 3%N bob
                    (fun _ _ => inr bob) true true true Hro)).
  reflexivity.
Defined.

(** ** Conflicts *)

Lemma index_ok_log (s : State) (events : list Event) :
  index_ok s -> index_ok (set_log events s).
Proof. intros H. exact H. Qed.

(** Without [replace_if_exists], [insertImpl] into a storage that holds
    the name or the id already writes nothing: it throws the collision, or
    without [throw_if_exists] returns [false] and reports the id in the
    way.  The name is looked at first: when both are taken, the holder of
    the name is the one reported. *)
Theorem insertImpl_reports_conflict (ext : Externals) (id : UUID)
    (new_entity : AccessEntity) (throw_if_exists : bool) (s : State) :
  index_ok s -> readonly s = false ->
  let type := getType new_entity in
  let name := getName new_entity in
  let unchanged := set_log ((log s ++ [Lock]) ++ [Unlock]) s in
  (forall holder, entries_by_name s type !! name = Some holder ->
     insertImpl ext id new_entity false throw_if_exists s
     = (if throw_if_exists then Thrown (NameCollisionCannotInsert type name)
        else Returned (false, Some holder), unchanged))
  /\ (forall entry,
        entries_by_name s type !! name = None ->
        entries_by_id s !! id = Some entry ->
        insertImpl ext id new_entity false throw_if_exists s
        = (if throw_if_exists then
             Thrown (IDCollisionCannotInsert id type name (entry_type entry)
                       (entry_name entry))
           else Returned (false, Some id), unchanged)).
Proof.
  intros Hok Hro. cbn zeta.
  destruct (insertNoLock_conflict ext id new_entity throw_if_exists true
              (set_log (log s ++ [Lock]) s)
              (index_ok_log s _ Hok) Hro) as [Hname Hid].
  split.
  - intros holder Hbyname. apply lock_guard_same. now apply Hname.
  - intros entry Hbyname Hin. apply lock_guard_same. now apply Hid.
Qed.

Lemma insertImpl_reports_conflict_witness :
  (insertImpl simple_externals 2%N
     (mkAccessEntity "alice" 0 "CREATE USER alice IDENTIFIED BY 'x'")
     false false small_storage).1
  = Returned (false, Some 1%N).
Proof.
  assert (Hro : readonly small_storage = false) by reflexivity.
  assert (Hname : entries_by_name small_storage 0 !! "alice"%string
                  = Some 1%N) by (vm_compute; reflexivity).
  rewrite (proj1 (insertImpl_reports_conflict simple_externals 2%N
                    (mkAccessEntity "alice" 0
                       "CREATE USER alice IDENTIFIED BY 'x'")
                    false small_storage small_storage_index Hro) _ Hname).
  reflexivity.
Defined.

(** ** Reading *)

(** An entity that was read is read from memory from then on.  When
    [readImpl] has returned an entity, every later [readImpl] of the same
    id returns that entity without reading the disk, whatever has become
    of the file. *)
Theorem readImpl_caches (ext : Externals) (id : UUID)
    (throw_if_not_exists throw_again : bool) (s s1 : State)
    (entity : AccessEntity) (other_disk : gmap string string)
    (other_faults : Faults) :
  readImpl ext id throw_if_not_exists s = (Returned (Some entity), s1) ->
  let s2 := set_faults other_faults (set_disk other_disk s1) in
  readImpl ext id throw_again s2
  = (Returned (Some entity), set_log ((log s2 ++ [Lock]) ++ [Unlock]) s2).
Proof.
  unfold readImpl at 1. unfold lock_guard. cbn.
  destruct (entries_by_id s !! id) as [entry |] eqn:Hin.
  2: { destruct throw_if_not_exists; discriminate. }
  assert (Hcached : forall s1,
            (exists entry1, entries_by_id s1 !! id = Some entry1
                            /\ entry_entity entry1 = Some entity) ->
            let s2 := set_faults other_faults (set_disk other_disk s1) in
            readImpl ext id throw_again s2
            = (Returned (Some entity),
               set_log ((log s2 ++ [Lock]) ++ [Unlock]) s2)).
  { intros s0 (entry1 & Hin1 & Hentity1). cbn zeta.
    apply lock_guard_same. cbn. now rewrite Hin1, Hentity1. }
  destruct (entry_entity entry) as [cached |] eqn:Hentity.
  - cbn. intros [= <- <-]. apply Hcached. exists entry. now split.
  - unfold bind.
    destruct (readAccessEntityFromDisk_reads ext id
                (set_log (log s ++ [Lock]) s)) as (r & -> & Hr).
    destruct r as [read | e |]; [| discriminate | discriminate].
    cbn. intros [= <- <-]. apply Hcached.
    eexists. cbn. rewrite lookup_insert_eq. now split.
Qed.

Lemma readImpl_caches_witness :
  (readImpl simple_externals 1%N true
     (set_faults no_faults
        (set_disk ∅ (readImpl simple_externals 1%N true small_storage).2))).1
  = Returned (Some alice).
Proof.
  assert (Hrun : readImpl simple_externals 1%N true small_storage
                 = (Returned (Some alice),
                    (readImpl simple_externals 1%N true small_storage).2)).
  { rewrite (surjective_pairing (readImpl _ _ _ _)) at 1.
    f_equal; vm_compute; reflexivity. }
  rewrite (readImpl_caches simple_externals 1%N true true small_storage _
             alice ∅ no_faults Hrun).
  reflexivity.
Defined.

(** ** Writing the lists *)

(** Once writing the lists has failed, it is not tried again: with
    [failed_to_write_lists] set, [writeLists] and [scheduleWriteLists]
    return at once and change nothing, neither on the disk nor in the set
    of lists to write, nor do they start a thread. *)
Theorem failed_lists_are_not_retried (ext : Externals) (s : State)
    (type : AccessEntityType) :
  failed_to_write_lists s = true ->
  writeLists ext s = (Returned tt, s)
  /\ scheduleWriteLists type s = (Returned tt, s)
  /\ listsWritingThreadFunc ext true s
     = (Returned tt,
        set_log ((log s ++ [Lock]) ++ [Unlock])
          (set_lists_writing_thread_is_waiting false s)).
Proof.
  intros Hfailed. split; [| split].
  - unfold writeLists. now rewrite Hfailed.
  - unfold scheduleWriteLists. now rewrite Hfailed.
  - unfold listsWritingThreadFunc, lock_guard, when, bind, modify, writeLists.
    cbn. now rewrite Hfailed.
Qed.

Lemma failed_lists_are_not_retried_witness :
  writeLists simple_externals (set_failed_to_write_lists true small_storage)
  = (Returned tt, set_failed_to_write_lists true small_storage).
Proof.
  assert (H : failed_to_write_lists
                (set_failed_to_write_lists true small_storage) = true)
    by reflexivity.
  exact (proj1 (failed_lists_are_not_retried simple_externals
                  (set_failed_to_write_lists true small_storage) 0 H)).
Defined.

Lemma collect_listed (pointers : list (string * UUID))
    (entries : gmap UUID Entry) :
  (forall name pointer, (name, pointer) ∈ pointers ->
     exists entry, entries !! pointer = Some entry
                   /\ entry_id entry = pointer /\ entry_name entry = name) ->
  collect_id_name_pairs pointers entries
  = Some ((fun '(name, pointer) => (pointer, name)) <$> pointers).
Proof.
  induction pointers as [| [name pointer] rest IH]; intros Hall;
    [reflexivity |].
  cbn [collect_id_name_pairs fmap list_fmap].
  destruct (Hall name pointer) as (entry & -> & <- & <-); [left |].
  rewrite IH; [reflexivity |].
  intros name' pointer' Hin. apply Hall. now right.
Qed.

Lemma collect_index (s : State) (type : AccessEntityType) :
  index_ok s ->
  collect_id_name_pairs (map_to_list (entries_by_name s type))
    (entries_by_id s)
  = Some (listed s type).
Proof.
  intros [H1 H2]. apply collect_listed.
  intros name pointer Hin. apply elem_of_map_to_list in Hin.
  destruct (H2 _ _ _ Hin) as (entry & Hentry & _ & Hname).
  exists entry. split; [exact Hentry |]. split; [| exact Hname].
  now destruct (H1 _ _ Hentry).
Qed.

(** What the loop of [writeLists] leaves: the members in memory, the mark
    file and every file that is not a list as they were; all the lists
    written, or the failure recorded and the set cleared. *)
Lemma writeLists_loop_effect (ext : Externals) (types : list AccessEntityType)
    (s : State) :
  index_ok s ->
  exists written s',
    writeLists_loop ext types s = (Returned written, s')
    /\ same_memory s s'
    /\ faults s' = faults s
    /\ log s' = log s
    /\ lists_writing_thread s' = lists_writing_thread s
    /\ lists_writing_thread_is_waiting s' = lists_writing_thread_is_waiting s
    /\ (forall path,
          (forall type, type ∈ types ->
             path <> getListFilePath ext (directory_path s) type) ->
          disk s' !! path = disk s !! path)
    /\ (if written then
          failed_to_write_lists s' = failed_to_write_lists s
          /\ types_of_lists_to_write s' = types_of_lists_to_write s
          /\ (forall type, type ∈ types ->
                write_fails (faults s)
                  (getListFilePath ext (directory_path s) type) = WritesAll)
          /\ (forall type, type ∈ types ->
                (forall type', type' ∈ types ->
                   getListFilePath ext (directory_path s) type'
                   = getListFilePath ext (directory_path s) type ->
                   type' = type) ->
                disk s' !! getListFilePath ext (directory_path s) type
                = Some (render_list ext (listed s type)))
        else
          failed_to_write_lists s' = true
          /\ types_of_lists_to_write s' = []
          /\ exists type, type ∈ types
               /\ write_fails (faults s)
                    (getListFilePath ext (directory_path s) type)
                  <> WritesAll).
Proof.
  intros Hok. revert s Hok.
  induction types as [| type rest IH]; intros s Hok.
  - exists true, s. split; [reflexivity |]. split; [apply same_memory_refl |].
    do 4 (split; [reflexivity |]). split; [reflexivity |].
    split; [reflexivity |]. split; [reflexivity |].
    split; intros type Hin; now apply elem_of_nil in Hin.
  - cbn [writeLists_loop]. rewrite collect_index by exact Hok.
    unfold bind at 1. unfold try_catch, writeListFile, write_file.
    unfold bind at 1.
    destruct (write_fails (faults s)
                (getListFilePath ext (directory_path s) type)) eqn:Hfault.
    + (* the list of [type] is written *)
      cbn [ret].
      set (s1 := set_disk _ s).
      assert (Hm1 : same_memory s s1) by now repeat split.
      destruct (IH s1 (same_memory_index _ _ Hm1 Hok))
        as (written & s' & -> & Hm & Hf & Hl & Ht & Hw & Hdisk & Hresult).
      change (directory_path s1) with (directory_path s) in *.
      change (faults s1) with (faults s) in *.
      change (listed s1) with (listed s) in *.
      change (log s1) with (log s) in *.
      change (lists_writing_thread s1) with (lists_writing_thread s) in *.
      change (lists_writing_thread_is_waiting s1)
        with (lists_writing_thread_is_waiting s) in *.
      change (failed_to_write_lists s1) with (failed_to_write_lists s) in *.
      change (types_of_lists_to_write s1) with (types_of_lists_to_write s) in *.
      exists written, s'. split; [reflexivity |].
      split; [now apply (same_memory_trans s s1 s') |].
      do 4 (split; [assumption |]).
      split.
      { intros path Hpath. rewrite Hdisk.
        - subst s1. cbn. apply lookup_insert_ne.
          intros Heq. apply (Hpath type); [left | now symmetry].
        - intros type' Hin. apply Hpath. now right. }
      destruct written.
      * destruct Hresult as (R1 & R2 & R3 & R4).
        split; [exact R1 |]. split; [exact R2 |].
        split.
        { intros type' Hin. apply elem_of_cons in Hin as [-> | Hin];
            [exact Hfault | now apply R3]. }
        intros type' Hin Hinj.
        destruct (decide (type' ∈ rest)) as [Hrest | Hrest].
        -- rewrite (R4 type' Hrest).
           ++ unfold listed, entries_by_name. reflexivity.
           ++ intros type'' Hin'' Heq. apply Hinj; [now right | exact Heq].
        -- apply elem_of_cons in Hin as [-> | Hin]; [| contradiction].
           rewrite Hdisk.
           ++ subst s1. cbn. apply lookup_insert_eq.
           ++ intros type'' Hin'' Heq.
              assert (type'' = type) by (apply Hinj; [now right | now symmetry]).
              congruence.
      * destruct Hresult as (R1 & R2 & type' & Hin & R3).
        split; [exact R1 |]. split; [exact R2 |].
        exists type'. split; [now right | exact R3].
    + (* the file cannot be opened *)
      cbn. exists false. eexists. split; [reflexivity |]. cbn.
      split; [now repeat split |]. do 4 (split; [reflexivity |]).
      split; [reflexivity |]. split; [reflexivity |]. split; [reflexivity |].
      exists type. split; [left |]. rewrite Hfault. discriminate.
    + (* the write fails halfway *)
      cbn. exists false. eexists. split; [reflexivity |]. cbn.
      split; [now repeat split |]. do 4 (split; [reflexivity |]).
      split.
      { intros path Hpath. apply lookup_insert_ne.
        intros Heq. apply (Hpath type); [left | now symmetry]. }
      split; [reflexivity |]. split; [reflexivity |].
      exists type. split; [left |]. rewrite Hfault. discriminate.
Qed.

(** What [writeLists] does, in every state where the two maps describe
    the same entries. *)
Lemma writeLists_effect (ext : Externals) (s : State) :
  index_ok s ->
  let mark := getNeedRebuildListsMarkFilePath (directory_path s) in
  let list_path := getListFilePath ext (directory_path s) in
  exists s',
    writeLists ext s = (Returned tt, s')
    /\ same_memory s s'
    /\ faults s' = faults s
    /\ log s' = log s
    /\ lists_writing_thread s' = lists_writing_thread s
    /\ lists_writing_thread_is_waiting s' = lists_writing_thread_is_waiting s
    /\ (failed_to_write_lists s = true \/ types_of_lists_to_write s = [] ->
        s' = s)
    /\ (failed_to_write_lists s = false -> types_of_lists_to_write s <> [] ->
        types_of_lists_to_write s' = []
        /\ (failed_to_write_lists s' = true ->
            disk s' !! mark = disk s !! mark
            /\ exists type,
                 type ∈ types_of_lists_to_write s
                 /\ write_fails (faults s) (list_path type) <> WritesAll)
        /\ (failed_to_write_lists s' = false ->
            disk s' !! mark = None
            /\ forall type, type ∈ types_of_lists_to_write s ->
                 (forall type', type' ∈ types_of_lists_to_write s ->
                    list_path type' = list_path type -> type' = type) ->
                 disk s' !! list_path type
                 = Some (render_list ext (listed s type)))).
Proof.
  intros Hok mark list_path.
  destruct (failed_to_write_lists s) eqn:Hfailed.
  { exists s. unfold writeLists. rewrite Hfailed.
    split; [reflexivity |]. split; [apply same_memory_refl |].
    do 4 (split; [reflexivity |]). split; [reflexivity | discriminate]. }
  destruct (types_of_lists_to_write s) as [| type0 rest] eqn:Hset.
  { exists s. unfold writeLists. rewrite Hfailed, Hset.
    split; [reflexivity |]. split; [apply same_memory_refl |].
    do 4 (split; [reflexivity |]). split; [reflexivity | congruence]. }
  destruct (writeLists_loop_effect ext (type0 :: rest) s Hok)
    as (written & s1 & Hloop & Hm & Hf & Hl & Ht & Hw & Hdisk & Hresult).
  pose proof Hm as (E1 & E2 & E3 & E4 & E5).
  exists (if written then
            set_types_of_lists_to_write []
              (set_disk (delete mark (disk s1)) s1)
          else s1).
  split.
  { unfold writeLists. rewrite Hfailed, Hset. unfold bind at 1.
    rewrite Hloop. now destruct written. }
  destruct written.
  - destruct Hresult as (R1 & R2 & R3 & R4). cbn.
    split; [now repeat split |]. do 4 (split; [assumption |]).
    split; [intros [? | ?]; discriminate |]. intros _ _.
    split; [reflexivity |]. split; [congruence |]. intros _.
    split; [apply lookup_delete_eq |].
    intros type Hin Hinj. rewrite lookup_delete_ne.
    + now apply R4.
    + intros Heq. symmetry in Heq.
      now apply (paths_differ ext "" (directory_path s) (directory_path s) 0%N)
        in Heq.
  - destruct Hresult as (R1 & R2 & type & Hin & R3).
    split; [exact Hm |]. do 4 (split; [assumption |]).
    split; [intros [? | ?]; discriminate |]. intros _ _.
    split; [exact R2 |]. split; [| congruence]. intros _. split.
    + apply Hdisk. intros type' _ Heq. symmetry in Heq.
      now apply (paths_differ ext "" (directory_path s) (directory_path s) 0%N)
        in Heq.
    + now exists type.
Qed.

(** [writeLists] with lists to write never throws and never touches the
    members in memory.  Either every list of the set is written, then the
    mark file is removed, the set is cleared and each list file holds the
    pairs of its type (for the types with a file of their own); or a write
    fails, then [failed_to_write_lists] is set, the set is cleared and the
    mark file is left as it was. *)
Theorem writeLists_outcome (ext : Externals) (s : State) :
  index_ok s ->
  failed_to_write_lists s = false ->
  types_of_lists_to_write s <> [] ->
  let mark := getNeedRebuildListsMarkFilePath (directory_path s) in
  let list_path := getListFilePath ext (directory_path s) in
  let result := writeLists ext s in
  result.1 = Returned tt
  /\ same_memory s result.2
  /\ types_of_lists_to_write result.2 = []
  /\ (failed_to_write_lists result.2 = true ->
      disk result.2 !! mark = disk s !! mark
      /\ exists type, type ∈ types_of_lists_to_write s
                      /\ write_fails (faults s) (list_path type) <> WritesAll)
  /\ (failed_to_write_lists result.2 = false ->
      disk result.2 !! mark = None
      /\ forall type, type ∈ types_of_lists_to_write s ->
           (forall type', type' ∈ types_of_lists_to_write s ->
              list_path type' = list_path type -> type' = type) ->
           disk result.2 !! list_path type
           = Some (render_list ext (listed s type))).
Proof.
  intros Hok Hfailed Htypes mark list_path result.
  destruct (writeLists_effect ext s Hok)
    as (s' & Hrun & Hm & _ & _ & _ & _ & _ & Hdone).
  assert (Hresult : result = (Returned tt, s')) by exact Hrun.
  clearbody result. subst result. cbn [fst snd].
  destruct (Hdone Hfailed Htypes) as (D1 & D2 & D3).
  split; [reflexivity |]. split; [exact Hm |]. split; [exact D1 |].
  split; [exact D2 | exact D3].
Qed.

Lemma small_storage_pending :
  failed_to_write_lists small_storage = false
  /\ types_of_lists_to_write small_storage = [0; 1].
Proof. split; vm_compute; reflexivity. Qed.

Lemma writeLists_outcome_witness :
  types_of_lists_to_write (writeLists simple_externals small_storage).2 = [].
Proof.
  destruct small_storage_pending as [Hfailed Hset].
  refine (proj1 (proj2 (proj2
            (writeLists_outcome simple_externals small_storage
               small_storage_index Hfailed _)))).
  rewrite Hset. discriminate.
Defined.

(** ** Scheduling the lists *)

Lemma flat_set_insert_elem (type : AccessEntityType)
    (types : list AccessEntityType) (x : AccessEntityType) :
  x ∈ flat_set_insert type types <-> x = type \/ x ∈ types.
Proof.
  induction types as [| first rest IH]; cbn.
  - rewrite list_elem_of_singleton. split; [now left | intros [H | H]];
      [exact H | now apply elem_of_nil in H].
  - repeat case_decide.
    + now rewrite elem_of_cons.
    + subst. rewrite elem_of_cons. tauto.
    + rewrite !elem_of_cons, IH. tauto.
Qed.

(** [scheduleWriteLists] starts at most one thread.  Unless writing has
    failed before, the type is in the set afterwards and a thread is
    waiting; while a thread is waiting, the call only adds the type to the
    set; else it joins the thread that ran before, if any, creates the
    mark file and starts a thread, in this order. *)
Theorem scheduleWriteLists_starts_one_thread (type : AccessEntityType)
    (s : State) :
  failed_to_write_lists s = false ->
  let mark := getNeedRebuildListsMarkFilePath (directory_path s) in
  let result := scheduleWriteLists type s in
  result.1 = Returned tt
  /\ (forall x, x ∈ types_of_lists_to_write result.2
                <-> x = type \/ x ∈ types_of_lists_to_write s)
  /\ lists_writing_thread_is_waiting result.2 = true
  /\ same_memory s result.2
  /\ (if lists_writing_thread_is_waiting s then
        log result.2 = log s /\ disk result.2 = disk s
        /\ lists_writing_thread result.2 = lists_writing_thread s
      else
        log result.2
        = log s
          ++ (if lists_writing_thread s then [JoinListsWritingThread] else [])
          ++ [StartListsWritingThread]
        /\ lists_writing_thread result.2 = true
        /\ disk result.2
           = if ofstream_fails (faults s) mark then disk s
             else <[mark := ""%string]> (disk s)).
Proof.
  intros Hfailed. cbn zeta. unfold scheduleWriteLists. rewrite Hfailed.
  unfold bind at 1. cbn [modify].
  destruct (lists_writing_thread_is_waiting s) eqn:Hwaiting; cbn.
  - rewrite Hwaiting. cbn.
    split; [reflexivity |].
    split; [intros x; apply flat_set_insert_elem |].
    split; [exact Hwaiting |]. split; [now repeat split |]. now repeat split.
  - rewrite Hwaiting. unfold create_empty_file, when, emit, bind, modify.
    destruct (lists_writing_thread s) eqn:Hthread; cbn;
      destruct (ofstream_fails (faults s) _) eqn:Hstream; cbn;
      (split; [reflexivity |]);
      (split; [intros x; apply flat_set_insert_elem |]);
      (split; [reflexivity |]); (split; [now repeat split |]);
      rewrite <- ?app_assoc; now repeat split.
Qed.

Lemma scheduleWriteLists_starts_one_thread_witness :
  log (scheduleWriteLists 1 (scheduleWriteLists 0 empty_storage).2).2
  = [StartListsWritingThread].
Proof.
  assert (Hfailed : failed_to_write_lists
                      (scheduleWriteLists 0 empty_storage).2 = false)
    by reflexivity.
  pose proof (scheduleWriteLists_starts_one_thread 1
                (scheduleWriteLists 0 empty_storage).2 Hfailed) as H.
  cbn zeta in H. destruct H as (_ & _ & _ & _ & H).
  change (lists_writing_thread_is_waiting
            (scheduleWriteLists 0 empty_storage).2) with true in H.
  destruct H as [H _]. rewrite H. reflexivity.
Defined.

(** ** Reading the lists *)

Lemma readListFile_stored (ext : Externals) (s : State)
    (type : AccessEntityType) :
  is_Some (disk s !! getListFilePath ext (directory_path s) type) ->
  try_catch
    (bind (readListFile ext (getListFilePath ext (directory_path s) type))
       (fun id_name_pairs => ret (Some id_name_pairs)))
    (fun _ => ret None) s
  = (Returned (stored_list ext s type), s).
Proof.
  intros [contents Hfile].
  unfold try_catch, readListFile, read_file, stored_list, bind.
  destruct (read_fails (faults s) _); [reflexivity |].
  rewrite Hfile. now destruct (parse_list ext contents).
Qed.

Lemma stored_list_missing (ext : Externals) (s : State)
    (type : AccessEntityType) :
  disk s !! getListFilePath ext (directory_path s) type = None ->
  stored_list ext s type = None.
Proof.
  intros Hfile. unfold stored_list. rewrite Hfile.
  now destruct (read_fails (faults s) _).
Qed.

(** The first loop of [readLists] changes nothing and gives the triples of
    the list files, if every file can be read. *)
Lemma readLists_loop_reads (ext : Externals) (count type : nat)
    (ids_names_types : list (UUID * string * AccessEntityType)) (s : State) :
  readLists_loop ext count type ids_names_types s
  = (Returned ((fun rest => ids_names_types ++ rest)
               <$> stored_lists ext s count type), s).
Proof.
  revert type ids_names_types.
  induction count as [| count IH]; intros type ids_names_types.
  - cbn. now rewrite app_nil_r.
  - cbn [readLists_loop stored_lists].
    unfold bind at 1. unfold exists_file.
    destruct (disk s !! getListFilePath ext (directory_path s) type)
      as [contents |] eqn:Hfile.
    + rewrite bool_decide_true by eauto. cbn [negb].
      unfold bind at 1. rewrite readListFile_stored by (rewrite Hfile; eauto).
      destruct (stored_list ext s type) as [id_name_pairs |]; [| reflexivity].
      rewrite IH.
      destruct (stored_lists ext s count (S type)) as [rest |]; [| reflexivity].
      cbn. now rewrite app_assoc.
    + rewrite bool_decide_false by (intros [? ?]; discriminate).
      cbn. now rewrite stored_list_missing.
Qed.

Lemma stored_lists_elem (ext : Externals) (s : State) (count type : nat)
    (triples : list (UUID * string * AccessEntityType)) (id : UUID)
    (name : string) (type' : AccessEntityType) :
  stored_lists ext s count type = Some triples ->
  (id, name, type') ∈ triples
  <-> type <= type' < type + count
      /\ exists id_name_pairs,
           stored_list ext s type' = Some id_name_pairs
           /\ (id, name) ∈ id_name_pairs.
Proof.
  revert type triples. induction count as [| count IH]; intros type triples.
  - intros [= <-]. split; [intros H; now apply elem_of_nil in H | lia].
  - cbn [stored_lists].
    destruct (stored_list ext s type) as [id_name_pairs |] eqn:Hlist;
      [| discriminate].
    destruct (stored_lists ext s count (S type)) as [rest |] eqn:Hrest;
      [| discriminate].
    intros [= <-]. rewrite elem_of_app, (IH (S type) rest Hrest).
    rewrite list_elem_of_fmap. split.
    + intros [([id0 name0] & [= -> -> ->] & Hin) | (Hrange & Hin)].
      * split; [lia |]. now exists id_name_pairs.
      * split; [lia | exact Hin].
    + intros (Hrange & pairs & Hpairs & Hin).
      destruct (decide (type' = type)) as [-> | Hne].
      * left. exists (id, name). split; [reflexivity |]. congruence.
      * right. split; [lia |]. now exists pairs.
Qed.

Lemma stored_lists_none (ext : Externals) (s : State) (count type : nat) :
  stored_lists ext s count type = None ->
  exists type', type <= type' < type + count
                /\ stored_list ext s type' = None.
Proof.
  revert type. induction count as [| count IH]; intros type; [discriminate |].
  cbn [stored_lists].
  destruct (stored_list ext s type) as [id_name_pairs |] eqn:Hlist.
  - destruct (stored_lists ext s count (S type)) as [rest |] eqn:Hrest;
      [discriminate |].
    intros _. destruct (IH _ Hrest) as (type' & Hrange & Hnone).
    exists type'. split; [lia | exact Hnone].
  - intros _. exists type. split; [lia | exact Hlist].
Qed.

Lemma stored_lists_some (ext : Externals) (s : State) (count type : nat)
    (triples : list (UUID * string * AccessEntityType)) (type' : nat) :
  stored_lists ext s count type = Some triples ->
  type <= type' < type + count ->
  exists id_name_pairs, stored_list ext s type' = Some id_name_pairs.
Proof.
  revert type triples. induction count as [| count IH]; intros type triples;
    [lia |].
  cbn [stored_lists].
  destruct (stored_list ext s type) as [id_name_pairs |] eqn:Hlist;
    [| discriminate].
  destruct (stored_lists ext s count (S type)) as [rest |] eqn:Hrest;
    [| discriminate].
  intros _ Hrange. destruct (decide (type' = type)) as [-> | Hne].
  - now exists id_name_pairs.
  - apply (IH (S type) rest Hrest). lia.
Qed.

(** What the last loop of [readLists] builds holds nothing but the
    triples: every entry and every name comes from one of them. *)
Lemma load_entries_sound
    (triples : list (UUID * string * AccessEntityType)) (s0 : State) :
  entries_by_id s0 = ∅ ->
  (forall type, entries_by_name_and_type s0 type = ∅) ->
  let s' := fold_left load_entry triples s0 in
  (forall id entry, entries_by_id s' !! id = Some entry ->
     entry_id entry = id /\ entry_entity entry = None
     /\ (id, entry_name entry, entry_type entry) ∈ triples)
  /\ (forall type name pointer,
        entries_by_name_and_type s' type !! name = Some pointer ->
        (pointer, name, type) ∈ triples)
  /\ same_disk s0 s'
  /\ readonly s' = readonly s0
  /\ directory_path s' = directory_path s0
  /\ log s' = log s0.
Proof.
  intros Hentries Hnames. cbn zeta.
  induction triples as [| [[id name] type] triples IH] using rev_ind.
  - cbn. rewrite Hentries.
    split; [intros id entry H; now rewrite lookup_empty in H |].
    split; [intros type name pointer H; now rewrite Hnames, lookup_empty in H |].
    now repeat split.
  - rewrite fold_left_app. cbn [fold_left].
    set (s1 := fold_left load_entry triples s0) in *.
    destruct IH as (IH1 & IH2 & (D1 & D2 & D3 & D4 & D5 & D6) & IH4 & IH5 & IH6).
    unfold load_entry. cbn.
    split; [| split].
    + intros id' entry' Hin.
      apply lookup_insert_Some in Hin as [[<- <-] | [Hne Hin]].
      * cbn. split; [reflexivity |]. split.
        -- destruct (entries_by_id s1 !! id) as [entry |] eqn:Hold;
             [| reflexivity].
           now destruct (IH1 _ _ Hold) as (_ & ? & _).
        -- apply elem_of_app. right. left.
      * destruct (IH1 _ _ Hin) as (K1 & K2 & K3).
        split; [exact K1 |]. split; [exact K2 |].
        apply elem_of_app. now left.
    + intros type' name' pointer. unfold with_names, entries_by_name. cbn.
      case_decide as Htype.
      * subst type'. intros Hin.
        apply lookup_insert_Some in Hin as [[<- <-] | [Hne Hin]].
        -- apply elem_of_app. right. left.
        -- apply elem_of_app. left. now apply IH2.
      * intros Hin. apply elem_of_app. left. now apply IH2.
    + now repeat split.
Qed.

(** [readLists] loads all the lists or none.  It never throws.  When a
    list file of a type below [MAX] is missing or cannot be read or parsed
    it returns [false] and leaves the storage exactly as it was; else it
    returns [true], the disk is as it was, and memory holds nothing but
    what the list files say: every entry, stored under its id and without
    its entity, and every name pointing to an id are a pair of the list
    file of their type. *)
Theorem readLists_all_or_nothing (ext : Externals) (s : State) :
  let result := readLists ext s in
  (result = (Returned false, s)
   /\ exists type, type < MAX ext /\ stored_list ext s type = None)
  \/ (result.1 = Returned true
      /\ same_disk s result.2
      /\ (forall type, type < MAX ext ->
            exists id_name_pairs,
              stored_list ext s type = Some id_name_pairs)
      /\ (forall id entry, entries_by_id result.2 !! id = Some entry ->
            entry_id entry = id /\ entry_entity entry = None
            /\ entry_type entry < MAX ext
            /\ exists id_name_pairs,
                 stored_list ext s (entry_type entry) = Some id_name_pairs
                 /\ (id, entry_name entry) ∈ id_name_pairs)
      /\ (forall type name pointer,
            entries_by_name result.2 type !! name = Some pointer ->
            type < MAX ext
            /\ exists id_name_pairs,
                 stored_list ext s type = Some id_name_pairs
                 /\ (pointer, name) ∈ id_name_pairs)).
Proof.
  intros result.
  assert (Hrun : result
                 = match stored_lists ext s (MAX ext) 0 with
                   | None => (Returned false, s)
                   | Some triples =>
                       (Returned true,
                        fold_left load_entry triples
                          (set_entries_by_name_and_type (fun _ => ∅)
                             (set_entries_by_id ∅ s)))
                   end).
  { subst result. unfold readLists. unfold bind at 1.
    rewrite readLists_loop_reads.
    destruct (stored_lists ext s (MAX ext) 0) as [triples |]; [| reflexivity].
    reflexivity. }
  clearbody result. subst result.
  destruct (stored_lists ext s (MAX ext) 0) as [triples |] eqn:Hstored.
  - right. cbn [fst snd].
    destruct (load_entries_sound triples
                (set_entries_by_name_and_type (fun _ => ∅)
                   (set_entries_by_id ∅ s)) eq_refl (fun _ => eq_refl))
      as (L1 & L2 & L3 & _).
    split; [reflexivity |]. split; [exact L3 |].
    split.
    { intros type Htype.
      apply (stored_lists_some ext s (MAX ext) 0 triples type Hstored). lia. }
    split.
    + intros id entry Hin. destruct (L1 _ _ Hin) as (K1 & K2 & K3).
      apply (stored_lists_elem ext s _ _ _ _ _ _ Hstored) in K3
        as (Hrange & pairs & Hpairs & Hin').
      split; [exact K1 |]. split; [exact K2 |]. split; [lia |].
      now exists pairs.
    + intros type name pointer Hin. apply L2 in Hin.
      apply (stored_lists_elem ext s _ _ _ _ _ _ Hstored) in Hin
        as (Hrange & pairs & Hpairs & Hin').
      split; [lia |]. now exists pairs.
  - left. split; [reflexivity |].
    destruct (stored_lists_none _ _ _ _ Hstored) as (type & Hrange & Hnone).
    exists type. split; [lia | exact Hnone].
Qed.

(** ** The lists across a restart *)

(** With triples that give each id one name and type, and each name of a
    type one id, the last loop of [readLists] builds an entry and a
    pointer for every triple. *)
Lemma load_entries_complete
    (triples : list (UUID * string * AccessEntityType)) (s0 : State) :
  entries_by_id s0 = ∅ ->
  (forall type, entries_by_name_and_type s0 type = ∅) ->
  (forall id name type name' type',
     (id, name, type) ∈ triples -> (id, name', type') ∈ triples ->
     name = name' /\ type = type') ->
  (forall id id' name type,
     (id, name, type) ∈ triples -> (id', name, type) ∈ triples -> id = id') ->
  let s' := fold_left load_entry triples s0 in
  forall id name type, (id, name, type) ∈ triples ->
    entries_by_id s' !! id = Some (mkEntry id name type None)
    /\ entries_by_name_and_type s' type !! name = Some id.
Proof.
  intros Hentries Hnames. cbn zeta.
  induction triples as [| [[id0 name0] type0] triples IH] using rev_ind;
    intros Hid Hname id name type Hin.
  - now apply elem_of_nil in Hin.
  - rewrite fold_left_app. cbn [fold_left].
    pose proof (load_entries_sound triples s0 Hentries Hnames)
      as (S1 & _).
    cbn zeta in S1.
    set (s1 := fold_left load_entry triples s0) in *.
    assert (IH' : forall id name type, (id, name, type) ∈ triples ->
              entries_by_id s1 !! id = Some (mkEntry id name type None)
              /\ entries_by_name_and_type s1 type !! name = Some id).
    { apply IH.
      - intros i n t n' t' H1 H2.
        apply (Hid i); apply elem_of_app; now left.
      - intros i i' n t H1 H2.
        apply (Hname i i' n t); apply elem_of_app; now left. }
    assert (Hlast : (id0, name0, type0) ∈ triples ++ [(id0, name0, type0)])
      by (apply elem_of_app; right; left).
    unfold load_entry. cbn. unfold with_names, entries_by_name. cbn.
    destruct (decide (id = id0)) as [-> | Hne].
    + destruct (Hid id0 name type name0 type0 Hin Hlast) as [-> ->].
      rewrite lookup_insert_eq, decide_True, lookup_insert_eq by reflexivity.
      split; [| reflexivity]. f_equal. f_equal.
      destruct (entries_by_id s1 !! id0) as [entry |] eqn:Hold; [| reflexivity].
      now destruct (S1 _ _ Hold) as (_ & ? & _).
    + rewrite lookup_insert_ne by congruence.
      apply elem_of_app in Hin as [Hin | Hin].
      2: { apply list_elem_of_singleton in Hin. congruence. }
      destruct (IH' _ _ _ Hin) as [K1 K2]. split; [exact K1 |].
      case_decide as Htype; [| exact K2].
      subst type0. rewrite lookup_insert_ne; [exact K2 |].
      intros <-. apply Hne.
      apply (Hname id id0 name0 type); [| exact Hlast].
      apply elem_of_app. now left.
Qed.

Lemma listed_elem (s : State) (type : AccessEntityType) (id : UUID)
    (name : string) :
  (id, name) ∈ listed s type <-> entries_by_name s type !! name = Some id.
Proof.
  unfold listed. rewrite list_elem_of_fmap. split.
  - intros ([name' pointer] & [= -> ->] & Hin).
    now apply elem_of_map_to_list in Hin.
  - intros Hin. exists (name, id). split; [reflexivity |].
    now apply elem_of_map_to_list.
Qed.

(** The lists survive a restart.  Let the two maps describe the same
    entries, all of a type below [MAX], let all lists be due and the file
    system not fail on them, the list files of different types differ and
    each reading primitive invert its writing primitive.  Then [readLists]
    after [writeLists] returns [true] and rebuilds the two maps as they
    were: the same ids with the same names and types (the entities are
    not loaded), and the same names pointing to the same ids. *)
Theorem lists_survive_restart (ext : Externals) (s : State) :
  readers_invert_writers ext ->
  index_ok s ->
  failed_to_write_lists s = false ->
  0 < MAX ext ->
  (forall type, type ∈ types_of_lists_to_write s <-> type < MAX ext) ->
  (forall id entry, entries_by_id s !! id = Some entry ->
     entry_type entry < MAX ext) ->
  (forall type, type < MAX ext ->
     write_fails (faults s) (getListFilePath ext (directory_path s) type)
     = WritesAll
     /\ read_fails (faults s) (getListFilePath ext (directory_path s) type)
        = false) ->
  (forall type type', type < MAX ext -> type' < MAX ext ->
     getListFilePath ext (directory_path s) type
     = getListFilePath ext (directory_path s) type' ->
     type = type') ->
  let restarted := readLists ext (writeLists ext s).2 in
  restarted.1 = Returned true
  /\ (forall id,
        entries_by_id restarted.2 !! id
        = (fun entry =>
             mkEntry (entry_id entry) (entry_name entry) (entry_type entry)
               None)
          <$> entries_by_id s !! id)
  /\ (forall type, entries_by_name restarted.2 type = entries_by_name s type).
Proof.
  intros Hext Hok Hfailed Hmax Hdue Htyped Hfs Hpaths restarted.
  pose proof Hok as [H1 H2].
  (* the lists are written *)
  destruct (writeLists_loop_effect ext (types_of_lists_to_write s) s Hok)
    as (written & s1 & Hloop & Hm & Hf & _ & _ & _ & _ & Hresult).
  destruct written.
  2: { destruct Hresult as (_ & _ & type & Hin & Hfault).
       apply Hdue in Hin. now destruct (Hfs _ Hin). }
  destruct Hresult as (_ & _ & _ & Hfiles).
  pose proof Hm as (E1 & E2 & E3 & E4 & E5).
  set (mark := getNeedRebuildListsMarkFilePath (directory_path s)).
  assert (Hwritten : writeLists ext s
                     = (Returned tt,
                        set_types_of_lists_to_write []
                          (set_disk (delete mark (disk s1)) s1))).
  { unfold writeLists. rewrite Hfailed.
    destruct (types_of_lists_to_write s) as [| type0 rest] eqn:Hset.
    - assert (H0 : 0 ∈ @nil AccessEntityType) by now apply Hdue.
      now apply elem_of_nil in H0.
    - unfold bind at 1. now rewrite Hloop. }
  subst restarted. rewrite Hwritten. cbn [snd].
  set (s2 := set_types_of_lists_to_write [] _).
  (* every list file holds the pairs in memory *)
  assert (Hstored : forall type, type < MAX ext ->
            stored_list ext s2 type = Some (listed s type)).
  { intros type Htype. unfold stored_list. subst s2. cbn.
    rewrite E4, Hf. destruct (Hfs _ Htype) as [_ ->].
    rewrite lookup_delete_ne.
    - rewrite Hfiles.
      + now apply parse_rendered_list.
      + now apply Hdue.
      + intros type' Hin' Heq. apply Hpaths; [now apply Hdue | exact Htype |
                                               exact Heq].
    - intros Heq. symmetry in Heq.
      now apply (paths_differ ext "" (directory_path s) (directory_path s) 0%N)
        in Heq. }
  destruct (stored_lists ext s2 (MAX ext) 0) as [triples |] eqn:Hall.
  2: { destruct (stored_lists_none _ _ _ _ Hall) as (type & Hrange & Hnone).
       rewrite Hstored in Hnone by lia. discriminate. }
  assert (Htriples : forall id name type,
            (id, name, type) ∈ triples
            <-> type < MAX ext /\ entries_by_name s type !! name = Some id).
  { intros id name type.
    rewrite (stored_lists_elem ext s2 _ _ _ id name type Hall). split.
    - intros (Hrange & pairs & Hpairs & Hin).
      rewrite Hstored in Hpairs by lia. injection Hpairs as <-.
      split; [lia |]. now apply listed_elem.
    - intros (Hrange & Hin). split; [lia |].
      exists (listed s type). split; [now apply Hstored |].
      now apply listed_elem. }
  assert (Hrun : readLists ext s2
                 = (Returned true,
                    fold_left load_entry triples
                      (set_entries_by_name_and_type (fun _ => ∅)
                         (set_entries_by_id ∅ s2)))).
  { unfold readLists. unfold bind at 1. rewrite readLists_loop_reads, Hall.
    reflexivity. }
  rewrite Hrun. cbn [fst snd].
  set (s0 := set_entries_by_name_and_type _ _).
  destruct (load_entries_sound triples s0 eq_refl (fun _ => eq_refl))
    as (L1 & L2 & _).
  pose proof (load_entries_complete triples s0 eq_refl (fun _ => eq_refl))
    as Lcomplete.
  cbn zeta in *.
  assert (Lc : forall id name type, (id, name, type) ∈ triples ->
            entries_by_id (fold_left load_entry triples s0) !! id
            = Some (mkEntry id name type None)
            /\ entries_by_name_and_type (fold_left load_entry triples s0) type
               !! name = Some id).
  { apply Lcomplete.
    - intros id name type name' type' K1 K2.
      apply Htriples in K1 as [_ K1]. apply Htriples in K2 as [_ K2].
      destruct (H2 _ _ _ K1) as (entry & Hentry & <- & <-).
      destruct (H2 _ _ _ K2) as (entry' & Hentry' & <- & <-).
      rewrite Hentry in Hentry'. injection Hentry' as <-. now split.
    - intros id id' name type K1 K2.
      apply Htriples in K1 as [_ K1]. apply Htriples in K2 as [_ K2].
      unfold entries_by_name in *. congruence. }
  split; [reflexivity |]. split.
  - intros id. destruct (entries_by_id s !! id) as [entry |] eqn:Hin; cbn.
    + destruct (H1 _ _ Hin) as [Hid Hname].
      destruct (Lc id (entry_name entry) (entry_type entry)) as [K _].
      { apply Htriples. split; [now apply (Htyped id) | exact Hname]. }
      now rewrite K, Hid.
    + destruct (entries_by_id (fold_left load_entry triples s0) !! id)
        as [entry |] eqn:Hloaded; [| reflexivity].
      destruct (L1 _ _ Hloaded) as (_ & _ & K).
      apply Htriples in K as [_ K].
      destruct (H2 _ _ _ K) as (entry' & Hentry' & _). congruence.
  - intros type. apply map_eq. intros name. unfold entries_by_name.
    destruct (entries_by_name_and_type s type !! name) as [id |] eqn:Hin.
    + destruct (H2 _ _ _ Hin) as (entry & Hentry & <- & <-).
      destruct (Lc id (entry_name entry) (entry_type entry)) as [_ K].
      { apply Htriples. split; [now apply (Htyped id) | exact Hin]. }
      exact K.
    + destruct (entries_by_name_and_type (fold_left load_entry triples s0) type
                !! name) as [id |] eqn:Hloaded; [| reflexivity].
      apply L2, Htriples in Hloaded as [_ K].
      unfold entries_by_name in K. congruence.
Qed.

Lemma small_storage_typed (id : UUID) (entry : Entry) :
  entries_by_id small_storage !! id = Some entry -> entry_type entry < 2.
Proof.
  intros Hin. apply elem_of_map_to_list in Hin.
  pose proof (proj1 small_storage_state) as Hstate.
  assert (Hlisted : (id, entry)
                    ∈ [(2%N, mkEntry 2%N "admin" 1 (Some admin));
                       (1%N, mkEntry 1%N "alice" 0 (Some alice))])
    by (rewrite <- Hstate; exact Hin).
  apply elem_of_cons in Hlisted as [[= -> ->] | Hlisted]; [cbn; lia |].
  apply list_elem_of_singleton in Hlisted as [= -> ->]. cbn. lia.
Qed.

Lemma lists_survive_restart_witness :
  (readLists simple_externals (writeLists simple_externals small_storage).2).1
  = Returned true.
Proof.
  destruct small_storage_pending as [Hfailed Hset].
  refine (proj1 (lists_survive_restart simple_externals small_storage
                   simple_externals_invert small_storage_index Hfailed
                   _ _ small_storage_typed _ _)).
  - cbn. lia.
  - intros type. rewrite Hset, !elem_of_cons. cbn. split.
    + intros [-> | [-> | H]]; [lia | lia | now apply elem_of_nil in H].
    + intros Htype. destruct type as [| [| type]]; [now left | | lia].
      right. now left.
  - intros type _. split; reflexivity.
  - intros type type' Htype Htype' Heq. cbn in Htype, Htype'.
    destruct type as [| [| type]], type' as [| [| type']]; try lia;
      try reflexivity; vm_compute in Heq; discriminate.
Defined.

(** ** [removeAllExceptInMemory] *)

Lemma removeNoLock_in_memory (ext : Externals) (id : UUID)
    (throw_if_not_exists : bool) (s : State) (entry : Entry) :
  entries_by_id s !! id = Some entry -> readonly s = false ->
  exists s',
    removeNoLock ext id throw_if_not_exists false s = (Returned true, s')
    /\ readonly s' = false
    /\ same_disk s s'
    /\ entries_by_id s' = delete id (entries_by_id s)
    /\ entries_by_name_and_type s'
       = with_names (entries_by_name_and_type s) (entry_type entry)
           (delete (entry_name entry)
              (entries_by_name_and_type s (entry_type entry))).
Proof.
  intros Hin Hro. unfold removeNoLock. rewrite Hin, Hro. cbn.
  eexists. split; [reflexivity |]. cbn. now repeat split.
Qed.

Lemma removeAllExceptInMemory_loop_effect (ext : Externals)
    (ids ids_to_keep : list UUID) (s : State) :
  index_ok s -> readonly s = false -> NoDup ids ->
  (forall id, id ∈ ids -> is_Some (entries_by_id s !! id)) ->
  exists s',
    removeAllExceptInMemory_loop ext ids ids_to_keep s = (Returned tt, s')
    /\ index_ok s'
    /\ readonly s' = false
    /\ same_disk s s'
    /\ (forall id,
          entries_by_id s' !! id
          = if decide (id ∈ ids /\ id ∉ ids_to_keep) then None
            else entries_by_id s !! id).
Proof.
  revert s. induction ids as [| id rest IH]; intros s Hok Hro Hnodup Hall.
  - exists s. split; [reflexivity |]. split; [exact Hok |].
    split; [exact Hro |]. split; [now repeat split |].
    intros id. rewrite decide_False; [reflexivity |].
    intros [H _]. now apply elem_of_nil in H.
  - apply NoDup_cons in Hnodup as [Hfresh Hnodup].
    cbn [removeAllExceptInMemory_loop]. unfold bind at 1.
    case_bool_decide as Hkeep.
    + cbn [ret].
      destruct (IH s Hok Hro Hnodup) as (s' & -> & Hok' & Hro' & Hd & Hentries).
      { intros id' Hin. apply Hall. now right. }
      exists s'. split; [reflexivity |]. split; [exact Hok' |].
      split; [exact Hro' |]. split; [exact Hd |].
      intros id'. rewrite Hentries.
      destruct (decide (id' ∈ rest /\ id' ∉ ids_to_keep)) as [[K1 K2] | K].
      * rewrite decide_True; [reflexivity |]. split; [now right | exact K2].
      * rewrite decide_False; [reflexivity |].
        intros [K1 K2]. apply elem_of_cons in K1 as [-> | K1];
          [contradiction | now apply K].
    + destruct (Hall id) as [entry Hentry]; [left |].
      unfold bind at 1.
      destruct (removeNoLock_in_memory ext id true s entry Hentry Hro)
        as (s1 & -> & Hro1 & Hd1 & He & Hn).
      cbn [ret].
      destruct (IH s1) as (s' & -> & Hok' & Hro' & Hd & Hentries).
      { now apply (index_step_erase s s1 id entry). }
      { exact Hro1. }
      { exact Hnodup. }
      { intros id' Hin. rewrite He, lookup_delete_ne by congruence.
        apply Hall. now right. }
      exists s'. split; [reflexivity |]. split; [exact Hok' |].
      split; [exact Hro' |].
      split.
      { destruct Hd1 as (A1 & A2 & A3 & A4 & A5 & A6).
        destruct Hd as (B1 & B2 & B3 & B4 & B5 & B6).
        repeat split; congruence. }
      intros id'. rewrite Hentries, He.
      destruct (decide (id' = id)) as [-> | Hne].
      * rewrite lookup_delete_eq.
        rewrite (decide_True (P := id ∈ id :: rest /\ id ∉ ids_to_keep));
          [now case_decide |].
        split; [left | exact Hkeep].
      * rewrite lookup_delete_ne by congruence.
        destruct (decide (id' ∈ rest /\ id' ∉ ids_to_keep)) as [[K1 K2] | K].
        -- rewrite decide_True; [reflexivity |]. split; [now right | exact K2].
        -- rewrite decide_False; [reflexivity |].
           intros [K1 K2]. apply elem_of_cons in K1 as [-> | K1];
             [contradiction | now apply K].
Qed.

(** [removeAllExceptInMemory] removes from a writable storage exactly the
    entries whose id is not to be kept: it returns, the entries to keep
    are as they were, the others are gone together with their names (the
    two maps still describe the same entries), and the disk is not
    touched. *)
Theorem removeAllExceptInMemory_keeps (ext : Externals)
    (ids_to_keep : list UUID) (s : State) :
  index_ok s -> readonly s = false ->
  let result := removeAllExceptInMemory ext ids_to_keep s in
  result.1 = Returned tt
  /\ index_ok result.2
  /\ same_disk s result.2
  /\ (forall id,
        entries_by_id result.2 !! id
        = if decide (id ∈ ids_to_keep) then entries_by_id s !! id else None).
Proof.
  intros Hok Hro result.
  destruct (removeAllExceptInMemory_loop_effect ext
              ((map_to_list (entries_by_id s)).*1) ids_to_keep s Hok Hro)
    as (s' & Hrun & Hok' & _ & Hd & Hentries).
  { apply NoDup_fst_map_to_list. }
  { intros id Hin. apply list_elem_of_fmap in Hin as ([id' entry] & -> & Hin).
    apply elem_of_map_to_list in Hin. cbn. eauto. }
  assert (Hresult : result = (Returned tt, s')) by exact Hrun.
  clearbody result. subst result. cbn [fst snd].
  split; [reflexivity |]. split; [exact Hok' |]. split; [exact Hd |].
  intros id. rewrite Hentries.
  destruct (decide (id ∈ ids_to_keep)) as [Hkeep | Hkeep].
  - rewrite decide_False; [reflexivity |]. now intros [_ ?].
  - destruct (entries_by_id s !! id) as [entry |] eqn:Hin.
    + rewrite decide_True; [reflexivity |]. split; [| exact Hkeep].
      apply list_elem_of_fmap. exists (id, entry). split; [reflexivity |].
      now apply elem_of_map_to_list.
    + now case_decide.
Qed.

Lemma removeAllExceptInMemory_keeps_witness :
  entries_by_id (removeAllExceptInMemory simple_externals [2%N] small_storage).2
  !! 1%N
  = None.
Proof.
  assert (Hro : readonly small_storage = false) by reflexivity.
  rewrite (proj2 (proj2 (proj2
             (removeAllExceptInMemory_keeps simple_externals [2%N]
                small_storage small_storage_index Hro)))).
  reflexivity.
Defined.

(** ** More on files and lookups *)

(** What [writeEntityFile] wrote, [readEntityFile] reads back: provided
    the deserializer inverts the serializer on the entity, the temporary
    path differs from the path and the file system does not fail on the
    two, the entity read (by [readEntityFile] as by [tryReadEntityFile])
    after the write is the entity written. *)
Theorem entity_file_round_trip (ext : Externals) (file_path : string)
    (entity : AccessEntity) (s : State) :
  deserializeAccessEntity ext (serializeAccessEntity ext entity) = Some entity ->
  let tmp_file_path := replace_extension ext file_path ".tmp" in
  tmp_file_path <> file_path ->
  write_fails (faults s) tmp_file_path = WritesAll ->
  rename_fails (faults s) tmp_file_path file_path = false ->
  read_fails (faults s) file_path = false ->
  exists s',
    writeEntityFile ext file_path entity s = (Returned tt, s')
    /\ readEntityFile ext file_path s' = (Returned entity, s')
    /\ tryReadEntityFile ext file_path s' = (Returned (Some entity), s').
Proof.
  intros Hcodec tmp Htmp Hwrite Hrename Hread. subst tmp.
  set (s' := set_disk
               (<[file_path := serializeAccessEntity ext entity]>
                  (delete (replace_extension ext file_path ".tmp")
                     (<[replace_extension ext file_path ".tmp" :=
                          serializeAccessEntity ext entity]> (disk s))))
               s).
  assert (Hback : readEntityFile ext file_path s' = (Returned entity, s')).
  { unfold readEntityFile, read_file, bind. subst s'. cbn.
    now rewrite Hread, lookup_insert_eq, Hcodec. }
  exists s'. split; [| split; [exact Hback |]].
  - unfold writeEntityFile, write_file, rename_file, bind.
    rewrite Hwrite. cbn. now rewrite Hrename, lookup_insert_eq.
  - unfold tryReadEntityFile, try_catch, bind. now rewrite Hback.
Qed.

Lemma read_write_entity (entity : AccessEntity) :
  read_entity (write_entity entity) = Some entity.
Proof.
  unfold read_entity, write_entity.
  rewrite read_write_unary. unfold read_string, write_string.
  rewrite append_assoc, read_write_unary, split_string_append.
  now destruct entity.
Qed.

Lemma entity_file_round_trip_witness :
  exists s',
    writeEntityFile simple_externals "/access/11110.sql" bob empty_storage
    = (Returned tt, s')
    /\ readEntityFile simple_externals "/access/11110.sql" s'
       = (Returned bob, s')
    /\ tryReadEntityFile simple_externals "/access/11110.sql" s'
       = (Returned (Some bob), s').
Proof.
  apply (entity_file_round_trip simple_externals "/access/11110.sql" bob
           empty_storage (read_write_entity bob)).
  - discriminate.
  - reflexivity.
  - reflexivity.
  - reflexivity.
Defined.

Lemma scheduleWriteLists_disk (type : AccessEntityType) (s : State)
    (path : string) :
  path <> getNeedRebuildListsMarkFilePath (directory_path s) ->
  disk (scheduleWriteLists type s).2 !! path = disk s !! path
  /\ (failed_to_write_lists s = false ->
      type ∈ types_of_lists_to_write (scheduleWriteLists type s).2).
Proof.
  intros Hpath.
  unfold scheduleWriteLists, create_empty_file, when, emit, bind, modify, ret.
  destruct (failed_to_write_lists s); [split; [reflexivity | discriminate] |].
  cbn. destruct (lists_writing_thread_is_waiting s); cbn.
  - split; [reflexivity |]. intros _. apply flat_set_insert_elem. now left.
  - destruct (lists_writing_thread s); cbn;
      destruct (ofstream_fails _ _); cbn;
      (split; [try reflexivity; now rewrite lookup_insert_ne by congruence |]);
      intros _; apply flat_set_insert_elem; now left.
Qed.

(** Removing an entry whose file is missing fails and keeps the entry.
    With [write_on_disk], in a writable storage, when there is no file of
    the entry's id, [removeNoLock] throws [FILE_DOESNT_EXIST] naming the
    file; nothing in memory changes, so the entry and its name stay; but
    the list of its type has been scheduled already. *)
Theorem removeNoLock_missing_file (ext : Externals) (id : UUID)
    (throw_if_not_exists : bool) (s : State) (entry : Entry) :
  entries_by_id s !! id = Some entry ->
  readonly s = false ->
  disk s !! getEntityFilePath ext (directory_path s) id = None ->
  let file_path := getEntityFilePath ext (directory_path s) id in
  let result := removeNoLock ext id throw_if_not_exists true s in
  result.1
  = Thrown (DBException
              (mkException FILE_DOESNT_EXIST ("Couldn't delete " +:+ file_path)))
  /\ same_memory s result.2
  /\ (failed_to_write_lists s = false ->
      entry_type entry ∈ types_of_lists_to_write result.2).
Proof.
  intros Hin Hro Hfile file_path result.
  destruct (scheduleWriteLists_returns (entry_type entry) s)
    as (s1 & Hschedule & Hm1).
  pose proof Hm1 as (E1 & E2 & E3 & E4 & E5).
  destruct (scheduleWriteLists_disk (entry_type entry) s
              (getEntityFilePath ext (directory_path s) id)) as [Hdisk Htype].
  { apply (paths_differ ext (directory_path s) "" (directory_path s) id 0). }
  rewrite Hschedule in Hdisk, Htype. cbn [snd] in Hdisk, Htype.
  assert (Hrun : result
                 = (Thrown (DBException
                              (mkException FILE_DOESNT_EXIST
                                 ("Couldn't delete " +:+ file_path))),
                    set_disk (delete file_path (disk s1)) s1)).
  { subst result file_path. unfold removeNoLock. rewrite Hin, Hro.
    unfold when, bind. rewrite Hschedule.
    unfold deleteAccessEntityOnDisk, remove_file, bind. cbn.
    rewrite E4, Hdisk, Hfile.
    rewrite bool_decide_false by (intros [? ?]; discriminate).
    reflexivity. }
  clearbody result. subst result. cbn [fst snd].
  split; [reflexivity |]. split; [now repeat split |]. exact Htype.
Qed.

Lemma removeNoLock_missing_file_witness :
  (removeNoLock simple_externals 1%N true true
     (set_disk ∅ small_storage)).1
  = Thrown (DBException
              (mkException FILE_DOESNT_EXIST
                 "Couldn't delete /access/10.sql")).
Proof.
  refine (proj1 (removeNoLock_missing_file simple_externals 1%N true
                   (set_disk ∅ small_storage)
                   (mkEntry 1%N "alice" 0 (Some alice)) _ _ _)).
  - vm_compute. reflexivity.
  - reflexivity.
  - reflexivity.
Defined.

(** The two lookups answer alike.  In a state where the two maps describe
    the same entries, [findImpl] never dereferences a dangling pointer,
    and it finds an id for a type and a name exactly when
    [readNameWithTypeImpl] gives this name and type for the id; [exists]
    then says the id is there. *)
Theorem find_and_name_agree (s : State) (type : AccessEntityType)
    (name : string) (id : UUID) :
  index_ok s ->
  (findImpl type name s).1 <> Undefined
  /\ ((findImpl type name s).1 = Returned (Some id)
      <-> (readNameWithTypeImpl id false s).1 = Returned (Some (name, type)))
  /\ ((findImpl type name s).1 = Returned (Some id) ->
      (exists_ id s).1 = Returned true).
Proof.
  intros [H1 H2].
  unfold findImpl, readNameWithTypeImpl, exists_, lock_guard, dereference.
  cbn.
  destruct (entries_by_name_and_type s type !! name) as [pointer |] eqn:Hname.
  - destruct (H2 _ _ _ Hname) as (entry & Hentry & Htype & Hn).
    destruct (H1 _ _ Hentry) as [Hid _].
    rewrite Hentry. cbn.
    split; [discriminate |]. split.
    + split.
      * intros [= <-]. rewrite Hid, Hentry. cbn. congruence.
      * destruct (entries_by_id s !! id) as [entry' |] eqn:Hentry';
          [| discriminate].
        cbn. intros [= <- <-].
        destruct (H1 _ _ Hentry') as [_ Hname'].
        rewrite Hname in Hname'. congruence.
    + intros [= <-]. rewrite Hid, Hentry. reflexivity.
  - cbn.
    split; [discriminate |]. split; [| discriminate].
    split; [discriminate |].
    destruct (entries_by_id s !! id) as [entry' |] eqn:Hentry';
      [| discriminate].
    cbn. intros [= <- <-].
    destruct (H1 _ _ Hentry') as [_ Hname']. congruence.
Qed.

Lemma find_and_name_agree_witness :
  (readNameWithTypeImpl 2%N false small_storage).1
  = Returned (Some ("admin"%string, 1)).
Proof.
  apply (proj1 (proj2 (find_and_name_agree small_storage 1 "admin" 2%N
                         small_storage_index))).
  vm_compute. reflexivity.
Defined.

(** ** [shutdown] *)

Lemma lists_written_same (ext : Externals) (s s' : State) :
  same_memory s s' -> faults s' = faults s -> disk s' = disk s ->
  types_of_lists_to_write s' = types_of_lists_to_write s ->
  failed_to_write_lists s' = failed_to_write_lists s ->
  lists_written ext s s'.
Proof.
  intros Hm Hf Hd Ht Hfailed. split; [exact Hm |]. split; [exact Hf |].
  left. now repeat split.
Qed.

Lemma listed_same (s s' : State) (type : AccessEntityType) :
  same_memory s s' -> listed s' type = listed s type.
Proof. intros (_ & E2 & _). unfold listed, entries_by_name. now rewrite E2. Qed.

Lemma lists_written_trans (ext : Externals) (s1 s2 s3 : State) :
  lists_written ext s1 s2 -> lists_written ext s2 s3 ->
  (failed_to_write_lists s2 = true \/ types_of_lists_to_write s2 = [] ->
   disk s3 = disk s2
   /\ types_of_lists_to_write s3 = types_of_lists_to_write s2
   /\ failed_to_write_lists s3 = failed_to_write_lists s2) ->
  lists_written ext s1 s3.
Proof.
  intros (Hm12 & Hf12 & H12) (Hm23 & Hf23 & H23) Hidle.
  pose proof Hm12 as (_ & _ & _ & Hdir & _).
  unfold lists_written in *. rewrite Hdir in H23.
  split; [now apply (same_memory_trans s1 s2 s3) |].
  split; [congruence |].
  destruct H12 as [(D & T & F) | [(F1 & T1 & F2 & T2 & D) | (F1 & T1 & F2 & T2 & D & L)]].
  - rewrite D, T, F in H23.
    destruct H23 as [(D' & T' & F') | [(G1 & G2 & G3 & G4 & G5) | (G1 & G2 & G3 & G4 & G5 & G6)]].
    + left. split; [congruence |]. split; congruence.
    + right. left. now repeat split.
    + right. right. do 5 (split; [assumption |]).
      intros type Hin Hinj. rewrite <- (listed_same s1 s2 type Hm12).
      now apply G6.
  - destruct (Hidle (or_introl F2)) as (D' & T' & F').
    right. left. do 2 (split; [assumption |]).
    split; [congruence |]. split; [congruence |]. congruence.
  - destruct (Hidle (or_intror T2)) as (D' & T' & F').
    right. right. do 2 (split; [assumption |]).
    split; [congruence |]. split; [congruence |].
    split; [congruence |].
    intros type Hin Hinj. rewrite D'. now apply L.
Qed.

Lemma writeLists_lists_written (ext : Externals) (s : State) :
  index_ok s ->
  exists s',
    writeLists ext s = (Returned tt, s')
    /\ lists_written ext s s'
    /\ log s' = log s
    /\ lists_writing_thread s' = lists_writing_thread s
    /\ lists_writing_thread_is_waiting s' = lists_writing_thread_is_waiting s
    /\ (failed_to_write_lists s' = true \/ types_of_lists_to_write s' = [])
    /\ (failed_to_write_lists s = true \/ types_of_lists_to_write s = [] ->
        disk s' = disk s
        /\ types_of_lists_to_write s' = types_of_lists_to_write s
        /\ failed_to_write_lists s' = failed_to_write_lists s).
Proof.
  intros Hok.
  destruct (writeLists_effect ext s Hok)
    as (s' & Hrun & Hm & Hf & Hl & Ht & Hw & Hidle & Hdone).
  exists s'. split; [exact Hrun |].
  assert (Hkeep : failed_to_write_lists s = true
                  \/ types_of_lists_to_write s = [] ->
                  disk s' = disk s
                  /\ types_of_lists_to_write s' = types_of_lists_to_write s
                  /\ failed_to_write_lists s' = failed_to_write_lists s).
  { intros Hcase. now rewrite (Hidle Hcase). }
  destruct (failed_to_write_lists s) eqn:Hfailed.
  { destruct Hkeep as (D & T & F); [now left |].
    split; [apply lists_written_same;
             [exact Hm | exact Hf | exact D | congruence | congruence] |].
    do 3 (split; [assumption |]).
    split; [now left |]. intros _. now repeat split. }
  destruct (types_of_lists_to_write s) as [| type0 rest] eqn:Hset.
  { destruct Hkeep as (D & T & F); [now right |].
    split; [apply lists_written_same;
             [exact Hm | exact Hf | exact D | congruence | congruence] |].
    do 3 (split; [assumption |]).
    split; [now right |]. intros _. now repeat split. }
  destruct Hdone as (D1 & D2 & D3); [reflexivity | discriminate |].
  split.
  - split; [exact Hm |]. split; [exact Hf |].
    destruct (failed_to_write_lists s') eqn:Hfailed'.
    + right. left. destruct D2 as [D2 _]; [reflexivity |].
      rewrite Hset. now repeat split.
    + right. right. destruct D3 as [D3 D4]; [reflexivity |].
      rewrite Hset. split; [exact Hfailed |]. split; [discriminate |].
      now repeat split.
  - do 3 (split; [assumption |]). split; [now right |].
    intros [? | ?]; discriminate.
Qed.

Lemma stopListsWritingThread_effect (ext : Externals) (timed_out : bool)
    (s : State) :
  index_ok s ->
  exists s1,
    stopListsWritingThread ext timed_out s = (Returned tt, s1)
    /\ lists_written ext s s1
    /\ lists_writing_thread s1 = false.
Proof.
  intros Hok. unfold stopListsWritingThread.
  destruct (lists_writing_thread s) eqn:Hthread.
  2: { exists s. split; [reflexivity |]. split; [| exact Hthread].
       apply lists_written_same; try reflexivity. now repeat split. }
  unfold bind at 1. unfold emit at 1. cbn [modify].
  set (s1 := set_log (log s ++ [NotifyListsWritingThreadShouldExit]) s).
  unfold bind at 1.
  change (lists_writing_thread_is_waiting s1)
    with (lists_writing_thread_is_waiting s).
  destruct (lists_writing_thread_is_waiting s) eqn:Hwaiting.
  - unfold listsWritingThreadFunc, lock_guard.
    unfold bind at 1. cbn [modify]. unfold when.
    destruct timed_out.
    + set (s2 := set_lists_writing_thread_is_waiting false _).
      destruct (writeLists_lists_written ext s2 Hok)
        as (s3 & -> & Hw3 & _ & _ & _ & _ & _).
      cbn. eexists. split; [reflexivity |]. split; [| reflexivity].
      destruct Hw3 as (Hm3 & Hf3 & Hcases3).
      split; [exact Hm3 |]. split; [exact Hf3 |]. exact Hcases3.
    + cbn. eexists. split; [reflexivity |]. split; [| reflexivity].
      apply lists_written_same; try reflexivity. now repeat split.
  - cbn. eexists. split; [reflexivity |]. split; [| reflexivity].
    apply lists_written_same; try reflexivity. now repeat split.
Qed.

(** [shutdown] leaves no list unwritten.  From a state where the two
    maps describe the same entries, however the wait of the thread ends,
    [shutdown] returns (so the destructor has nothing to catch) with the
    members in memory as they were and the thread joined; afterwards no
    list is due unless writing has failed, and if lists were due and
    writing did not fail, the mark file is gone and each list file holds
    the pairs of its type (for the types with a file of their own). *)
Theorem shutdown_writes_lists (ext : Externals) (timed_out : bool)
    (s : State) :
  index_ok s ->
  let result := shutdown ext timed_out s in
  result.1 = Returned tt
  /\ destructor ext timed_out s = result
  /\ lists_written ext s result.2
  /\ lists_writing_thread result.2 = false
  /\ (failed_to_write_lists result.2 = true
      \/ types_of_lists_to_write result.2 = []).
Proof.
  intros Hok result.
  assert (Hrun : exists s',
            shutdown ext timed_out s = (Returned tt, s')
            /\ lists_written ext s s'
            /\ lists_writing_thread s' = false
            /\ (failed_to_write_lists s' = true
                \/ types_of_lists_to_write s' = [])).
  { destruct (stopListsWritingThread_effect ext timed_out s Hok)
      as (s1 & Hstop & Hw1 & Ht1).
    unfold shutdown. unfold bind at 1. rewrite Hstop.
    assert (Hok1 : index_ok s1)
      by (destruct Hw1 as (Hm1 & _); now apply (same_memory_index s)).
    unfold lock_guard.
    set (s1' := set_log (log s1 ++ [Lock]) s1).
    destruct (writeLists_lists_written ext s1' Hok1)
      as (s2 & -> & Hw2 & _ & Ht2 & _ & Hdone & Hidle).
    eexists. split; [reflexivity |]. cbn.
    split; [| split; [now rewrite Ht2 | exact Hdone]].
    apply (lists_written_trans ext s s1 _ Hw1).
    - destruct Hw2 as (Hm & Hf & Hcases). split; [exact Hm |].
      split; [exact Hf |]. exact Hcases.
    - exact Hidle. }
  destruct Hrun as (s' & Hrun & Hw & Ht & Hdone).
  assert (Hdestructor : destructor ext timed_out s = (Returned tt, s')).
  { unfold destructor, try_catch. now rewrite Hrun. }
  assert (Hresult : result = (Returned tt, s')) by exact Hrun.
  clearbody result. subst result. cbn [fst snd].
  split; [reflexivity |]. split; [exact Hdestructor |].
  split; [exact Hw |]. split; [exact Ht | exact Hdone].
Qed.

Lemma shutdown_writes_lists_witness :
  types_of_lists_to_write (shutdown simple_externals false small_storage).2
  = [].
Proof.
  destruct (proj2 (proj2 (proj2 (proj2
              (shutdown_writes_lists simple_externals false small_storage
                 small_storage_index))))) as [H | H]; [| exact H].
  vm_compute in H. discriminate.
Defined.

(** ** [findAllImpl] *)

(** [findAllImpl] lists the entries of a type, each once: in a state where
    the two maps describe the same entries it returns, without
    dereferencing a dangling pointer, a list without duplicates that holds
    exactly the ids of the entries of the type. *)
Theorem findAllImpl_lists_type (s : State) (type : AccessEntityType) :
  index_ok s ->
  exists ids,
    (findAllImpl type s).1 = Returned ids
    /\ NoDup ids
    /\ forall id,
         id ∈ ids
         <-> exists entry,
               entries_by_id s !! id = Some entry /\ entry_type entry = type.
Proof.
  intros Hok. pose proof Hok as [H1 H2].
  exists ((listed s type).*1).
  split; [| split].
  - unfold findAllImpl, lock_guard.
    rewrite (collect_index (set_log (log s ++ [Lock]) s) type Hok).
    reflexivity.
  - unfold listed. rewrite <- list_fmap_compose.
    apply NoDup_fmap_2_strong; [| apply NoDup_map_to_list].
    intros [name pointer] [name' pointer'] Hin Hin'. cbn. intros <-.
    apply elem_of_map_to_list in Hin, Hin'.
    destruct (H2 _ _ _ Hin) as (entry & Hentry & _ & <-).
    destruct (H2 _ _ _ Hin') as (entry' & Hentry' & _ & <-).
    congruence.
  - intros id. rewrite list_elem_of_fmap. split.
    + intros ([id' name] & -> & Hin). apply listed_elem in Hin. cbn.
      destruct (H2 _ _ _ Hin) as (entry & Hentry & Htype & _). now exists entry.
    + intros (entry & Hentry & <-). destruct (H1 _ _ Hentry) as [_ Hname].
      exists (id, entry_name entry). split; [reflexivity |].
      now apply listed_elem.
Qed.

Lemma findAllImpl_lists_type_witness :
  exists ids,
    (findAllImpl 0 small_storage).1 = Returned ids
    /\ NoDup ids
    /\ forall id,
         id ∈ ids
         <-> exists entry,
               entries_by_id small_storage !! id = Some entry
               /\ entry_type entry = 0.
Proof. exact (findAllImpl_lists_type small_storage 0 small_storage_index). Defined.


End DiskAccessStorageProofs.
